(** * ppExtender: dump decoder, sharded writer and warehouse materializer

    A shallow embedding of the Python sources of the ETL
    ([pipelines/sql_parser.py], [pipelines/sql_parser_fast.py],
    [pipelines/parquet_writer.py], [pipelines/duckdb_pipeline.py],
    [pipelines/run_pipeline.py], [scripts/lib/parallel_utils.py],
    [scripts/lib/sql_parser.py]) together with the properties the
    specification states about them and further properties of the code.

    Conventions.
    - Python [str] values are lists of [ascii] characters; the model covers
      text whose code points are below 128.
    - Python [float] is the kernel's binary64 [float], with its own
      multiplication; a decimal literal stands for the nearest binary64
      value, as it does in Python.
    - Python [int] is [Z]; row counts, which the sources only ever obtain
      from [len] / [num_rows], are [nat] where no subtraction can go below
      zero and [Z] where the source subtracts.
    - A Python exception that leaves a function is an explicit error result.
    - [while] loops whose termination depends on the arguments carry a fuel
      argument; every statement about them says which fuel is enough. *)

From stdpp Require Import base option list gmap strings sorting.
From Stdlib Require Import ZArith QArith Qpower Lia Bool Ascii Floats.
From Stdlib Require Import Sorting.Permutation Sorting.Sorted.
Import ListNotations.

Close Scope Q_scope.

#[global] Set Warnings "-inexact-float".

(* ===================================================================== *)
(** * Retry helper ([scripts/lib/parallel_utils.py], [retry_with_backoff]) *)
(* ===================================================================== *)

Module Retry.

(** What [time.sleep] raises when it refuses a delay. *)
Inductive sleep_error := ValueError | OverflowError.

Section WithCallable.

(** The wrapped callable is stateful: calling it in world [W] either
    returns a value or raises, and leaves a new world. *)
Variables (W V E : Type).

Inductive outcome := Returned (v : V) | Raised (e : E).

Variable func : W -> outcome * W.

(** [exceptions]: the caught classes, as a predicate on what was raised. *)
Variable exceptions : E -> bool.

(** [time.sleep(delay)]: [None] when it returns after the pause.  It
    raises [ValueError] on a negative delay and on a NaN, and
    [OverflowError] on a delay the clock of the platform cannot count. *)
Variable time_sleep : float -> option sleep_error.

(** What leaves the helper when it raises.  [last_exception] starts as
    [Exception("No attempts made")]; what [time.sleep] raises inside the
    [except] block is not caught there. *)
Inductive failure :=
| NoAttemptsMade
| Failure (e : E)
| SleepFailed (s : sleep_error).

(** What an execution does, in order: a call of [func] with its outcome,
    or [time.sleep(d)].  Delays are floats, as the signature has them. *)
Inductive event := Call (o : outcome) | Sleep (d : float).

Record run := mkRun {
  result : V + failure;        (* returned value, or the exception raised *)
  trace  : list event;
  world  : W
}.

Variables (max_retries : Z) (initial_delay backoff_factor : float).

(** The body of [for attempt in range(max_retries + 1)]; [todo] counts the
    iterations that are left, [attempt] is the loop variable.  The two
    log lines are left out: formatting the exception and the delay for
    the logger is taken to go through. *)
Fixpoint attempts (todo : nat) (attempt : Z) (delay : float)
         (last_exception : failure) (w : W) (tr : list event) : run :=
  match todo with
  | O => mkRun (inr last_exception) tr w        (* raise last_exception *)
  | S todo' =>
      match func w with
      | (Returned v, w') => mkRun (inl v) (tr ++ [Call (Returned v)]) w'
      | (Raised e, w') =>
          if exceptions e then
            if (attempt <? max_retries)%Z then
              match time_sleep delay with
              | Some s =>
                  mkRun (inr (SleepFailed s))
                        (tr ++ [Call (Raised e); Sleep delay]) w'
              | None =>
                  attempts todo' (attempt + 1)%Z (delay * backoff_factor)%float
                           (Failure e) w'
                           (tr ++ [Call (Raised e); Sleep delay])
              end
            else
              attempts todo' (attempt + 1)%Z delay
                       (Failure e) w' (tr ++ [Call (Raised e)])
          else mkRun (inr (Failure e)) (tr ++ [Call (Raised e)]) w'
      end
  end.

Definition retry_with_backoff (w : W) : run :=
  attempts (Z.to_nat (max_retries + 1)) 0%Z initial_delay NoAttemptsMade w [].

(** ** Observations on a trace *)

Definition is_call (ev : event) : bool :=
  match ev with Call _ => true | Sleep _ => false end.

(** Number of times [func] was called. *)
Definition calls (tr : list event) : nat := length (filter is_call tr).

(** Number of pauses asked for. *)
Definition sleeps (tr : list event) : nat :=
  length (filter (fun ev => negb (is_call ev)) tr).

(** What the failed calls raised, in order. *)
Fixpoint raised (tr : list event) : list E :=
  match tr with
  | [] => []
  | Call (Raised e) :: tr' => e :: raised tr'
  | _ :: tr' => raised tr'
  end.

(** The exception the caller sees when nothing was returned and every
    pause went through. *)
Definition last_failure (rs : list E) : failure :=
  match last rs with
  | Some e => Failure e
  | None => NoAttemptsMade
  end.

(** [delay] after [n] executions of [delay *= backoff_factor]: the
    initial delay times the [n]-th power of the factor, as the helper
    computes it. *)
Fixpoint delay_after (n : nat) : float :=
  match n with
  | O => initial_delay
  | S n' => (delay_after n' * backoff_factor)%float
  end.

(** Failed attempt number [k] followed by its back-off pause. *)
Definition round (k : nat) (e : E) : list event :=
  [Call (Raised e); Sleep (delay_after k)].

Fixpoint rounds (k : nat) (es : list E) : list event :=
  match es with
  | [] => []
  | e :: es' => round k e ++ rounds (S k) es'
  end.

(** The first [n] pauses from pause [k] on are accepted by [time.sleep]. *)
Definition pauses_return (k n : nat) : Prop :=
  forall j, j < n -> time_sleep (delay_after (k + j)) = None.

End WithCallable.

Arguments Returned {V E}.
Arguments Raised {V E}.
Arguments NoAttemptsMade {E}.
Arguments Failure {E}.
Arguments SleepFailed {E}.
Arguments Call {V E}.
Arguments Sleep {V E}.
Arguments result {W V E}.
Arguments trace {W V E}.
Arguments world {W V E}.
Arguments calls {V E}.
Arguments sleeps {V E}.
Arguments raised {V E}.
Arguments last_failure {E}.

(** A callable that raises on every call and counts its calls. *)
Definition always_failing (w : nat) : outcome nat unit * nat := (Raised tt, S w).

(** [time.sleep] as CPython has it over a clock that counts nanoseconds in
    64 bits: a NaN is refused with [ValueError], a delay whose nanoseconds
    do not fit the clock with [OverflowError], and a negative one with
    [ValueError]. *)
Definition sleep_checks (d : float) : option sleep_error :=
  let ns := (d * 1000000000)%float in
  if is_nan d then Some ValueError
  else if (9223372036854775808 <=? ns)%float
          || (ns <? -9223372036854775808)%float
       then Some OverflowError
  else if (d <? 0)%float then Some ValueError
  else None.

Section Facts.

Context {W V E : Type}.
Variable func : W -> outcome V E * W.
Variable exceptions : E -> bool.
Variable time_sleep : float -> option sleep_error.
Variables (max_retries : Z) (initial_delay backoff_factor : float).

Local Abbreviation attempts :=
  (attempts W V E func exceptions time_sleep max_retries backoff_factor).
Local Abbreviation delay_after := (delay_after initial_delay backoff_factor).
Local Abbreviation rounds := (rounds V E initial_delay backoff_factor).
Local Abbreviation pauses_return :=
  (pauses_return time_sleep initial_delay backoff_factor).
Local Abbreviation retry_with_backoff :=
  (retry_with_backoff W V E func exceptions time_sleep max_retries
                      initial_delay backoff_factor).

Lemma calls_app (t1 t2 : list (event V E)) : calls (t1 ++ t2) = calls t1 + calls t2.
Proof. unfold calls. by rewrite filter_app, length_app. Qed.

Lemma sleeps_app (t1 t2 : list (event V E)) :
  sleeps (t1 ++ t2) = sleeps t1 + sleeps t2.
Proof. unfold sleeps. by rewrite filter_app, length_app. Qed.

Lemma raised_app (t1 t2 : list (event V E)) : raised (t1 ++ t2) = raised t1 ++ raised t2.
Proof.
  induction t1 as [|[[v|e]|d] t1 IH]; simpl; auto. by rewrite IH.
Qed.

Lemma last_failure_snoc (rs : list E) e : last_failure (rs ++ [e]) = Failure e.
Proof. unfold last_failure. by rewrite last_snoc. Qed.

Lemma calls_rounds k es : calls (rounds k es) = length es.
Proof.
  revert k. induction es as [|e es IH]; intros k; [done|].
  change (rounds k (e :: es))
    with (round V E initial_delay backoff_factor k e ++ rounds (S k) es).
  rewrite calls_app, IH. reflexivity.
Qed.

Lemma sleeps_rounds k es : sleeps (rounds k es) = length es.
Proof.
  revert k. induction es as [|e es IH]; intros k; [done|].
  change (rounds k (e :: es))
    with (round V E initial_delay backoff_factor k e ++ rounds (S k) es).
  rewrite sleeps_app, IH. reflexivity.
Qed.

Lemma raised_rounds k es : raised (rounds k es) = es.
Proof. revert k. induction es as [|e es IH]; intros k; simpl; [done|]. by rewrite IH. Qed.

Lemma pauses_return_S (k n : nat) :
  time_sleep (delay_after k) = None -> pauses_return (S k) n ->
  pauses_return k (S n).
Proof.
  intros H0 H j Hj. destruct j as [|j].
  - by rewrite Nat.add_0_r.
  - replace (k + S j) with (S k + j) by lia. apply H. lia.
Qed.

(** The loop, from any iteration on.  What it appends to the trace is a
    sequence of failed rounds, each of a caught class and with its pause,
    and then at most one call without a pause.  It ends with the value
    returned, with the failure of the last call (not caught, or no retry
    left), or with what [time.sleep] raised on the last pause. *)
Lemma attempts_shape todo : forall attempt last_exception w tr k,
  Z.of_nat todo = Z.max 0 (max_retries + 1 - attempt) ->
  let r := attempts todo attempt (delay_after k) last_exception w tr in
  exists (es : list E) (final : list (event V E)),
    trace r = tr ++ rounds k es ++ final
    /\ Forall (fun e => exceptions e = true) es
    /\ match result r with
       | inl v =>
           final = [Call (Returned v)] /\ length es < todo
           /\ pauses_return k (length es)
       | inr x =>
           (todo = 0 /\ es = [] /\ final = [] /\ x = last_exception)
           \/ (exists e, final = [Call (Raised e)] /\ x = Failure e
                         /\ (exceptions e = false /\ length es < todo
                             \/ exceptions e = true /\ S (length es) = todo)
                         /\ pauses_return k (length es))
           \/ (exists s n, final = [] /\ x = SleepFailed s
                           /\ length es = S n /\ S n < todo
                           /\ pauses_return k n
                           /\ time_sleep (delay_after (k + n)) = Some s)
       end.
Proof.
  induction todo as [|todo IH]; intros attempt lastx w tr k Htodo; simpl.
  - exists [], []. rewrite app_nil_r. split_and!; auto.
  - destruct (func w) as [[v|e] w'].
    + exists [], [Call (Returned v)]. simpl. split_and!; auto; try lia.
      intros j Hj. lia.
    + destruct (exceptions e) eqn:Ee; cycle 1.
      { exists [], [Call (Raised e)]. simpl. split_and!; auto.
        right. left. exists e. split_and!; auto.
        - left. split; [done|lia].
        - intros j Hj. lia. }
      destruct (Z.ltb_spec attempt max_retries) as [Hlt|Hge].
      * destruct (time_sleep (delay_after k)) as [s|] eqn:Es.
        { exists [e], []. simpl. split_and!; auto.
          right. right. exists s, 0. rewrite Nat.add_0_r.
          split_and!; auto; try lia. intros j Hj. lia. }
        destruct (IH (attempt + 1)%Z (Failure e) w'
                     (tr ++ [Call (Raised e); Sleep (delay_after k)]) (S k)
                     ltac:(lia))
          as (es & final & Htr & Hcaught & Hres).
        exists (e :: es), final.
        split; [simpl in *; by rewrite Htr, <- app_assoc|].
        split; [by constructor|].
        simpl in *. destruct (result _) as [v|x].
        -- destruct Hres as (-> & Hl & Hp). split_and!; auto; try lia.
           by apply pauses_return_S.
        -- destruct Hres as [(H0 & _)|[(e' & -> & -> & Hwhy & Hp)
                                      |(s & n & -> & -> & Hn & Hlt' & Hp & Hs)]].
           ++ lia.
           ++ right. left. exists e'. split_and!; auto.
              ** destruct Hwhy as [[? ?]|[? ?]]; [left|right]; split; auto; lia.
              ** by apply pauses_return_S.
           ++ right. right. exists s, (S n). split_and!; auto; try lia.
              ** by apply pauses_return_S.
              ** by replace (k + S n) with (S k + n) by lia.
      * assert (todo = 0) as -> by lia. simpl.
        exists [], [Call (Raised e)]. simpl. split_and!; auto.
        right. left. exists e. split_and!; auto. intros j Hj. lia.
Qed.

(** C6, as the code has it.  For every callable, caught-exception filter,
    [max_retries], initial delay and back-off factor whose pauses
    [time.sleep] accepts, a run of [retry_with_backoff] is a sequence of
    failed attempts [0, 1, ...], attempt [n] being followed by a pause of
    the initial delay multiplied [n] times by the factor, and then one
    last call without a pause.  [func] is called at most
    [max_retries + 1] times (one first attempt and [max_retries] retries),
    and when no value is returned the exception that leaves the helper is
    the last one [func] raised ([No attempts made] if it was never
    called). *)
Theorem retry_with_backoff_spec (w : W) :
  (forall n, (Z.of_nat n < max_retries)%Z ->
             time_sleep (delay_after n) = None) ->
  let r := retry_with_backoff w in
  exists (es : list E) (final : list (event V E)),
    trace r = rounds 0 es ++ final
    /\ calls (trace r) = length es + length final
    /\ calls (trace r) <= Z.to_nat (max_retries + 1)
    /\ match result r with
       | inl v => final = [Call (Returned v)]
       | inr x => x = last_failure (raised (trace r))
                  /\ (final = [] /\ calls (trace r) = 0
                      \/ exists e, final = [Call (Raised e)])
       end.
Proof.
  intros Hsleep. cbv zeta. unfold Retry.retry_with_backoff.
  destruct (attempts_shape (Z.to_nat (max_retries + 1)) 0%Z NoAttemptsMade
              w [] 0 ltac:(lia))
    as (es & final & Htr & _ & Hres).
  cbn [Retry.delay_after] in Htr, Hres.
  set (r := Retry.attempts _ _ _ _ _ _ _ _ _ _ _ _ _ _) in *.
  simpl in Htr. exists es, final. split; [exact Htr|].
  rewrite Htr, calls_app, calls_rounds, raised_app, raised_rounds.
  destruct (result r) as [v|x].
  - destruct Hres as (-> & Hlen & _). unfold calls. simpl.
    split_and!; auto; lia.
  - destruct Hres as [(H0 & -> & -> & ->)
                     |[(e & -> & -> & Hwhy & _)
                      |(s & n & _ & _ & Hn & Hlt & _ & Hs)]].
    + unfold calls. simpl. split_and!; auto; lia.
    + simpl. rewrite last_failure_snoc. unfold calls. simpl.
      split_and!; auto; [destruct Hwhy as [[_ ?]|[_ ?]]; lia|].
      right. by exists e.
    + exfalso. simpl in Hs. rewrite Hsleep in Hs by lia. done.
Qed.

(** Only failures of the caught classes are retried.  A run is a sequence
    of failed attempts, each of a caught class and each followed by its
    pause, and then at most one last call.  An exception leaves the helper
    in one of three ways: the last call failed with an exception that is
    not of a caught class (then fewer than [max_retries + 1] calls may
    have been made); it was call number [max_retries + 1]; or
    [time.sleep] refused the delay of the last pause, and then what it
    raised leaves the helper in place of the failure of [func]. *)
Theorem only_caught_failures_are_retried (w : W) :
  let r := retry_with_backoff w in
  exists (es : list E) (final : list (event V E)),
    trace r = rounds 0 es ++ final
    /\ Forall (fun e => exceptions e = true) es
    /\ sleeps (trace r) = length es
    /\ match result r with
       | inl v => final = [Call (Returned v)] /\ pauses_return 0 (length es)
       | inr NoAttemptsMade =>
           final = [] /\ es = [] /\ (max_retries < 0)%Z
       | inr (Failure e) =>
           final = [Call (Raised e)]
           /\ (exceptions e = false
               \/ Z.of_nat (S (length es)) = (max_retries + 1)%Z)
           /\ pauses_return 0 (length es)
       | inr (SleepFailed s) =>
           final = []
           /\ exists n, length es = S n /\ (Z.of_nat n < max_retries)%Z
                        /\ pauses_return 0 n
                        /\ time_sleep (delay_after n) = Some s
       end.
Proof.
  cbv zeta. unfold Retry.retry_with_backoff.
  destruct (attempts_shape (Z.to_nat (max_retries + 1)) 0%Z NoAttemptsMade
              w [] 0 ltac:(lia))
    as (es & final & Htr & Hcaught & Hres).
  cbn [Retry.delay_after] in Htr, Hres.
  set (r := Retry.attempts _ _ _ _ _ _ _ _ _ _ _ _ _ _) in *.
  simpl in Htr. exists es, final. split; [exact Htr|]. split; [done|].
  rewrite Htr, sleeps_app, sleeps_rounds.
  destruct (result r) as [v|x].
  - destruct Hres as (-> & _ & Hp). split_and!; auto.
  - destruct Hres as [(H0 & -> & -> & ->)
                     |[(e & -> & -> & Hwhy & Hp)
                      |(s & n & -> & -> & Hn & Hlt & Hp & Hs)]].
    + split_and!; auto. lia.
    + split_and!; auto. destruct Hwhy as [[? ?]|[? ?]]; [by left|right]. lia.
    + split; [unfold sleeps; simpl; lia|]. split; [done|].
      exists n. split_and!; auto. lia.
Qed.

Lemma attempts_exhausted todo : forall k last_exception w tr,
  (forall w', exists e w'', func w' = (Raised e, w'') /\ exceptions e = true) ->
  (forall n, (Z.of_nat n < max_retries)%Z ->
             time_sleep (delay_after n) = None) ->
  Z.of_nat todo = Z.max 0 (max_retries + 1 - Z.of_nat k) ->
  let r := attempts todo (Z.of_nat k) (delay_after k) last_exception w tr in
  exists more,
    trace r = tr ++ more
    /\ calls more = todo
    /\ sleeps more = Z.to_nat (max_retries - Z.of_nat k)
    /\ result r = inr (match last (raised more) with
                       | Some e => Failure e
                       | None => last_exception
                       end).
Proof.
  induction todo as [|todo IH]; intros k lastx w tr Hf Hsleep Htodo; simpl.
  - exists []. rewrite app_nil_r. split_and!; auto. unfold sleeps. simpl. lia.
  - destruct (Hf w) as (e & w'' & -> & ->).
    destruct (Z.ltb_spec (Z.of_nat k) max_retries) as [Hlt|Hge].
    + rewrite (Hsleep k Hlt).
      replace (Z.of_nat k + 1)%Z with (Z.of_nat (S k)) by lia.
      destruct (IH (S k) (Failure e) w''
                   (tr ++ [Call (Raised e); Sleep (delay_after k)])
                   Hf Hsleep ltac:(lia))
        as (more & Htr & Hc & Hs & Hres).
      exists ([Call (Raised e); Sleep (delay_after k)] ++ more).
      split; [simpl in *; by rewrite Htr, <- app_assoc|].
      split; [rewrite calls_app, Hc; reflexivity|].
      split; [rewrite sleeps_app, Hs; unfold sleeps; simpl; lia|].
      simpl in *. rewrite Hres. rewrite last_cons.
      by destruct (last (raised more)).
    + assert (todo = 0) as -> by lia. simpl.
      exists [Call (Raised e)]. split_and!; auto. unfold sleeps. simpl. lia.
Qed.

(** When every call fails with an exception of a caught class and
    [time.sleep] accepts the pauses, [func] is called [max_retries + 1]
    times with [max_retries] pauses between the calls, and the last
    exception raised leaves the helper; with a negative [max_retries] it
    is not called at all and [No attempts made] is raised. *)
Theorem retries_exhausted (w : W) :
  (forall w', exists e w'', func w' = (Raised e, w'') /\ exceptions e = true) ->
  (forall n, (Z.of_nat n < max_retries)%Z ->
             time_sleep (delay_after n) = None) ->
  let r := retry_with_backoff w in
  calls (trace r) = Z.to_nat (max_retries + 1)
  /\ sleeps (trace r) = Z.to_nat max_retries
  /\ result r = inr (last_failure (raised (trace r)))
  /\ ((max_retries < 0)%Z -> trace r = [] /\ result r = inr NoAttemptsMade).
Proof.
  intros Hf Hsleep. cbv zeta. unfold Retry.retry_with_backoff.
  destruct (attempts_exhausted (Z.to_nat (max_retries + 1)) 0 NoAttemptsMade
              w [] Hf Hsleep ltac:(lia))
    as (more & Htr & Hc & Hs & Hres).
  change (Z.of_nat 0) with 0%Z in Htr, Hres, Hs.
  cbn [Retry.delay_after] in Htr, Hres.
  simpl in Htr. rewrite Htr, Hres. rewrite Z.sub_0_r in Hs.
  split_and!; auto.
  intros Hneg.
  assert (more = []) as ->; [|done].
  destruct more as [|ev more]; [done|]. exfalso.
  assert (sleeps (ev :: more) = 0) as Hs0 by lia.
  assert (calls (ev :: more) = 0) as Hc0 by lia.
  unfold sleeps, calls in Hs0, Hc0.
  destruct ev as [o|d];
    [rewrite filter_cons_True in Hc0 by done
    |rewrite filter_cons_True in Hs0 by done]; simpl in *; lia.
Qed.

End Facts.

(** C6 as stated fails, in each of its three parts.  With
    [max_retries = 1] and a callable that always raises, [func] is called
    twice.  With an initial delay of a tenth of a second and a factor of
    three, the pause after failed attempt 2 is the delay multiplied twice
    by the factor, which is not the initial delay times the square of the
    factor.  With a negative initial delay the first pause is refused,
    and what leaves the helper after one failed call is what [time.sleep]
    raised, not the failure of [func]. *)
Lemma retry_makes_more_than_max_retries_attempts :
  (let r := retry_with_backoff nat nat unit always_failing (fun _ => true)
              sleep_checks 1 1 2 0 in
   calls (trace r) = 2
   /\ result r = inr (Failure tt)
   /\ ~ (calls (trace r) <= Z.to_nat 1))
  /\ (let r := retry_with_backoff nat nat unit always_failing (fun _ => true)
                 sleep_checks 3 0.1 3 0 in
      trace r = [Call (Raised tt); Sleep 0.1;
                 Call (Raised tt); Sleep 0.30000000000000004;
                 Call (Raised tt); Sleep 0.9000000000000001;
                 Call (Raised tt)]
      /\ (0.9000000000000001 =? 0.1 * (3 * 3))%float = false)
  /\ (let r := retry_with_backoff nat nat unit always_failing (fun _ => true)
                 sleep_checks 3 (-1) 2 0 in
      trace r = [Call (Raised tt); Sleep (-1)]
      /\ result r = inr (SleepFailed ValueError)).
Proof.
  cbv zeta. split; [|split].
  - vm_compute. repeat split. lia.
  - split; reflexivity.
  - split; reflexivity.
Qed.

(** Two retries with an initial delay of a tenth of a second and a factor
    of three: the second pause is the float product of the two. *)
Lemma retry_with_backoff_spec_witness :
  let r := retry_with_backoff nat nat unit always_failing (fun _ => true)
             sleep_checks 2 0.1 3 0 in
  trace r = [Call (Raised tt); Sleep 0.1; Call (Raised tt);
             Sleep 0.30000000000000004; Call (Raised tt)]
  /\ exists es final,
       trace r = rounds nat unit 0.1 3 0 es ++ final
       /\ calls (trace r) = length es + length final
       /\ calls (trace r) <= Z.to_nat (2 + 1).
Proof.
  split; [reflexivity|].
  destruct (retry_with_backoff_spec always_failing (fun _ => true)
              sleep_checks 2 0.1 3 0) as (es & final & H1 & H2 & H3 & _).
  { intros [|[|n]] Hn; [reflexivity|reflexivity|lia]. }
  exists es, final. split; [exact H1|]. split; [exact H2|exact H3].
Defined.

(** A callable that always raises, retried three times with pauses of 1,
    2 and 4 seconds. *)
Lemma retries_exhausted_witness :
  let r := retry_with_backoff nat nat unit always_failing (fun _ => true)
             sleep_checks 3 1 2 0 in
  trace r = [Call (Raised tt); Sleep 1; Call (Raised tt); Sleep 2;
             Call (Raised tt); Sleep 4; Call (Raised tt)]
  /\ calls (trace r) = Z.to_nat (3 + 1)
  /\ sleeps (trace r) = Z.to_nat 3.
Proof.
  split; [reflexivity|].
  pose proof (retries_exhausted always_failing (fun _ => true) sleep_checks
                3 1 2 0) as H.
  destruct H as (Hc & Hs & _).
  - intros w'. by exists tt, (S w').
  - intros [|[|[|n]]] Hn; [reflexivity|reflexivity|reflexivity|lia].
  - split; [exact Hc|exact Hs].
Defined.

End Retry.

(* ===================================================================== *)
(** * Sharded columnar writer ([pipelines/parquet_writer.py])             *)
(* ===================================================================== *)

Module Parquet.

Local Open Scope Z_scope.

(** An Arrow schema: the fields in order, each a name and a type name.
    [bool(schema)] is [len(schema) > 0]. *)
Definition Schema := list (string * string).

Section Writer.

(** A row of a record batch; the writer never looks inside one. *)
Variable R : Type.

Record RecordBatch := mkBatch {
  batch_schema : Schema;
  batch_rows : list R
}.

Definition num_rows (b : RecordBatch) : Z := Z.of_nat (length (batch_rows b)).

(** [x.slice(offset, length)] on rows; Arrow clips at the end of the data
    and a [length <= 0] gives no rows. *)
Definition slice_rows (rows : list R) (offset len : Z) : list R :=
  take (Z.to_nat len) (drop (Z.to_nat offset) rows).

(** [batch.slice(offset, length)] and [batch.slice(offset)]. *)
Definition slice (b : RecordBatch) (offset len : Z) : RecordBatch :=
  mkBatch (batch_schema b) (slice_rows (batch_rows b) offset len).
Definition slice_from (b : RecordBatch) (offset : Z) : RecordBatch :=
  mkBatch (batch_schema b) (drop (Z.to_nat offset) (batch_rows b)).

(** [pa.Table.from_batches]: the rows of the batches, in order.  (Arrow
    refuses batches of different schemas; the model leaves schemas alone.) *)
Definition from_batches (bs : list RecordBatch) : list R :=
  concat (map batch_rows bs).

(** A shard file: the schema in its header and its row groups, one per
    [write_table] call. *)
Record shard := mkShard {
  shard_schema : option Schema;
  row_groups : list (list R)
}.

Definition shard_rows (f : shard) : Z := Z.of_nat (length (concat (row_groups f))).

(** One element of [file_info].  The file name [part-NNNNNN.parquet] is
    kept as its index [NNNNNN]. *)
Record file_entry := mkEntry {
  file : Z;
  rows : Z;
  size_bytes : Z;
  hash : string
}.

(** [Path.stat().st_size] and [_compute_hash] of a closed file. *)
Variable st_size : shard -> Z.
Variable compute_hash : shard -> string.

(** The constructor's limits. *)
Variables (row_group_rows file_rows : Z).

(** The writer object, with the directory it writes to: [disk] maps the
    index of each closed shard file to its contents. *)
Record ParquetWriter := mkWriter {
  schema : option Schema;
  current_file_index : Z;
  current_row_count : Z;
  total_row_count : Z;
  file_info : list file_entry;
  current_writer : option shard;
  current_file_path : Z;
  buffered_batches : list RecordBatch;
  buffered_rows : Z;
  disk : gmap Z shard
}.

(** [__init__]. *)
Definition init (schema0 : option Schema) : ParquetWriter :=
  mkWriter schema0 0 0 0 [] None 0 [] 0 ∅.

(** [_close_current_file]. *)
Definition _close_current_file (w : ParquetWriter) : ParquetWriter :=
  match current_writer w with
  | None => w
  | Some f =>
      mkWriter (schema w) (current_file_index w) (current_row_count w)
               (total_row_count w)
               (file_info w ++
                  [mkEntry (current_file_path w) (current_row_count w)
                           (st_size f) (compute_hash f)])
               None (current_file_path w)
               (buffered_batches w) (buffered_rows w)
               (<[current_file_path w := f]> (disk w))
  end.

(** [_start_new_file]. *)
Definition _start_new_file (w : ParquetWriter) : ParquetWriter :=
  let w := match current_writer w with
           | Some _ => _close_current_file w
           | None => w
           end in
  mkWriter (schema w) (current_file_index w + 1) 0 (total_row_count w)
           (file_info w) (Some (mkShard (schema w) []))
           (current_file_index w)
           (buffered_batches w) (buffered_rows w) (disk w).

(** One [self.current_writer.write_table(chunk)] with the two counter
    updates that follow it. *)
Definition write_chunk (chunk : list R) (chunk_size : Z) (w : ParquetWriter)
  : ParquetWriter :=
  mkWriter (schema w) (current_file_index w) (current_row_count w + chunk_size)
           (total_row_count w) (file_info w)
           (match current_writer w with
            | Some f => Some (mkShard (shard_schema f) (row_groups f ++ [chunk]))
            | None => None
            end)
           (current_file_path w) (buffered_batches w) (buffered_rows w) (disk w).

(** The [while rows_written < total_rows] loop of [_write_table_to_file].
    [None]: the loop did not come to its end within [fuel] iterations. *)
Fixpoint write_chunks (fuel : nat) (table : list R) (rows_written : Z)
         (w : ParquetWriter) : option ParquetWriter :=
  let total_rows := Z.of_nat (length table) in
  if (rows_written <? total_rows)%Z then
    match fuel with
    | O => None
    | S fuel' =>
        let chunk_size := Z.min row_group_rows (total_rows - rows_written) in
        let chunk := slice_rows table rows_written chunk_size in
        write_chunks fuel' table (rows_written + chunk_size)
                     (write_chunk chunk chunk_size w)
    end
  else Some w.

(** [_write_table_to_file]. *)
Definition _write_table_to_file (fuel : nat) (table : list R)
           (w : ParquetWriter) : option ParquetWriter :=
  let w := match current_writer w with
           | None => _start_new_file w
           | Some _ => w
           end in
  write_chunks fuel table 0 w.

(** The [while rows_remaining > 0 and self._buffered_batches] loop of
    [_write_rows_to_current_file]: the batches to write, the buffer that is
    left and the new [_buffered_rows]. *)
Fixpoint take_rows (rows_remaining : Z) (bs : list RecordBatch) (brows : Z)
  : list RecordBatch * list RecordBatch * Z :=
  match bs with
  | [] => ([], [], brows)
  | batch :: bs' =>
      if (0 <? rows_remaining)%Z then
        if (num_rows batch <=? rows_remaining)%Z then
          let '(to_write, rest, brows') :=
            take_rows (rows_remaining - num_rows batch) bs'
                      (brows - num_rows batch) in
          (batch :: to_write, rest, brows')
        else
          ([slice batch 0 rows_remaining],
           slice_from batch rows_remaining :: bs',
           brows - rows_remaining)
      else ([], bs, brows)
  end.

Definition set_buffer (bs : list RecordBatch) (brows : Z) (w : ParquetWriter)
  : ParquetWriter :=
  mkWriter (schema w) (current_file_index w) (current_row_count w)
           (total_row_count w) (file_info w) (current_writer w)
           (current_file_path w) bs brows (disk w).

(** [_write_rows_to_current_file]. *)
Definition _write_rows_to_current_file (fuel : nat) (n : Z)
           (w : ParquetWriter) : option ParquetWriter :=
  if (n <=? 0)%Z || match buffered_batches w with [] => true | _ => false end
  then Some w
  else
    let '(rows_to_write, rest, brows) :=
      take_rows n (buffered_batches w) (buffered_rows w) in
    let w := set_buffer rest brows w in
    match rows_to_write with
    | [] => Some w
    | _ => _write_table_to_file fuel (from_batches rows_to_write) w
    end.

(** [_write_all_buffered_rows]. *)
Definition _write_all_buffered_rows (fuel : nat) (w : ParquetWriter)
  : option ParquetWriter :=
  match buffered_batches w with
  | [] => Some w
  | bs => w' ← _write_table_to_file fuel (from_batches bs) w;
          Some (set_buffer [] 0 w')
  end.

(** The [while self._buffered_rows > 0] loop of [write_batch]. *)
Fixpoint write_batch_loop (fuel : nat) (w : ParquetWriter)
  : option ParquetWriter :=
  if (0 <? buffered_rows w)%Z then
    match fuel with
    | O => None
    | S fuel' =>
        let w := match current_writer w with
                 | None => _start_new_file w
                 | Some _ => w
                 end in
        if (file_rows <? current_row_count w + buffered_rows w)%Z then
          let rows_needed := (file_rows - current_row_count w)%Z in
          w' ← (if (0 <? rows_needed)%Z && (0 <? buffered_rows w)%Z
                then _write_rows_to_current_file fuel' rows_needed w
                else Some w);
          write_batch_loop fuel' (_close_current_file w')
        else _write_all_buffered_rows fuel' w
    end
  else Some w.

(** [write_batch]. *)
Definition write_batch (fuel : nat) (batch : RecordBatch) (w : ParquetWriter)
  : option ParquetWriter :=
  if (num_rows batch =? 0)%Z then Some w
  else
    let sch := match schema w with
               | None => Some (batch_schema batch)
               | Some s => Some s
               end in
    write_batch_loop fuel
      (mkWriter sch (current_file_index w) (current_row_count w)
                (total_row_count w + num_rows batch) (file_info w)
                (current_writer w) (current_file_path w)
                (buffered_batches w ++ [batch])
                (buffered_rows w + num_rows batch) (disk w)).

(** The manifest document. *)
Record manifest := mkManifest {
  table_name : string;
  version : string;
  created_at : string;
  files : list file_entry;
  total_rows : Z;
  schema_fields : Schema
}.

(** The writer's [table_name] and the clock reading formatted by
    [_generate_manifest]. *)
Variables (the_table_name now : string).

(** [_generate_manifest].  Reading the first file's header fails when the
    file is not there; the source swallows that and leaves [fields] empty. *)
Definition _generate_manifest (w : ParquetWriter) : manifest :=
  let fields :=
    match file_info w with
    | first :: _ =>
        match disk w !! file first with
        | Some f => match shard_schema f with Some s => s | None => [] end
        | None => []
        end
    | [] =>
        match schema w with
        | Some (fld :: s) => fld :: s
        | _ => []
        end
    end in
  mkManifest the_table_name "1.0" now (file_info w) (total_row_count w) fields.

(** [finalize]: the manifest it returns (and writes), and the writer. *)
Definition finalize (fuel : nat) (w : ParquetWriter)
  : option (manifest * ParquetWriter) :=
  w1 ← match buffered_batches w with
       | [] => Some w
       | _ => _write_all_buffered_rows fuel
                (match current_writer w with
                 | None => _start_new_file w
                 | Some _ => w
                 end)
       end;
  let w2 := match current_writer w1 with
            | Some _ => _close_current_file w1
            | None => w1
            end in
  Some (_generate_manifest w2, w2).

(** [write_parquet_batches]: a run of the writer. *)
Fixpoint write_batches (fuel : nat) (batches : list RecordBatch)
         (w : ParquetWriter) : option ParquetWriter :=
  match batches with
  | [] => Some w
  | b :: bs => w' ← write_batch fuel b w; write_batches fuel bs w'
  end.

Definition write_parquet_batches (fuel : nat) (schema0 : option Schema)
           (batches : list RecordBatch) : option (manifest * ParquetWriter) :=
  w ← write_batches fuel batches (init schema0); finalize fuel w.

(** Sum of the [rows] fields of manifest entries. *)
Definition sum_rows (es : list file_entry) : Z :=
  foldr (fun e acc => (rows e + acc)%Z) 0%Z es.

(** ** Invariants of the writer *)

(** Rows held in a list of batches. *)
Definition batches_rows (bs : list RecordBatch) : Z :=
  foldr (fun b acc => num_rows b + acc) 0 bs.

(** Every row group of a shard respects the row-group budget. *)
Definition groups_ok (f : shard) : Prop :=
  Forall (fun g => Z.of_nat (length g) <= row_group_rows) (row_groups f).

(** A shard respects both budgets. *)
Definition shard_ok (f : shard) : Prop :=
  shard_rows f <= file_rows /\ groups_ok f.

(** Rows in the file that is open, if one is. *)
Definition open_rows (w : ParquetWriter) : Z :=
  match current_writer w with
  | Some _ => current_row_count w
  | None => 0
  end.

(** The writer with [new] row groups appended to the file that is open. *)
Definition appended (new : list (list R)) (w : ParquetWriter) : ParquetWriter :=
  mkWriter (schema w) (current_file_index w)
           (current_row_count w + Z.of_nat (length (concat new)))
           (total_row_count w) (file_info w)
           (match current_writer w with
            | Some f => Some (mkShard (shard_schema f) (row_groups f ++ new))
            | None => None
            end)
           (current_file_path w) (buffered_batches w) (buffered_rows w) (disk w).

(** [self._start_new_file()] when no file is open. *)
Definition ensure_open (w : ParquetWriter) : ParquetWriter :=
  match current_writer w with
  | None => _start_new_file w
  | Some _ => w
  end.

Record Inv (w : ParquetWriter) : Prop := mkInv {
  inv_buf_rows : buffered_rows w = batches_rows (buffered_batches w);
  inv_buf_pos : Forall (fun b => 0 < num_rows b) (buffered_batches w);
  inv_total : total_row_count w
              = sum_rows (file_info w) + open_rows w + buffered_rows w;
  inv_open : forall f, current_writer w = Some f ->
               shard_rows f = current_row_count w /\ groups_ok f;
  inv_entries : Forall (fun e => rows e <= file_rows) (file_info w);
  inv_disk : map_Forall (fun _ f => shard_ok f) (disk w)
}.

(** The open file has not outgrown the file budget. *)
Definition open_fits (w : ParquetWriter) : Prop := open_rows w <= file_rows.

Lemma sum_rows_app (es1 es2 : list file_entry) :
  sum_rows (es1 ++ es2) = sum_rows es1 + sum_rows es2.
Proof. induction es1 as [|e es1 IH]; simpl; [done|]. rewrite IH. lia. Qed.

Lemma batches_rows_app (bs1 bs2 : list RecordBatch) :
  batches_rows (bs1 ++ bs2) = batches_rows bs1 + batches_rows bs2.
Proof. induction bs1 as [|b bs1 IH]; simpl; [done|]. rewrite IH. lia. Qed.

Lemma from_batches_length (bs : list RecordBatch) :
  Z.of_nat (length (from_batches bs)) = batches_rows bs.
Proof.
  unfold from_batches. induction bs as [|b bs IH]; simpl; [done|].
  rewrite length_app, Nat2Z.inj_add, IH. reflexivity.
Qed.

Lemma batches_rows_nonneg (bs : list RecordBatch) : 0 <= batches_rows bs.
Proof. induction bs as [|b bs IH]; simpl; [done|]. unfold num_rows. lia. Qed.

Lemma batches_rows_pos (b : RecordBatch) (bs : list RecordBatch) :
  Forall (fun b => 0 < num_rows b) (b :: bs) -> 0 < batches_rows (b :: bs).
Proof.
  intros H. inversion_clear H. simpl. pose proof (batches_rows_nonneg bs). lia.
Qed.

Lemma appended_nil (w : ParquetWriter) : appended [] w = w.
Proof.
  destruct w as [? ? ? ? ? [f|] ? ? ? ?]; unfold appended; simpl;
    rewrite ?Z.add_0_r; [|done].
  destruct f. simpl. by rewrite app_nil_r.
Qed.

Lemma appended_appended (n1 n2 : list (list R)) (w : ParquetWriter) :
  appended n2 (appended n1 w) = appended (n1 ++ n2) w.
Proof.
  unfold appended. simpl. rewrite concat_app, length_app, Nat2Z.inj_add.
  destruct (current_writer w) as [f|]; simpl; f_equal; try lia.
  by rewrite <- app_assoc.
Qed.

Lemma write_chunk_appended (chunk : list R) (n : Z) (w : ParquetWriter) :
  Z.of_nat (length chunk) = n ->
  write_chunk chunk n w = appended [chunk] w.
Proof. intros <-. unfold write_chunk, appended. simpl. by rewrite app_nil_r. Qed.

Lemma slice_rows_length (table : list R) (off len : Z) :
  0 <= off -> 0 <= len -> off + len <= Z.of_nat (length table) ->
  Z.of_nat (length (slice_rows table off len)) = len.
Proof.
  intros. unfold slice_rows. rewrite length_take, length_drop. lia.
Qed.

Lemma slice_rows_drop (table : list R) (off len : Z) :
  0 <= off -> 0 <= len ->
  slice_rows table off len ++ drop (Z.to_nat (off + len)) table
  = drop (Z.to_nat off) table.
Proof.
  intros. unfold slice_rows.
  replace (Z.to_nat (off + len)) with (Z.to_nat off + Z.to_nat len)%nat by lia.
  rewrite <- drop_drop. apply take_drop.
Qed.

(** What the chunking loop does when it comes to its end: it appends row
    groups that together are the rest of the table, each within budget. *)
Lemma write_chunks_spec (fuel : nat) : forall table written w w',
  0 <= written ->
  write_chunks fuel table written w = Some w' ->
  exists new,
    w' = appended new w
    /\ concat new = drop (Z.to_nat written) table
    /\ Forall (fun g => Z.of_nat (length g) <= row_group_rows) new.
Proof.
  induction fuel as [|fuel IH]; intros table written w w' Hw; simpl.
  - destruct (Z.ltb_spec written (Z.of_nat (length table))); [done|].
    intros [= <-]. exists []. rewrite appended_nil, drop_ge by lia. by split.
  - destruct (Z.ltb_spec written (Z.of_nat (length table))) as [Hlt|Hge].
    + set (chunk_size := Z.min row_group_rows (Z.of_nat (length table) - written)).
      destruct (Z.le_gt_cases chunk_size 0) as [Hle|Hpos].
      * (* no progress is possible: the loop cannot end *)
        intros Hrun. exfalso. clear IH.
        assert (forall f wr (w0 : ParquetWriter), wr <= written ->
                  write_chunks f table wr w0 = None) as Hdiv.
        { induction f as [|f IHf]; intros wr w0 Hwr; simpl.
          - destruct (Z.ltb_spec wr (Z.of_nat (length table))); [done|lia].
          - destruct (Z.ltb_spec wr (Z.of_nat (length table))); [|lia].
            apply IHf. lia. }
        rewrite Hdiv in Hrun by lia. done.
      * intros Hrun.
        assert (Z.of_nat (length (slice_rows table written chunk_size)) = chunk_size)
          as Hlen by (apply slice_rows_length; lia).
        rewrite (write_chunk_appended _ _ _ Hlen) in Hrun.
        apply IH in Hrun as (new & -> & Hcat & Hok); [|lia].
        exists (slice_rows table written chunk_size :: new).
        split; [by rewrite appended_appended|]. split.
        -- simpl. rewrite Hcat. apply slice_rows_drop; lia.
        -- constructor; [lia|done].
    + intros [= <-]. exists []. rewrite appended_nil, drop_ge by lia. by split.
Qed.

(** With a positive row-group budget the chunking loop ends. *)
Lemma write_chunks_total (fuel : nat) : forall table written w,
  0 < row_group_rows -> 0 <= written ->
  Z.of_nat (length table) - written <= Z.of_nat fuel ->
  is_Some (write_chunks fuel table written w).
Proof.
  induction fuel as [|fuel IH]; intros table written w Hrg Hw Hf; simpl.
  - destruct (Z.ltb_spec written (Z.of_nat (length table))); [lia|done].
  - destruct (Z.ltb_spec written (Z.of_nat (length table))); [|done].
    apply IH; lia.
Qed.

Lemma num_rows_slice (b : RecordBatch) (n : Z) :
  0 <= n <= num_rows b -> num_rows (slice b 0 n) = n.
Proof.
  unfold num_rows, slice. simpl. intros. apply slice_rows_length; lia.
Qed.

Lemma num_rows_slice_from (b : RecordBatch) (n : Z) :
  0 <= n <= num_rows b -> num_rows (slice_from b n) = num_rows b - n.
Proof. unfold num_rows, slice_from. simpl. rewrite length_drop. lia. Qed.

Lemma from_batches_split (b : RecordBatch) (n : Z) :
  from_batches [slice b 0 n] ++ from_batches [slice_from b n] = from_batches [b].
Proof.
  unfold from_batches, slice, slice_from, slice_rows. simpl.
  rewrite !app_nil_r. apply take_drop.
Qed.

Lemma from_batches_cons (b : RecordBatch) (bs : list RecordBatch) :
  from_batches (b :: bs) = batch_rows b ++ from_batches bs.
Proof. reflexivity. Qed.

(** The splitting loop takes exactly [n] rows off the front of the buffer
    and leaves the other rows, in order. *)
Lemma take_rows_spec (bs : list RecordBatch) : forall n brows,
  Forall (fun b => 0 < num_rows b) bs ->
  0 <= n <= batches_rows bs ->
  exists to_write rest,
    take_rows n bs brows = (to_write, rest, brows - n)
    /\ batches_rows to_write = n
    /\ batches_rows rest = batches_rows bs - n
    /\ Forall (fun b => 0 < num_rows b) rest
    /\ (0 < n -> to_write <> [])
    /\ from_batches to_write ++ from_batches rest = from_batches bs.
Proof.
  induction bs as [|b bs IH]; intros n brows Hpos Hn; simpl in *.
  - exists [], []. assert (n = 0) as -> by lia. rewrite Z.sub_0_r.
    repeat split; auto; lia.
  - inversion_clear Hpos as [|? ? Hb Hbs].
    destruct (Z.ltb_spec 0 n) as [Hn0|Hn0].
    + destruct (Z.leb_spec (num_rows b) n) as [Hle|Hgt].
      * destruct (IH (n - num_rows b) (brows - num_rows b) Hbs ltac:(lia))
          as (tw & rest & -> & Htw & Hrest & Hp & _ & Hcat).
        exists (b :: tw), rest. simpl.
        replace (brows - num_rows b - (n - num_rows b)) with (brows - n) by lia.
        repeat split; auto; try lia.
        rewrite !from_batches_cons, <- app_assoc, Hcat. done.
      * exists [slice b 0 n], (slice_from b n :: bs). simpl.
        rewrite num_rows_slice, num_rows_slice_from by lia.
        repeat split; auto; try lia.
        -- constructor; [|done]. rewrite num_rows_slice_from; lia.
        -- rewrite (from_batches_cons (slice_from b n)), app_assoc.
           change (batch_rows (slice_from b n)) with
             (batch_rows (slice_from b n)).
           rewrite (from_batches_cons b).
           f_equal. unfold from_batches, slice, slice_from, slice_rows. simpl.
           rewrite app_nil_r. apply take_drop.
    + exists [], (b :: bs). assert (n = 0) as -> by lia. rewrite Z.sub_0_r.
      simpl. repeat split; auto; try lia.
Qed.

Lemma ensure_open_open (w : ParquetWriter) :
  exists f, current_writer (ensure_open w) = Some f.
Proof.
  unfold ensure_open. destruct (current_writer w) as [f|] eqn:E.
  - by exists f.
  - unfold _start_new_file. rewrite E. simpl. eauto.
Qed.

Lemma ensure_open_buffer (w : ParquetWriter) :
  buffered_batches (ensure_open w) = buffered_batches w
  /\ buffered_rows (ensure_open w) = buffered_rows w.
Proof.
  unfold ensure_open. destruct (current_writer w) eqn:E; [done|].
  unfold _start_new_file. by rewrite E.
Qed.

Lemma ensure_open_inv (w : ParquetWriter) :
  0 <= file_rows -> Inv w -> open_fits w ->
  Inv (ensure_open w) /\ open_fits (ensure_open w).
Proof.
  intros Hfr HI Hfit. unfold ensure_open.
  destruct (current_writer w) as [f|] eqn:E; [by split|].
  destruct HI as [H1 H2 H3 H4 H5 H6].
  unfold _start_new_file, open_fits, open_rows in *. rewrite E in *. simpl.
  split; [|done].
  constructor; simpl; auto; try (unfold open_rows; simpl; lia).
  intros f [= <-]. split; [done|]. constructor.
Qed.

(** Moving rows from the buffer into row groups of the open file keeps the
    invariant, as long as what is appended is what left the buffer. *)
Lemma moved_inv (w : ParquetWriter) (new : list (list R))
      (bs' : list RecordBatch) :
  Inv w -> is_Some (current_writer w) ->
  Forall (fun g => Z.of_nat (length g) <= row_group_rows) new ->
  Forall (fun b => 0 < num_rows b) bs' ->
  batches_rows bs' + Z.of_nat (length (concat new)) = buffered_rows w ->
  Inv (set_buffer bs' (batches_rows bs') (appended new w)).
Proof.
  intros [H1 H2 H3 H4 H5 H6] [f Hf] Hnew Hbs Hsum.
  constructor; simpl; auto.
  - unfold open_rows in *. simpl. rewrite Hf in *. simpl. lia.
  - rewrite Hf. intros f' [= <-]. destruct (H4 f Hf) as [Hrows Hok].
    split.
    + unfold shard_rows in *. simpl. rewrite concat_app, length_app. lia.
    + unfold groups_ok in *. simpl. by apply Forall_app.
Qed.

Lemma set_buffer_appended (w : ParquetWriter) new bs brows :
  appended new (set_buffer bs brows w) = set_buffer bs brows (appended new w).
Proof. reflexivity. Qed.

Lemma _write_table_to_file_open (fuel : nat) (table : list R) (w w' : ParquetWriter) :
  is_Some (current_writer w) ->
  _write_table_to_file fuel table w = Some w' ->
  exists new,
    w' = appended new w /\ concat new = table
    /\ Forall (fun g => Z.of_nat (length g) <= row_group_rows) new.
Proof.
  intros [f Hf]. unfold _write_table_to_file. rewrite Hf. intros Hrun.
  apply write_chunks_spec in Hrun as (new & -> & Hcat & Hok); [|done].
  exists new. by rewrite drop_0 in Hcat.
Qed.

Lemma _close_current_file_inv (w : ParquetWriter) :
  0 <= file_rows -> Inv w -> open_fits w ->
  Inv (_close_current_file w) /\ open_fits (_close_current_file w)
  /\ current_writer (_close_current_file w) = None
  /\ buffered_batches (_close_current_file w) = buffered_batches w
  /\ buffered_rows (_close_current_file w) = buffered_rows w.
Proof.
  intros Hfr HI Hfit. unfold _close_current_file.
  destruct (current_writer w) as [f|] eqn:E;
    [|by split_and!].
  destruct HI as [H1 H2 H3 H4 H5 H6].
  unfold open_fits, open_rows in *. rewrite E in *. simpl.
  destruct (H4 f eq_refl) as [Hrows Hok].
  split; [|by split_and!].
  constructor; simpl; auto.
  - rewrite sum_rows_app. unfold open_rows. simpl. lia.
  - intros f' [=].
  - apply Forall_app. split; [done|]. by constructor.
  - apply map_Forall_insert_2; [|done]. split; [lia|done].
Qed.

Lemma Inv_buffer_nil (w : ParquetWriter) :
  Inv w -> buffered_rows w <= 0 -> buffered_batches w = [].
Proof.
  intros [H1 H2 _ _ _ _] Hle. destruct (buffered_batches w) as [|b bs]; [done|].
  pose proof (batches_rows_pos b bs H2). lia.
Qed.

Lemma _write_rows_to_current_file_inv (fuel : nat) (n : Z) (w w' : ParquetWriter) :
  Inv w -> is_Some (current_writer w) ->
  0 < n <= buffered_rows w ->
  _write_rows_to_current_file fuel n w = Some w' ->
  Inv w' /\ is_Some (current_writer w')
  /\ current_row_count w' = current_row_count w + n
  /\ buffered_rows w' = buffered_rows w - n.
Proof.
  intros HI [f Hf] Hn. unfold _write_rows_to_current_file.
  destruct (Z.leb_spec n 0); [lia|]. simpl.
  pose proof HI as [H1 H2 _ _ _ _].
  destruct (buffered_batches w) as [|b bs] eqn:Eb.
  { simpl in H1. lia. }
  destruct (take_rows_spec (b :: bs) n (buffered_rows w) H2 ltac:(lia))
    as (tw & rest & -> & Htw & Hrest & Hpos & Hne & Hcat).
  destruct tw as [|t tw]; [by destruct Hne; [lia|]|].
  intros Hrun.
  apply _write_table_to_file_open in Hrun as (new & -> & Hnew & Hok);
    [|by exists f].
  rewrite set_buffer_appended.
  assert (Z.of_nat (length (concat new)) = n) as Hlen.
  { rewrite Hnew, from_batches_length. done. }
  replace (buffered_rows w - n) with (batches_rows rest) by lia.
  split_and!.
  - apply moved_inv; [done|by exists f|done|done|lia].
  - simpl. rewrite Hf. eauto.
  - simpl. lia.
  - simpl. done.
Qed.

Lemma _write_all_buffered_rows_inv (fuel : nat) (w w' : ParquetWriter) :
  Inv w -> is_Some (current_writer w) -> 0 < buffered_rows w ->
  _write_all_buffered_rows fuel w = Some w' ->
  Inv w' /\ is_Some (current_writer w')
  /\ current_row_count w' = current_row_count w + buffered_rows w
  /\ buffered_batches w' = [].
Proof.
  intros HI [f Hf] Hpos. unfold _write_all_buffered_rows.
  pose proof HI as [H1 H2 _ _ _ _].
  destruct (buffered_batches w) as [|b bs] eqn:Eb.
  { simpl in H1. lia. }
  destruct (_write_table_to_file fuel (from_batches (b :: bs)) w) as [w1|] eqn:Hrun;
    [|done].
  simpl. intros [= <-].
  apply _write_table_to_file_open in Hrun as (new & -> & Hnew & Hok);
    [|by exists f].
  assert (Z.of_nat (length (concat new)) = buffered_rows w) as Hlen.
  { rewrite Hnew, from_batches_length. done. }
  split_and!.
  - apply (moved_inv w new []); [done|by exists f|done|done|simpl; lia].
  - simpl. rewrite Hf. eauto.
  - simpl. lia.
  - done.
Qed.

Lemma open_rows_open (w : ParquetWriter) :
  is_Some (current_writer w) -> open_rows w = current_row_count w.
Proof. intros [f Hf]. unfold open_rows. by rewrite Hf. Qed.

(** The buffer-draining loop of [write_batch] keeps the invariant and the
    open file within the file budget, and leaves the buffer empty. *)
Lemma write_batch_loop_inv (fuel : nat) : forall w w',
  0 <= file_rows -> Inv w -> open_fits w ->
  write_batch_loop fuel w = Some w' ->
  Inv w' /\ open_fits w' /\ buffered_batches w' = [].
Proof.
  induction fuel as [|fuel IH]; intros w w' Hfr HI Hfit; simpl.
  - destruct (Z.ltb_spec 0 (buffered_rows w)); [done|].
    intros [= <-]. split_and!; auto. by apply Inv_buffer_nil.
  - destruct (Z.ltb_spec 0 (buffered_rows w)) as [Hpos|Hnp]; cycle 1.
    { intros [= <-]. split_and!; auto. by apply Inv_buffer_nil. }
    fold (ensure_open w).
    destruct (ensure_open_inv w Hfr HI Hfit) as [HI1 Hfit1].
    destruct (ensure_open_open w) as [f Hf].
    destruct (ensure_open_buffer w) as [Hb1 Hb2].
    set (w1 := ensure_open w) in *. clearbody w1.
    assert (is_Some (current_writer w1)) as Hopen by eauto.
    pose proof Hfit1 as Hfit1'. unfold open_fits in Hfit1'.
    rewrite open_rows_open in Hfit1' by done.
    destruct (Z.ltb_spec file_rows (current_row_count w1 + buffered_rows w1))
      as [Hover|Hroom].
    + destruct (Z.ltb_spec 0 (file_rows - current_row_count w1)) as [Hneed|Hfull];
        simpl.
      * destruct (Z.ltb_spec 0 (buffered_rows w1)); [|lia]. simpl.
        destruct (_write_rows_to_current_file fuel
                    (file_rows - current_row_count w1) w1) as [w2|] eqn:Hw; [|done].
        simpl.
        apply _write_rows_to_current_file_inv in Hw
          as (HI2 & Hopen2 & Hc2 & Hb); auto; [|lia].
        assert (open_fits w2) as Hfit2.
        { unfold open_fits. rewrite open_rows_open by done. lia. }
        destruct (_close_current_file_inv w2 Hfr HI2 Hfit2)
          as (HI3 & Hfit3 & _).
        by apply IH.
      * simpl.
        destruct (_close_current_file_inv w1 Hfr HI1 Hfit1)
          as (HI3 & Hfit3 & _).
        by apply IH.
    + intros Hw.
      apply _write_all_buffered_rows_inv in Hw as (HI2 & Hopen2 & Hc2 & Hb);
        auto; [|lia].
      split_and!; auto.
      unfold open_fits. rewrite open_rows_open by done. lia.
Qed.

(** Between two public calls the buffer is empty. *)
Definition idle (w : ParquetWriter) : Prop :=
  Inv w /\ open_fits w /\ buffered_batches w = [].

Lemma init_idle (schema0 : option Schema) : 0 <= file_rows -> idle (init schema0).
Proof.
  intros Hfr. split_and!; [|done|done].
  constructor; simpl; auto. { intros f [=]. } apply map_Forall_empty.
Qed.

Lemma write_batch_idle (fuel : nat) (b : RecordBatch) (w w' : ParquetWriter) :
  0 <= file_rows -> idle w -> write_batch fuel b w = Some w' -> idle w'.
Proof.
  intros Hfr (HI & Hfit & Hnil). unfold write_batch.
  destruct (Z.eqb_spec (num_rows b) 0) as [H0|Hn0].
  { intros [= <-]. by split_and!. }
  apply write_batch_loop_inv; auto.
  - destruct HI as [H1 H2 H3 H4 H5 H6].
    rewrite Hnil in *. simpl in H1.
    constructor; simpl; auto.
    + lia.
    + constructor; [|done]. unfold num_rows in *. lia.
    + unfold open_rows in *. simpl. lia.
Qed.

Lemma write_batches_idle (fuel : nat) (bs : list RecordBatch) :
  forall w w', 0 <= file_rows -> idle w ->
  write_batches fuel bs w = Some w' -> idle w'.
Proof.
  induction bs as [|b bs IH]; intros w w' Hfr Hw; simpl.
  - by intros [= <-].
  - destruct (write_batch fuel b w) as [w1|] eqn:E; [|done]. simpl.
    apply IH; auto. by eapply write_batch_idle.
Qed.

(** After [finalize] of an idle writer every file is closed and accounted
    for. *)
Lemma finalize_idle (fuel : nat) (w w' : ParquetWriter) (m : manifest) :
  0 <= file_rows -> idle w -> finalize fuel w = Some (m, w') ->
  Inv w' /\ current_writer w' = None /\ buffered_batches w' = []
  /\ m = _generate_manifest w'.
Proof.
  intros Hfr (HI & Hfit & Hnil). unfold finalize. rewrite Hnil. simpl.
  destruct (current_writer w) as [f|] eqn:Hf.
  - intros [= <- <-].
    destruct (_close_current_file_inv w Hfr HI Hfit) as (HI3 & _ & Hc & Hb & _).
    split_and!; auto. by rewrite Hb.
  - intros [= <- <-]. by split_and!.
Qed.

(** ** A negative file budget *)

(** With [file_rows < 0] every file looks full: the loop of [write_batch]
    closes one empty file after the other and never gets to write a row. *)
Lemma write_batch_loop_negative (fuel : nat) : forall w,
  file_rows < 0 -> 0 < buffered_rows w ->
  (is_Some (current_writer w) -> 0 <= current_row_count w) ->
  write_batch_loop fuel w = None.
Proof.
  induction fuel as [|fuel IH]; intros w Hfr Hpos Hc; simpl.
  - destruct (Z.ltb_spec 0 (buffered_rows w)); [done|lia].
  - destruct (Z.ltb_spec 0 (buffered_rows w)); [|lia].
    fold (ensure_open w).
    destruct (ensure_open_buffer w) as [_ Hb].
    assert (0 <= current_row_count (ensure_open w)) as Hc1.
    { unfold ensure_open. destruct (current_writer w) eqn:E; [by apply Hc|].
      unfold _start_new_file. by rewrite E. }
    set (w1 := ensure_open w) in *. clearbody w1.
    destruct (Z.ltb_spec file_rows (current_row_count w1 + buffered_rows w1));
      [|lia].
    destruct (Z.ltb_spec 0 (file_rows - current_row_count w1)); [lia|]. simpl.
    apply IH; [done| |].
    + unfold _close_current_file. destruct (current_writer w1); simpl; lia.
    + unfold _close_current_file.
      destruct (current_writer w1); simpl; intros [? [=]]; done.
Qed.

Lemma write_batches_negative (fuel : nat) (schema0 : option Schema)
      (bs : list RecordBatch) (w' : ParquetWriter) :
  file_rows < 0 ->
  write_batches fuel bs (init schema0) = Some w' -> w' = init schema0.
Proof.
  intros Hfr. induction bs as [|b bs IH]; simpl; [by intros [= <-]|].
  unfold write_batch at 1.
  destruct (Z.eqb_spec (num_rows b) 0) as [H0|Hn0]; [done|].
  rewrite write_batch_loop_negative; simpl; [done|done| |].
  - unfold num_rows in *. lia.
  - intros [? [=]].
Qed.

(** ** Termination with positive budgets *)

Lemma _write_table_to_file_total (fuel : nat) (table : list R) (w : ParquetWriter) :
  0 < row_group_rows -> Z.of_nat (length table) <= Z.of_nat fuel ->
  is_Some (_write_table_to_file fuel table w).
Proof. intros. unfold _write_table_to_file. apply write_chunks_total; lia. Qed.

Lemma _write_rows_to_current_file_total (fuel : nat) (n : Z) (w : ParquetWriter) :
  0 < row_group_rows -> Inv w -> 0 < n <= buffered_rows w ->
  n <= Z.of_nat fuel ->
  is_Some (_write_rows_to_current_file fuel n w).
Proof.
  intros Hrg HI Hn Hfuel. unfold _write_rows_to_current_file.
  destruct (Z.leb_spec n 0); [lia|]. simpl.
  pose proof HI as [H1 H2 _ _ _ _].
  destruct (buffered_batches w) as [|b bs] eqn:Eb.
  { simpl in H1. lia. }
  destruct (take_rows_spec (b :: bs) n (buffered_rows w) H2 ltac:(lia))
    as (tw & rest & -> & Htw & Hrest & Hpos & Hne & Hcat).
  destruct tw as [|t tw]; [done|].
  apply _write_table_to_file_total; [done|].
  rewrite from_batches_length. lia.
Qed.

Lemma _write_all_buffered_rows_total (fuel : nat) (w : ParquetWriter) :
  0 < row_group_rows -> Inv w -> buffered_rows w <= Z.of_nat fuel ->
  is_Some (_write_all_buffered_rows fuel w).
Proof.
  intros Hrg [H1 _ _ _ _ _] Hfuel. unfold _write_all_buffered_rows.
  destruct (buffered_batches w) as [|b bs] eqn:Eb; [done|].
  destruct (_write_table_to_file_total fuel (from_batches (b :: bs)) w Hrg)
    as [w1 ->]; [|done].
  rewrite from_batches_length. lia.
Qed.

(** One unit of fuel for every buffered row, and one more for a file that
    is open and may be full, is enough for the loop of [write_batch]. *)
Lemma write_batch_loop_total (fuel : nat) : forall w,
  0 < row_group_rows -> 0 < file_rows -> Inv w -> open_fits w ->
  buffered_rows w + match current_writer w with Some _ => 1 | None => 0 end
    < Z.of_nat fuel ->
  is_Some (write_batch_loop fuel w).
Proof.
  induction fuel as [|fuel IH]; intros w Hrg Hfr HI Hfit Hfuel; simpl.
  - pose proof HI as [H1 _ _ _ _ _].
    pose proof (batches_rows_nonneg (buffered_batches w)).
    destruct (current_writer w); lia.
  - destruct (Z.ltb_spec 0 (buffered_rows w)) as [Hpos|Hnp]; [|done].
    fold (ensure_open w).
    destruct (ensure_open_inv w ltac:(lia) HI Hfit) as [HI1 Hfit1].
    destruct (ensure_open_open w) as [f Hf].
    destruct (ensure_open_buffer w) as [Hb1 Hb2].
    assert (current_writer w = None -> current_row_count (ensure_open w) = 0)
      as Hfresh.
    { intros E. unfold ensure_open, _start_new_file. by rewrite E. }
    assert (is_Some (current_writer w) -> ensure_open w = w) as Hsame.
    { intros [f' E]. unfold ensure_open. by rewrite E. }
    set (w1 := ensure_open w) in *. clearbody w1.
    assert (is_Some (current_writer w1)) as Hopen by eauto.
    pose proof Hfit1 as Hfit1'. unfold open_fits in Hfit1'.
    rewrite open_rows_open in Hfit1' by done.
    assert (buffered_rows w <= Z.of_nat fuel) as Hle.
    { destruct (current_writer w); lia. }
    destruct (Z.ltb_spec file_rows (current_row_count w1 + buffered_rows w1))
      as [Hover|Hroom].
    + destruct (Z.ltb_spec 0 (file_rows - current_row_count w1)) as [Hneed|Hfull];
        simpl.
      * destruct (Z.ltb_spec 0 (buffered_rows w1)); [|lia]. simpl.
        destruct (_write_rows_to_current_file_total fuel
                    (file_rows - current_row_count w1) w1 Hrg HI1)
          as [w2 Hw]; [lia|lia|].
        rewrite Hw. simpl.
        apply _write_rows_to_current_file_inv in Hw
          as (HI2 & Hopen2 & Hc2 & Hb); auto; [|lia].
        assert (open_fits w2) as Hfit2.
        { unfold open_fits. rewrite open_rows_open by done. lia. }
        destruct (_close_current_file_inv w2 ltac:(lia) HI2 Hfit2)
          as (HI3 & Hfit3 & Hc3 & _ & Hb3).
        apply IH; auto. rewrite Hc3, Hb3. lia.
      * simpl.
        destruct (_close_current_file_inv w1 ltac:(lia) HI1 Hfit1)
          as (HI3 & Hfit3 & Hc3 & _ & Hb3).
        apply IH; auto. rewrite Hc3, Hb3.
        destruct (current_writer w) as [f'|] eqn:E; [lia|].
        specialize (Hfresh eq_refl). lia.
    + apply _write_all_buffered_rows_total; auto. lia.
Qed.

Lemma write_batch_total (fuel : nat) (b : RecordBatch) (w : ParquetWriter) :
  0 < row_group_rows -> 0 < file_rows -> idle w ->
  num_rows b + 1 < Z.of_nat fuel ->
  is_Some (write_batch fuel b w).
Proof.
  intros Hrg Hfr Hidle Hfuel.
  destruct (write_batch fuel b w) as [w'|] eqn:E; [done|]. exfalso.
  revert E. unfold write_batch.
  destruct (Z.eqb_spec (num_rows b) 0) as [H0|Hn0]; [done|].
  destruct Hidle as (HI & Hfit & Hnil).
  pose proof HI as [H1 H2 H3 H4 H5 H6]. rewrite Hnil in *. simpl in H1.
  match goal with |- write_batch_loop _ ?w0 = None -> _ =>
    destruct (write_batch_loop_total fuel w0 Hrg Hfr) as [w' ->]; [| | |done]
  end.
  - constructor; simpl; auto.
    + lia.
    + constructor; [|done]. unfold num_rows in *. lia.
    + unfold open_rows in *. simpl. lia.
  - unfold open_fits, open_rows in *. simpl. done.
  - simpl. destruct (current_writer w); lia.
Qed.

Lemma write_batches_total (fuel : nat) (bs : list RecordBatch) : forall w,
  0 < row_group_rows -> 0 < file_rows -> idle w ->
  Forall (fun b => num_rows b + 1 < Z.of_nat fuel) bs ->
  exists w', write_batches fuel bs w = Some w' /\ idle w'.
Proof.
  induction bs as [|b bs IH]; intros w Hrg Hfr Hidle Hall; simpl.
  - by exists w.
  - inversion_clear Hall as [|? ? Hb Hbs].
    destruct (write_batch_total fuel b w Hrg Hfr Hidle Hb) as [w1 E].
    rewrite E. simpl. apply IH; auto.
    eapply write_batch_idle; eauto. lia.
Qed.

Lemma num_rows_le_batches_rows (bs : list RecordBatch) :
  Forall (fun b => num_rows b <= batches_rows bs) bs.
Proof.
  induction bs as [|b bs IH]; [done|]. simpl.
  pose proof (batches_rows_nonneg bs).
  constructor; [lia|]. eapply Forall_impl; [exact IH|].
  intros b' Hb'. simpl in Hb'. unfold num_rows in *. lia.
Qed.

(** Fuel that is enough for a whole run: two more than the rows given. *)
Definition enough_fuel (batches : list RecordBatch) : nat :=
  Z.to_nat (batches_rows batches) + 2.

Lemma write_parquet_batches_total (schema0 : option Schema)
      (batches : list RecordBatch) :
  0 < row_group_rows -> 0 < file_rows ->
  is_Some (write_parquet_batches (enough_fuel batches) schema0 batches).
Proof.
  intros Hrg Hfr. unfold write_parquet_batches.
  destruct (write_batches_total (enough_fuel batches) batches (init schema0)
              Hrg Hfr (init_idle schema0 ltac:(lia))) as (w & -> & Hidle).
  { eapply Forall_impl; [apply num_rows_le_batches_rows|].
    intros b Hb. simpl in Hb. unfold enough_fuel. lia. }
  simpl. destruct Hidle as (_ & _ & Hnil). unfold finalize. rewrite Hnil.
  simpl. done.
Qed.

(** ** What a completed run leaves behind *)

Lemma write_batches_empty (fuel : nat) (bs : list RecordBatch) (w : ParquetWriter) :
  Forall (fun b => num_rows b = 0) bs -> write_batches fuel bs w = Some w.
Proof.
  induction 1 as [|b bs Hb _ IH]; simpl; [done|].
  unfold write_batch. rewrite Hb. simpl. exact IH.
Qed.

Lemma run_end (fuel : nat) (schema0 : option Schema) (batches : list RecordBatch)
      (m : manifest) (w : ParquetWriter) :
  write_parquet_batches fuel schema0 batches = Some (m, w) ->
  m = _generate_manifest w
  /\ current_writer w = None
  /\ total_row_count w = sum_rows (file_info w)
  /\ Forall (fun e => rows e <= file_rows) (file_info w)
  /\ map_Forall (fun _ f => shard_ok f) (disk w).
Proof.
  unfold write_parquet_batches.
  destruct (write_batches fuel batches (init schema0)) as [w1|] eqn:E; [|done].
  simpl. intros Hfin.
  destruct (Z.le_gt_cases 0 file_rows) as [Hfr|Hfr].
  - pose proof (write_batches_idle fuel batches _ _ Hfr (init_idle schema0 Hfr) E)
      as Hidle.
    destruct (finalize_idle fuel w1 w m Hfr Hidle Hfin) as (HI & Hc & Hb & ->).
    destruct HI as [H1 H2 H3 H4 H5 H6].
    unfold open_rows in H3. rewrite Hc, Hb in *. simpl in H1.
    split_and!; auto. lia.
  - apply write_batches_negative in E; [|lia]. subst w1.
    revert Hfin. unfold finalize. simpl. intros [= <- <-].
    split_and!; auto. apply map_Forall_empty.
Qed.

(** C7.  For every sequence of [write_batch] calls followed by [finalize],
    whatever the limits: when the run completes, no file is left open, every
    shard file on disk holds at most [file_rows] rows in row groups of at
    most [row_group_rows] rows each, and so does every manifest entry.  With
    positive limits the run does complete (without them [write_batch] loops
    on the first non-empty batch). *)
Theorem shard_budgets (schema0 : option Schema) (batches : list RecordBatch) :
  (forall fuel m w,
     write_parquet_batches fuel schema0 batches = Some (m, w) ->
     current_writer w = None
     /\ map_Forall (fun _ f =>
          shard_rows f <= file_rows
          /\ Forall (fun g => Z.of_nat (length g) <= row_group_rows)
                    (row_groups f)) (disk w)
     /\ Forall (fun e => rows e <= file_rows) (files m))
  /\ (0 < row_group_rows -> 0 < file_rows ->
      is_Some (write_parquet_batches (enough_fuel batches) schema0 batches)).
Proof.
  split.
  - intros fuel m w Hrun.
    destruct (run_end fuel schema0 batches m w Hrun) as (-> & Hc & _ & He & Hd).
    split_and!; auto.
  - apply write_parquet_batches_total.
Qed.

(** C8, as the code has it.  The manifest of a completed run has
    [total_rows] equal to the sum of the [rows] of its [files]; and when no
    batch with rows was written it has [total_rows = 0], no [files], and as
    [schema.fields] the fields of the schema given to the constructor, which
    are none only if no (or an empty) schema was given.  With positive
    limits the run completes. *)
Theorem manifest_total_rows (schema0 : option Schema) (batches : list RecordBatch) :
  (forall fuel m w,
     write_parquet_batches fuel schema0 batches = Some (m, w) ->
     total_rows m = sum_rows (files m)
     /\ (Forall (fun b => num_rows b = 0) batches ->
         total_rows m = 0 /\ files m = []
         /\ schema_fields m = default [] schema0))
  /\ (0 < row_group_rows -> 0 < file_rows ->
      is_Some (write_parquet_batches (enough_fuel batches) schema0 batches)).
Proof.
  split.
  - intros fuel m w Hrun. split.
    + destruct (run_end fuel schema0 batches m w Hrun) as (-> & _ & Ht & _).
      simpl. exact Ht.
    + intros Hempty. revert Hrun. unfold write_parquet_batches.
      rewrite write_batches_empty by done. simpl. unfold finalize. simpl.
      intros [= <- <-]. unfold _generate_manifest. simpl.
      split_and!; auto. by destruct schema0 as [[|fld s]|].
  - apply write_parquet_batches_total.
Qed.

End Writer.

Arguments mkBatch {R}.
Arguments mkShard {R}.

(** Two rows with one column. *)
Definition two_rows : RecordBatch nat := mkBatch [("id", "int64")] [1%nat; 2%nat].

(** A run with [row_group_rows = 2] and [file_rows = 5]. *)
Abbreviation small_run schema0 batches :=
  (write_parquet_batches nat (fun _ => 0) (fun _ => "sha256:") 2 5 "scores"
     "2026-01-01T00:00:00Z" (enough_fuel nat batches) schema0 batches).

(** Three batches of two rows under [file_rows = 5] give a file of five rows
    and a file of one row, each within the budgets. *)
Lemma shard_budgets_witness :
  (exists mw, small_run None [two_rows; two_rows; two_rows] = Some mw
              /\ map rows (files mw.1) = [5; 1])
  /\ forall m w,
       small_run None [two_rows; two_rows; two_rows] = Some (m, w) ->
       map_Forall (fun _ f =>
         shard_rows nat f <= 5
         /\ Forall (fun g => Z.of_nat (length g) <= 2) (row_groups nat f))
       (disk nat w).
Proof.
  split.
  - vm_compute. eexists. split; reflexivity.
  - intros m w E.
    exact (proj1 (proj2 (proj1 (shard_budgets nat (fun _ => 0) (fun _ => "sha256:")
                     2 5 "scores" "2026-01-01T00:00:00Z" None
                     [two_rows; two_rows; two_rows])
                     (enough_fuel nat [two_rows; two_rows; two_rows]) m w E))).
Defined.

Lemma manifest_total_rows_witness :
  (exists mw, small_run None [two_rows; two_rows; two_rows] = Some mw
              /\ total_rows mw.1 = 6)
  /\ forall m w,
       small_run None [two_rows; two_rows; two_rows] = Some (m, w) ->
       total_rows m = sum_rows (files m).
Proof.
  split.
  - vm_compute. eexists. split; reflexivity.
  - intros m w E.
    exact (proj1 (proj1 (manifest_total_rows nat (fun _ => 0) (fun _ => "sha256:")
                     2 5 "scores" "2026-01-01T00:00:00Z" None
                     [two_rows; two_rows; two_rows])
                     (enough_fuel nat [two_rows; two_rows; two_rows]) m w E)).
Defined.

(** C8 as stated fails: a writer that was given a schema and never a batch
    reports that schema's fields. *)
Lemma manifest_schema_without_batches :
  exists m w,
    small_run (Some [("id", "int64")]) [] = Some (m, w)
    /\ total_rows m = 0 /\ files m = []
    /\ schema_fields m = [("id", "int64")]
    /\ schema_fields m <> [].
Proof. vm_compute. eexists _, _. split_and!; try reflexivity. discriminate. Qed.

(** ** Where the rows go *)

Section Contents.

Variable R : Type.
Variable st_size : shard R -> Z.
Variable compute_hash : shard R -> string.
Variables (row_group_rows file_rows : Z).
Variables (the_table_name now : string).

Local Abbreviation Writer := (ParquetWriter R).
Local Abbreviation Batch := (RecordBatch R).
Local Abbreviation schema := (Parquet.schema R).
Local Abbreviation current_file_index := (Parquet.current_file_index R).
Local Abbreviation current_row_count := (Parquet.current_row_count R).
Local Abbreviation file_info := (Parquet.file_info R).
Local Abbreviation current_writer := (Parquet.current_writer R).
Local Abbreviation current_file_path := (Parquet.current_file_path R).
Local Abbreviation buffered_batches := (Parquet.buffered_batches R).
Local Abbreviation buffered_rows := (Parquet.buffered_rows R).
Local Abbreviation disk := (Parquet.disk R).
Local Abbreviation row_groups := (Parquet.row_groups R).
Local Abbreviation shard_schema := (Parquet.shard_schema R).
Local Abbreviation shard_rows := (Parquet.shard_rows R).
Local Abbreviation batch_rows := (Parquet.batch_rows R).
Local Abbreviation batch_schema := (Parquet.batch_schema R).
Local Abbreviation num_rows := (Parquet.num_rows R).
Local Abbreviation from_batches := (Parquet.from_batches R).
Local Abbreviation batches_rows := (Parquet.batches_rows R).
Local Abbreviation init := (Parquet.init R).
Local Abbreviation set_buffer := (Parquet.set_buffer R).
Local Abbreviation appended := (Parquet.appended R).
Local Abbreviation ensure_open := (Parquet.ensure_open R st_size compute_hash).
Local Abbreviation _start_new_file :=
  (Parquet._start_new_file R st_size compute_hash).
Local Abbreviation _close_current_file :=
  (Parquet._close_current_file R st_size compute_hash).
Local Abbreviation _write_table_to_file :=
  (Parquet._write_table_to_file R st_size compute_hash row_group_rows).
Local Abbreviation _write_rows_to_current_file :=
  (Parquet._write_rows_to_current_file R st_size compute_hash row_group_rows).
Local Abbreviation _write_all_buffered_rows :=
  (Parquet._write_all_buffered_rows R st_size compute_hash row_group_rows).
Local Abbreviation write_batch_loop :=
  (Parquet.write_batch_loop R st_size compute_hash row_group_rows file_rows).
Local Abbreviation write_batch :=
  (Parquet.write_batch R st_size compute_hash row_group_rows file_rows).
Local Abbreviation write_batches :=
  (Parquet.write_batches R st_size compute_hash row_group_rows file_rows).
Local Abbreviation finalize :=
  (Parquet.finalize R st_size compute_hash row_group_rows the_table_name now).
Local Abbreviation _generate_manifest :=
  (Parquet._generate_manifest R the_table_name now).
Local Abbreviation write_parquet_batches :=
  (Parquet.write_parquet_batches R st_size compute_hash row_group_rows
     file_rows the_table_name now).
Local Abbreviation Inv := (Parquet.Inv R row_group_rows file_rows).
Local Abbreviation open_fits := (Parquet.open_fits R file_rows).
Local Abbreviation idle := (Parquet.idle R row_group_rows file_rows).

(** The rows of a shard file, in the order of its row groups. *)
Definition shard_content (f : shard R) : list R := concat (row_groups f).

(** What reading the file of a manifest entry gives. *)
Definition read_entry (d : gmap Z (shard R)) (e : file_entry) : list R :=
  match d !! file e with
  | Some f => shard_content f
  | None => []
  end.

(** What reading the files of [entries] one after the other gives. *)
Definition read_files (d : gmap Z (shard R)) (entries : list file_entry)
  : list R :=
  concat (map (read_entry d) entries).

(** The rows the writer has handed to files: those of the closed files, in
    the order of [file_info], then those of the file that is open. *)
Definition stored_rows (w : Writer) : list R :=
  read_files (disk w) (file_info w)
  ++ match current_writer w with
     | Some f => shard_content f
     | None => []
     end.

(** An entry of [file_info] describes the file of its name. *)
Definition describes (d : gmap Z (shard R)) (e : file_entry) : Prop :=
  exists f, d !! file e = Some f
            /\ rows e = shard_rows f
            /\ size_bytes e = st_size f
            /\ hash e = compute_hash f.

(** The files and the bookkeeping agree, and no row of [given] is lost,
    repeated or moved. *)
Record Store (given : list R) (w : Writer) : Prop := mkStore {
  st_numbers : forall i e, file_info w !! i = Some e -> file e = Z.of_nat i;
  st_index : current_file_index w
             = Z.of_nat (length (file_info w))
               + match current_writer w with Some _ => 1 | None => 0 end;
  st_path : is_Some (current_writer w) ->
            current_file_path w = Z.of_nat (length (file_info w));
  st_entries : Forall (describes (disk w)) (file_info w);
  st_dom : forall k, is_Some (disk w !! k) ->
                     0 <= k < Z.of_nat (length (file_info w));
  st_rows : stored_rows w ++ from_batches (buffered_batches w) = given;
  st_schemas : map_Forall (fun _ f => shard_schema f = schema w) (disk w)
               /\ (forall f, current_writer w = Some f ->
                             shard_schema f = schema w)
               /\ (schema w = None ->
                   disk w = ∅ /\ current_writer w = None)
}.

(** Every closed file holds exactly [file_rows] rows. *)
Definition closed_full (w : Writer) : Prop :=
  Forall (fun e => rows e = file_rows) (file_info w).

(** The file that is open, if any, holds a row. *)
Definition open_used (w : Writer) : Prop :=
  is_Some (current_writer w) -> 0 < current_row_count w.

Lemma init_store (schema0 : option Schema) : Store [] (init schema0).
Proof.
  constructor; simpl; try done.
  intros k [f Hf]. by rewrite lookup_empty in Hf.
Qed.

Lemma ensure_open_store (given : list R) (w : Writer) :
  is_Some (schema w) -> Store given w -> Store given (ensure_open w).
Proof.
  intros [s Hs] [H1 H2 H3 H4 H5 H6 (H7 & H8 & H9)]. unfold Parquet.ensure_open.
  destruct (current_writer w) as [f|] eqn:E.
  { constructor; rewrite ?E; auto. }
  unfold Parquet._start_new_file. rewrite E.
  unfold stored_rows in *. rewrite E in *.
  constructor; simpl; auto; try lia.
  split_and!; [done| |].
  - by intros f [= <-].
  - rewrite Hs. done.
Qed.

Lemma ensure_open_schema (w : Writer) : schema (ensure_open w) = schema w.
Proof.
  unfold Parquet.ensure_open. destruct (current_writer w) eqn:E; [done|].
  unfold Parquet._start_new_file. by rewrite E.
Qed.

Lemma ensure_open_file_info (w : Writer) :
  file_info (ensure_open w) = file_info w.
Proof.
  unfold Parquet.ensure_open. destruct (current_writer w) eqn:E; [done|].
  unfold Parquet._start_new_file. by rewrite E.
Qed.

(** Moving rows from the front of the buffer to the end of the open file
    keeps the store. *)
Lemma moved_store (given : list R) (w : Writer) (new : list (list R))
      (bs' : list Batch) (brows : Z) :
  Store given w -> is_Some (current_writer w) ->
  concat new ++ from_batches bs' = from_batches (buffered_batches w) ->
  Store given (set_buffer bs' brows (appended new w)).
Proof.
  intros [H1 H2 H3 H4 H5 H6 (H7 & H8 & H9)] [f Hf] Hmove.
  unfold stored_rows in *. rewrite Hf in *.
  constructor; simpl; rewrite ?Hf; auto.
  - unfold stored_rows. simpl. rewrite Hf. rewrite <- H6, <- Hmove.
    unfold shard_content. simpl. rewrite concat_app.
    by rewrite <- !app_assoc.
  - split_and!; [done| |].
    + intros f' [= <-]. simpl. by apply H8.
    + intros Hs. destruct (H9 Hs) as [_ ?]. done.
Qed.

Lemma read_files_insert (d : gmap Z (shard R)) (k : Z) (f : shard R)
      (entries : list file_entry) :
  Forall (fun e => file e <> k) entries ->
  read_files (<[k := f]> d) entries = read_files d entries.
Proof.
  intros H. unfold read_files. f_equal. apply map_ext_Forall.
  eapply Forall_impl; [exact H|]. intros e He. unfold read_entry.
  by rewrite lookup_insert_ne.
Qed.

Lemma numbers_below (given : list R) (w : Writer) :
  Store given w ->
  Forall (fun e => file e <> Z.of_nat (length (file_info w))) (file_info w).
Proof.
  intros HS. apply Forall_lookup_2. intros i e Hi.
  rewrite (st_numbers _ _ HS i e Hi).
  apply lookup_lt_Some in Hi. lia.
Qed.

(** Closing the open file records it and keeps the store. *)
Lemma _close_current_file_store (given : list R) (w : Writer) :
  Inv w -> Store given w -> Store given (_close_current_file w).
Proof.
  intros HI HS. pose proof (numbers_below given w HS) as Hbelow.
  destruct HS as [H1 H2 H3 H4 H5 H6 (H7 & H8 & H9)].
  unfold Parquet._close_current_file.
  destruct (current_writer w) as [f|] eqn:E.
  2:{ constructor; rewrite ?E; auto. }
  specialize (H3 ltac:(eauto)). rewrite H3 in *.
  destruct (inv_open _ _ _ _ HI f E) as [Hrows _].
  unfold stored_rows in *. rewrite E in *.
  constructor; simpl.
  - intros i e Hi. apply lookup_app_Some in Hi as [Hi|[Hge Hi]]; [eauto|].
    apply list_lookup_singleton_Some in Hi as [Hi <-]. simpl. lia.
  - rewrite length_app. simpl. lia.
  - intros [? [=]].
  - apply Forall_app. split.
    + apply Forall_lookup_2. intros i e Hi.
      pose proof (Forall_lookup_1 _ _ _ _ H4 Hi) as (f' & Hf' & Hd).
      pose proof (Forall_lookup_1 _ _ _ _ Hbelow Hi) as Hne.
      exists f'. by rewrite lookup_insert_ne.
    + constructor; [|done]. exists f. simpl.
      by rewrite lookup_insert_eq.
  - intros k Hk. rewrite length_app. simpl.
    destruct (decide (k = Z.of_nat (length (file_info w)))) as [->|Hne]; [lia|].
    rewrite lookup_insert_ne in Hk by done. specialize (H5 k Hk). lia.
  - unfold stored_rows. simpl. rewrite app_nil_r.
    unfold read_files. rewrite map_app, concat_app. simpl.
    rewrite app_nil_r. fold (read_files (<[Z.of_nat (length (file_info w)) := f]> (disk w)) (file_info w)).
    rewrite read_files_insert by done.
    unfold read_entry. simpl. rewrite lookup_insert_eq. exact H6.
  - split_and!.
    + apply map_Forall_insert_2; [by apply H8|done].
    + intros ? [=].
    + intros Hs. destruct (H9 Hs) as [_ ?]. done.
Qed.

Lemma _close_current_file_fields (w : Writer) :
  schema (_close_current_file w) = schema w
  /\ buffered_batches (_close_current_file w) = buffered_batches w.
Proof.
  unfold Parquet._close_current_file. by destruct (current_writer w).
Qed.

(** What [_write_rows_to_current_file] does to a writer with an open
    file: [n] rows leave the front of the buffer for new row groups. *)
Lemma _write_rows_to_current_file_shape (fuel : nat) (n : Z) (w w' : Writer) :
  Inv w -> is_Some (current_writer w) ->
  0 < n <= buffered_rows w ->
  _write_rows_to_current_file fuel n w = Some w' ->
  exists new rest,
    w' = set_buffer rest (buffered_rows w - n) (appended new w)
    /\ concat new ++ from_batches rest = from_batches (buffered_batches w).
Proof.
  intros HI [f Hf] Hn. unfold Parquet._write_rows_to_current_file.
  destruct (Z.leb_spec n 0); [lia|]. simpl.
  pose proof HI as [H1 H2 _ _ _ _].
  destruct (buffered_batches w) as [|b bs] eqn:Eb.
  { simpl in H1. lia. }
  destruct (take_rows_spec R (b :: bs) n (buffered_rows w) H2 ltac:(lia))
    as (tw & rest & -> & Htw & Hrest & Hpos & Hne & Hcat).
  destruct tw as [|t tw]; [by destruct Hne; [lia|]|].
  intros Hrun.
  apply _write_table_to_file_open in Hrun as (new & -> & Hnew & Hok);
    [|by exists f].
  exists new, rest. split; [done|]. by rewrite Hnew.
Qed.

(** What [_write_all_buffered_rows] does to a writer with an open file. *)
Lemma _write_all_buffered_rows_shape (fuel : nat) (w w' : Writer) :
  is_Some (current_writer w) -> buffered_batches w <> [] ->
  _write_all_buffered_rows fuel w = Some w' ->
  exists new,
    w' = set_buffer [] 0 (appended new w)
    /\ concat new = from_batches (buffered_batches w).
Proof.
  intros [f Hf] Hne. unfold Parquet._write_all_buffered_rows.
  destruct (buffered_batches w) as [|b bs] eqn:Eb; [done|].
  destruct (Parquet._write_table_to_file _ _ _ _ fuel _ w) as [w1|] eqn:Hrun;
    [|done].
  simpl. intros [= <-].
  apply _write_table_to_file_open in Hrun as (new & -> & Hnew & Hok);
    [|by exists f].
  by exists new.
Qed.

(** The buffer-draining loop of [write_batch] keeps the store; every file
    it closes is full, and the file it leaves open holds a row. *)
Lemma write_batch_loop_store (given : list R) (fuel : nat) : forall w w',
  0 <= file_rows -> Inv w -> open_fits w -> is_Some (schema w) ->
  Store given w -> closed_full w -> open_used w ->
  write_batch_loop fuel w = Some w' ->
  Store given w' /\ closed_full w' /\ open_used w' /\ schema w' = schema w.
Proof.
  induction fuel as [|fuel IH]; intros w w' Hfr HI Hfit Hsch HS Hfull Hused;
    simpl.
  - destruct (Z.ltb_spec 0 (buffered_rows w)); [done|].
    intros [= <-]. by split_and!.
  - destruct (Z.ltb_spec 0 (buffered_rows w)) as [Hpos|Hnp]; cycle 1.
    { intros [= <-]. by split_and!. }
    fold (ensure_open w).
    destruct (ensure_open_inv R st_size compute_hash row_group_rows file_rows
                w Hfr HI Hfit) as [HI1 Hfit1].
    destruct (ensure_open_open R st_size compute_hash w) as [f Hf].
    destruct (ensure_open_buffer R st_size compute_hash w) as [Hb1 Hb2].
    pose proof (ensure_open_store given w Hsch HS) as HS1.
    pose proof (ensure_open_file_info w) as Hfi1.
    pose proof (ensure_open_schema w) as Hsch1.
    set (w1 := ensure_open w) in *. clearbody w1.
    assert (is_Some (current_writer w1)) as Hopen by eauto.
    assert (closed_full w1) as Hfull1 by (unfold closed_full; by rewrite Hfi1).
    pose proof Hfit1 as Hfit1'. unfold Parquet.open_fits in Hfit1'.
    rewrite open_rows_open in Hfit1' by done.
    assert (buffered_batches w1 <> []) as Hbuf.
    { intros Hnil. pose proof (inv_buf_rows _ _ _ _ HI1) as Hr.
      rewrite Hnil in Hr. simpl in Hr. lia. }
    destruct (Z.ltb_spec file_rows (current_row_count w1 + buffered_rows w1))
      as [Hover|Hroom].
    + destruct (Z.ltb_spec 0 (file_rows - current_row_count w1)) as [Hneed|Hdone];
        simpl.
      * destruct (Z.ltb_spec 0 (buffered_rows w1)); [|lia]. simpl.
        destruct (Parquet._write_rows_to_current_file _ _ _ _ fuel
                    (file_rows - current_row_count w1) w1) as [w2|] eqn:Hw;
          [|done].
        simpl.
        pose proof Hw as Hshape.
        apply (_write_rows_to_current_file_inv R st_size compute_hash
                 row_group_rows file_rows) in Hw
          as (HI2 & Hopen2 & Hc2 & Hb); auto; [|lia].
        apply _write_rows_to_current_file_shape in Hshape
          as (new & rest & Hw2 & Hmove); auto; [|lia].
        assert (Store given w2) as HS2.
        { rewrite Hw2. by apply moved_store. }
        assert (open_fits w2) as Hfit2.
        { unfold Parquet.open_fits. rewrite open_rows_open by done. lia. }
        destruct (_close_current_file_inv R st_size compute_hash
                    row_group_rows file_rows w2 Hfr HI2 Hfit2)
          as (HI3 & Hfit3 & Hc3 & _).
        destruct (_close_current_file_fields w2) as [Hs3 _].
        intros Hrun. apply IH in Hrun as (? & ? & ? & Hs4); auto.
        -- split_and!; auto. rewrite Hs4, Hs3, Hw2. simpl. done.
        -- rewrite Hs3, Hw2. simpl. by rewrite Hsch1.
        -- by apply _close_current_file_store.
        -- unfold closed_full, Parquet._close_current_file.
           destruct Hopen2 as [f2 Hf2]. rewrite Hf2. simpl.
           apply Forall_app. split.
           ++ rewrite Hw2. simpl. exact Hfull1.
           ++ constructor; [|done]. simpl. lia.
        -- unfold open_used. rewrite Hc3. by intros [? [=]].
      * simpl.
        destruct (_close_current_file_inv R st_size compute_hash
                    row_group_rows file_rows w1 Hfr HI1 Hfit1)
          as (HI3 & Hfit3 & Hc3 & _).
        destruct (_close_current_file_fields w1) as [Hs3 _].
        intros Hrun. apply IH in Hrun as (? & ? & ? & Hs4); auto.
        -- split_and!; auto. by rewrite Hs4, Hs3.
        -- by rewrite Hs3, Hsch1.
        -- by apply _close_current_file_store.
        -- unfold closed_full, Parquet._close_current_file.
           destruct Hopen as [f1 Hf1]. rewrite Hf1. simpl.
           apply Forall_app. split; [done|].
           constructor; [|done]. simpl. lia.
        -- unfold open_used. rewrite Hc3. by intros [? [=]].
    + intros Hw. pose proof Hw as Hshape.
      apply (_write_all_buffered_rows_inv R st_size compute_hash
               row_group_rows file_rows) in Hw as (HI2 & Hopen2 & Hc2 & Hb);
        auto; [|lia].
      apply _write_all_buffered_rows_shape in Hshape as (new & Hw2 & Hmove);
        auto.
      split_and!.
      * rewrite Hw2. apply moved_store; auto. simpl. by rewrite app_nil_r.
      * unfold closed_full. rewrite Hw2. simpl. exact Hfull1.
      * intros _. rewrite Hc2.
        pose proof (inv_open _ _ _ _ HI1) as Ho.
        destruct Hopen as [f1 Hf1]. destruct (Ho f1 Hf1) as [Hr _].
        unfold Parquet.shard_rows in Hr. lia.
      * rewrite Hw2. simpl. done.
Qed.

(** Between two public calls: the buffer is empty, the files and the
    bookkeeping agree on the rows [given] so far, every closed file is full
    and the open one is in use. *)
Definition settled (given : list R) (w : Writer) : Prop :=
  idle w /\ Store given w /\ closed_full w /\ open_used w.

(** The schema the writer has after a batch. *)
Definition schema_with (sch : option Schema) (b : Batch) : option Schema :=
  if (num_rows b =? 0)%Z then sch
  else match sch with
       | None => Some (batch_schema b)
       | Some s => Some s
       end.

Lemma init_settled (schema0 : option Schema) :
  0 <= file_rows -> settled [] (init schema0).
Proof.
  intros Hfr. split_and!.
  - by apply init_idle.
  - apply init_store.
  - constructor.
  - intros [? [=]].
Qed.

Lemma write_batch_settled (given : list R) (fuel : nat) (b : Batch)
      (w w' : Writer) :
  0 <= file_rows -> settled given w -> write_batch fuel b w = Some w' ->
  settled (given ++ batch_rows b) w' /\ schema w' = schema_with (schema w) b.
Proof.
  intros Hfr (Hidle & HS & Hfull & Hused) Hrun.
  pose proof (write_batch_idle R st_size compute_hash row_group_rows file_rows
                fuel b w w' Hfr Hidle Hrun) as Hidle'.
  revert Hrun. unfold Parquet.write_batch, schema_with.
  destruct (Z.eqb_spec (num_rows b) 0) as [H0|Hn0].
  { intros [= <-]. split; [|done]. split_and!; auto.
    assert (batch_rows b = []) as ->.
    { unfold Parquet.num_rows in H0. destruct (batch_rows b); [done|].
      simpl in H0. lia. }
    by rewrite app_nil_r. }
  destruct Hidle as (HI & Hfit & Hnil).
  match goal with
  | |- Parquet.write_batch_loop _ _ _ _ _ _ ?w1 = _ -> _ => set (w0 := w1)
  end.
  assert (Inv w0) as HI0.
  { destruct HI as [H1 H2 H3 H4 H5 H6]. rewrite Hnil in *. simpl in H1.
    constructor; simpl; auto.
    - rewrite Hnil. simpl. lia.
    - rewrite Hnil. constructor; [|done]. unfold Parquet.num_rows in *. lia.
    - unfold Parquet.open_rows in *. simpl. lia. }
  assert (is_Some (schema w0)) as Hsch0.
  { simpl. destruct (schema w); eauto. }
  assert (Store (given ++ batch_rows b) w0) as HS0.
  { destruct HS as [H1 H2 H3 H4 H5 H6 (H7 & H8 & H9)].
    unfold stored_rows in *. rewrite Hnil in *.
    constructor; simpl; auto.
    - rewrite Hnil. rewrite <- H6. unfold Parquet.from_batches. simpl.
      by rewrite !app_nil_r.
    - destruct (schema w) as [s|] eqn:Es; [by split_and!|].
      destruct (H9 eq_refl) as [Hd Hc]. rewrite Hd, Hc.
      split_and!; [apply map_Forall_empty|done|done]. }
  intros Hrun.
  apply (write_batch_loop_store (given ++ batch_rows b)) in Hrun
    as (HS' & Hfull' & Hused' & Hsch'); auto.
  split; [by split_and!|]. rewrite Hsch'. done.
Qed.

Lemma write_batches_settled (fuel : nat) (bs : list Batch) :
  forall (given : list R) (w w' : Writer),
    0 <= file_rows -> settled given w -> write_batches fuel bs w = Some w' ->
    settled (given ++ concat (map batch_rows bs)) w'
    /\ schema w' = foldl schema_with (schema w) bs.
Proof.
  induction bs as [|b bs IH]; intros given w w' Hfr Hw; simpl.
  - intros [= <-]. by rewrite app_nil_r.
  - destruct (Parquet.write_batch _ _ _ _ _ fuel b w) as [w1|] eqn:E; [|done].
    simpl. intros Hrun.
    apply (write_batch_settled given) in E as [Hw1 Hs1]; auto.
    apply (IH (given ++ batch_rows b)) in Hrun as [Hw' Hs']; auto.
    rewrite <- app_assoc in Hw'. by rewrite Hs', Hs1.
Qed.

(** What a completed run leaves: the files and the manifest agree on the
    rows that were given, and every file but the last is full. *)
Lemma run_store (fuel : nat) (schema0 : option Schema) (batches : list Batch)
      (m : manifest) (w : Writer) :
  0 < file_rows ->
  write_parquet_batches fuel schema0 batches = Some (m, w) ->
  m = _generate_manifest w
  /\ Inv w
  /\ current_writer w = None
  /\ buffered_batches w = []
  /\ Store (concat (map batch_rows batches)) w
  /\ schema w = foldl schema_with schema0 batches
  /\ (forall i e, file_info w !! i = Some e ->
        0 < rows e
        /\ ((S i < length (file_info w))%nat -> rows e = file_rows)).
Proof.
  intros Hfr0. assert (0 <= file_rows) as Hfr by lia.
  unfold Parquet.write_parquet_batches.
  destruct (Parquet.write_batches _ _ _ _ _ fuel batches (init schema0))
    as [w1|] eqn:E; [|done].
  simpl. intros Hfin.
  apply (write_batches_settled fuel batches []) in E
    as [(Hidle & HS & Hfull & Hused) Hsch]; auto using init_settled.
  simpl in HS, Hsch.
  destruct (finalize_idle R st_size compute_hash row_group_rows file_rows
              the_table_name now fuel w1 w m Hfr Hidle Hfin)
    as (HI & Hc & Hb & Hm).
  destruct Hidle as (HI1 & Hfit1 & Hnil1).
  assert (w = match current_writer w1 with
              | Some _ => _close_current_file w1
              | None => w1
              end) as Hw.
  { revert Hfin. unfold Parquet.finalize. rewrite Hnil1. simpl.
    intros Hfin. apply (f_equal (fmap snd)) in Hfin. simpl in Hfin.
    by injection Hfin as <-. }
  clear Hfin.
  destruct (current_writer w1) as [f|] eqn:Hf; subst w.
  - split_and!; auto.
    + by apply _close_current_file_store.
    + by destruct (_close_current_file_fields w1) as [-> _].
    + unfold Parquet._close_current_file. rewrite Hf. simpl.
      intros i e Hi. rewrite length_app. simpl.
      apply lookup_app_Some in Hi as [Hi|[Hge Hi]].
      * pose proof (Forall_lookup_1 _ _ _ _ Hfull Hi) as Hrows.
        simpl in Hrows. split; [lia|done].
      * apply list_lookup_singleton_Some in Hi as [Hi <-]. simpl.
        split; [apply Hused; eauto|]. lia.
  - split_and!; auto.
    intros i e Hi. pose proof (Forall_lookup_1 _ _ _ _ Hfull Hi) as Hrows.
    simpl in Hrows. split; [lia|done].
Qed.

(** Reading the shard files back in the order of the manifest gives the
    rows of the batches, in the order they were written: no row is lost,
    repeated or moved. *)
Theorem rows_round_trip (schema0 : option Schema) (batches : list Batch)
        (fuel : nat) (m : manifest) (w : Writer) :
  0 < file_rows ->
  write_parquet_batches fuel schema0 batches = Some (m, w) ->
  read_files (disk w) (files m) = concat (map batch_rows batches).
Proof.
  intros Hfr Hrun.
  destruct (run_store fuel schema0 batches m w Hfr Hrun)
    as (-> & _ & Hc & Hb & HS & _).
  pose proof (st_rows _ _ HS) as Hrows. unfold stored_rows in Hrows.
  rewrite Hc, Hb in Hrows. simpl in Hrows.
  unfold Parquet.from_batches in Hrows. simpl in Hrows.
  by rewrite !app_nil_r in Hrows.
Qed.

(** Files are filled in order: every shard file holds at least one row,
    and every one but the last holds exactly [file_rows] rows. *)
Theorem shards_filled_in_order (schema0 : option Schema)
        (batches : list Batch) (fuel : nat) (m : manifest) (w : Writer) :
  0 < file_rows ->
  write_parquet_batches fuel schema0 batches = Some (m, w) ->
  forall i e, files m !! i = Some e ->
    0 < rows e <= file_rows
    /\ ((S i < length (files m))%nat -> rows e = file_rows).
Proof.
  intros Hfr Hrun i e Hi.
  destruct (run_store fuel schema0 batches m w Hfr Hrun)
    as (-> & HI & _ & _ & _ & _ & Hfill).
  simpl in *. destruct (Hfill i e Hi) as [Hpos Hfull].
  pose proof (Forall_lookup_1 _ _ _ _ (inv_entries _ _ _ _ HI) Hi) as Hle.
  simpl in Hle. split; [lia|done].
Qed.

Lemma sum_rows_filled (F : Z) (l : list file_entry) :
  (forall i e, l !! i = Some e ->
     0 < rows e <= F /\ ((S i < length l)%nat -> rows e = F)) ->
  l = [] \/ exists r, 0 < r <= F
                      /\ sum_rows l = (Z.of_nat (length l) - 1) * F + r.
Proof.
  destruct l as [|e0 l0] using rev_ind; [by left|]. clear IHl0.
  intros H. right. exists (rows e0). split.
  - destruct (H (length l0) e0) as [? _]; [|done].
    by rewrite lookup_app_r, Nat.sub_diag.
  - rewrite sum_rows_app, length_app. simpl.
    assert (sum_rows l0 = Z.of_nat (length l0) * F) as ->; [|lia].
    assert (Forall (fun e => rows e = F) l0) as Hall.
    { apply Forall_lookup_2. intros i e Hi.
      destruct (H i e) as [_ Hf].
      - by apply lookup_app_l_Some.
      - apply Hf. rewrite length_app. simpl.
        apply lookup_lt_Some in Hi. lia. }
    clear H. induction Hall as [|e l He _ IH]; simpl; [done|].
    rewrite IH, He. lia.
Qed.

Lemma sum_rows_read_files (d : gmap Z (shard R)) (l : list file_entry) :
  Forall (describes d) l ->
  sum_rows l = Z.of_nat (length (read_files d l)).
Proof.
  unfold read_files.
  induction 1 as [|e l (f & Hf & Hr & _) _ IH]; simpl; [done|].
  rewrite length_app, Nat2Z.inj_add, <- IH, Hr.
  unfold read_entry. rewrite Hf. reflexivity.
Qed.

(** The number of shard files is the number of rows divided by
    [file_rows], rounded up. *)
Theorem shard_count (schema0 : option Schema) (batches : list Batch)
        (fuel : nat) (m : manifest) (w : Writer) :
  0 < file_rows ->
  write_parquet_batches fuel schema0 batches = Some (m, w) ->
  total_rows m = Z.of_nat (length (concat (map batch_rows batches)))
  /\ Z.of_nat (length (files m)) = (total_rows m + file_rows - 1) / file_rows.
Proof.
  intros Hfr Hrun.
  destruct (run_store fuel schema0 batches m w Hfr Hrun)
    as (-> & HI & Hc & Hb & HS & _ & Hfill).
  simpl.
  assert (total_row_count R w = sum_rows (file_info w)) as Htot.
  { pose proof (inv_total _ _ _ _ HI) as Ht.
    pose proof (inv_buf_rows _ _ _ _ HI) as Hr.
    unfold Parquet.open_rows in Ht. rewrite Hc in Ht. rewrite Hb in Hr.
    simpl in Hr. lia. }
  split.
  - rewrite Htot. pose proof (st_rows _ _ HS) as Hrows.
    unfold stored_rows in Hrows. rewrite Hc, Hb in Hrows.
    unfold Parquet.from_batches in Hrows. simpl in Hrows.
    rewrite !app_nil_r in Hrows. rewrite <- Hrows. clear Hrows.
    apply sum_rows_read_files, (st_entries _ _ HS).
  - rewrite Htot.
    destruct (sum_rows_filled file_rows (file_info w)) as [->|(r & Hr & ->)].
    + intros i e Hi. destruct (Hfill i e Hi) as [Hpos Hfull].
      pose proof (Forall_lookup_1 _ _ _ _ (inv_entries _ _ _ _ HI) Hi) as Hle.
      simpl in Hle. split; [lia|done].
    + simpl. symmetry. apply Z.div_small. lia.
    + apply (Z.div_unique _ _ _ (r - 1)); lia.
Qed.

(** The first batch that has rows, if any. *)
Fixpoint first_with_rows (batches : list Batch) : option Batch :=
  match batches with
  | [] => None
  | b :: bs => if (num_rows b =? 0)%Z then first_with_rows bs else Some b
  end.

Lemma foldl_schema_with_some (s : Schema) (batches : list Batch) :
  foldl schema_with (Some s) batches = Some s.
Proof.
  induction batches as [|b bs IH]; simpl; [done|].
  unfold schema_with at 2. by destruct (num_rows b =? 0)%Z.
Qed.

Lemma foldl_schema_with_none (batches : list Batch) :
  foldl schema_with None batches = batch_schema <$> first_with_rows batches.
Proof.
  induction batches as [|b bs IH]; simpl; [done|].
  unfold schema_with at 2. destruct (num_rows b =? 0)%Z; [done|].
  apply foldl_schema_with_some.
Qed.

(** The schema of the manifest.  When some batch has rows, the manifest
    lists the fields of the schema the constructor was given or, if it was
    given none, of the schema of the first batch that has rows.  (Arrow
    refuses a batch whose schema differs from the one of the file; the
    statement is for runs in which the batches that have rows all have
    that schema.) *)
Theorem manifest_schema_of_first_batch (schema0 : option Schema)
        (batches : list Batch) (fuel : nat) (m : manifest) (w : Writer)
        (first : Batch) :
  0 < file_rows ->
  first_with_rows batches = Some first ->
  Forall (fun b => num_rows b <> 0 -> batch_schema b = batch_schema first)
         batches ->
  schema0 = None \/ schema0 = Some (batch_schema first) ->
  write_parquet_batches fuel schema0 batches = Some (m, w) ->
  schema_fields m = batch_schema first
  /\ map_Forall (fun _ f => shard_schema f = Some (batch_schema first))
                (disk w).
Proof.
  intros Hfr Hfirst Hall H0 Hrun.
  destruct (run_store fuel schema0 batches m w Hfr Hrun)
    as (-> & HI & Hc & Hb & HS & Hsch & Hfill).
  assert (schema w = Some (batch_schema first)) as Hs.
  { rewrite Hsch. destruct H0 as [-> | ->].
    - by rewrite foldl_schema_with_none, Hfirst.
    - apply foldl_schema_with_some. }
  destruct (st_schemas _ _ HS) as (Hd & _ & _). rewrite Hs in Hd.
  split; [|done].
  unfold Parquet._generate_manifest. simpl.
  destruct (file_info w) as [|e es] eqn:Efi.
  - exfalso. pose proof (st_rows _ _ HS) as Hrows.
    unfold stored_rows, read_files in Hrows. rewrite Efi, Hc, Hb in Hrows.
    unfold Parquet.from_batches in Hrows. simpl in Hrows.
    symmetry in Hrows. clear -Hrows Hfirst.
    induction batches as [|b bs IH]; [done|]. simpl in *.
    apply app_eq_nil in Hrows as [Hb Hbs].
    unfold Parquet.num_rows in Hfirst. rewrite Hb in Hfirst. simpl in Hfirst.
    auto.
  - pose proof (st_entries _ _ HS) as He. rewrite Efi in He.
    inversion_clear He as [|? ? (f & Hf & _) _]. rewrite Hf.
    by rewrite (Hd _ _ Hf).
Qed.

(** ** A directory that is not empty *)

(** [__init__] over a directory that holds the shard files [old]:
    [mkdir(parents=True, exist_ok=True)] keeps what is there, and [init]
    is the case of a directory without shard files. *)
Definition init_in (old : gmap Z (shard R)) (schema0 : option Schema)
  : Writer :=
  mkWriter R schema0 0 0 0 [] None 0 [] 0 old.

(** [write_parquet_batches] into such a directory. *)
Definition write_parquet_batches_in (fuel : nat) (old : gmap Z (shard R))
           (schema0 : option Schema) (batches : list Batch)
  : option (manifest * Writer) :=
  w ← write_batches fuel batches (init_in old schema0); finalize fuel w.

(** The writer [w], had the directory held the files [old] from the
    start: a file the writer has written hides the old one of its
    number. *)
Definition over (old : gmap Z (shard R)) (w : Writer) : Writer :=
  mkWriter R (schema w) (current_file_index w) (current_row_count w)
           (Parquet.total_row_count R w) (file_info w) (current_writer w)
           (current_file_path w) (buffered_batches w) (buffered_rows w)
           (disk w ∪ old).

Section Over.

Variable old : gmap Z (shard R).

Lemma over_init (schema0 : option Schema) :
  init_in old schema0 = over old (init schema0).
Proof. unfold init_in, over, Parquet.init. simpl. by rewrite (left_id_L ∅ (∪)). Qed.

Lemma over_close (w : Writer) :
  _close_current_file (over old w) = over old (_close_current_file w).
Proof.
  unfold Parquet._close_current_file.
  change (current_writer (over old w)) with (current_writer w).
  destruct (current_writer w); [|done].
  unfold over. simpl. by rewrite insert_union_l.
Qed.

Lemma over_start (w : Writer) :
  _start_new_file (over old w) = over old (_start_new_file w).
Proof.
  unfold Parquet._start_new_file.
  change (current_writer (over old w)) with (current_writer w).
  destruct (current_writer w) eqn:E; [rewrite over_close|]; done.
Qed.

Lemma over_write_chunk (chunk : list R) (n : Z) (w : Writer) :
  Parquet.write_chunk R chunk n (over old w)
  = over old (Parquet.write_chunk R chunk n w).
Proof. done. Qed.

Lemma over_write_chunks (fuel : nat) : forall (table : list R) (written : Z)
                                              (w : Writer),
  Parquet.write_chunks R row_group_rows fuel table written (over old w)
  = over old <$> Parquet.write_chunks R row_group_rows fuel table written w.
Proof.
  induction fuel as [|fuel IH]; intros table written w; simpl;
    destruct (written <? Z.of_nat (length table)); try done.
  by rewrite over_write_chunk, IH.
Qed.

Lemma over_write_table (fuel : nat) (table : list R) (w : Writer) :
  _write_table_to_file fuel table (over old w)
  = over old <$> _write_table_to_file fuel table w.
Proof.
  unfold Parquet._write_table_to_file.
  change (current_writer (over old w)) with (current_writer w).
  destruct (current_writer w); [|rewrite over_start]; apply over_write_chunks.
Qed.

Lemma over_set_buffer (bs : list Batch) (n : Z) (w : Writer) :
  set_buffer bs n (over old w) = over old (set_buffer bs n w).
Proof. done. Qed.

Lemma over_write_rows (fuel : nat) (n : Z) (w : Writer) :
  _write_rows_to_current_file fuel n (over old w)
  = over old <$> _write_rows_to_current_file fuel n w.
Proof.
  unfold Parquet._write_rows_to_current_file.
  change (buffered_batches (over old w)) with (buffered_batches w).
  change (buffered_rows (over old w)) with (buffered_rows w).
  destruct (_ || _); [done|].
  destruct (Parquet.take_rows R n (buffered_batches w) (buffered_rows w))
    as [[to_write rest] brows].
  rewrite over_set_buffer. destruct to_write; [done|]. apply over_write_table.
Qed.

Lemma over_write_all (fuel : nat) (w : Writer) :
  _write_all_buffered_rows fuel (over old w)
  = over old <$> _write_all_buffered_rows fuel w.
Proof.
  unfold Parquet._write_all_buffered_rows.
  change (buffered_batches (over old w)) with (buffered_batches w).
  destruct (buffered_batches w) as [|b bs]; [done|].
  rewrite over_write_table.
  by destruct (_write_table_to_file fuel _ w).
Qed.

Lemma over_write_batch_loop (fuel : nat) : forall w : Writer,
  write_batch_loop fuel (over old w) = over old <$> write_batch_loop fuel w.
Proof.
  induction fuel as [|fuel IH]; intros w; simpl;
    change (buffered_rows (over old w)) with (buffered_rows w);
    destruct (0 <? buffered_rows w); try done.
  change (current_writer (over old w)) with (current_writer w).
  assert (match current_writer w with
          | Some _ => over old w
          | None => _start_new_file (over old w)
          end
          = over old (match current_writer w with
                      | Some _ => w
                      | None => _start_new_file w
                      end)) as ->.
  { destruct (current_writer w); [done|apply over_start]. }
  set (w1 := match current_writer w with
             | Some _ => w
             | None => _start_new_file w
             end).
  change (current_row_count (over old w1)) with (current_row_count w1).
  change (buffered_rows (over old w1)) with (buffered_rows w1).
  destruct (file_rows <? current_row_count w1 + buffered_rows w1);
    [|apply over_write_all].
  destruct (_ && _).
  - rewrite over_write_rows.
    destruct (_write_rows_to_current_file fuel _ w1) as [w2|]; [|done].
    simpl. by rewrite over_close, IH.
  - simpl. by rewrite over_close, IH.
Qed.

Lemma over_write_batch (fuel : nat) (b : Batch) (w : Writer) :
  write_batch fuel b (over old w) = over old <$> write_batch fuel b w.
Proof.
  unfold Parquet.write_batch. destruct (num_rows b =? 0); [done|].
  apply (over_write_batch_loop fuel
           (mkWriter R (match schema w with
                        | Some s => Some s
                        | None => Some (batch_schema b)
                        end)
                     (current_file_index w) (current_row_count w)
                     (total_row_count R w + num_rows b) (file_info w)
                     (current_writer w) (current_file_path w)
                     (buffered_batches w ++ [b])
                     (buffered_rows w + num_rows b) (disk w))).
Qed.

Lemma over_write_batches (fuel : nat) (bs : list Batch) : forall w : Writer,
  write_batches fuel bs (over old w) = over old <$> write_batches fuel bs w.
Proof.
  induction bs as [|b bs IH]; intros w; simpl; [done|].
  rewrite over_write_batch.
  destruct (write_batch fuel b w) as [w'|]; [|done]. simpl. apply IH.
Qed.

(** Up to the manifest, whose schema is read from the first file. *)
Lemma over_finalize (fuel : nat) (w : Writer) :
  finalize fuel (over old w)
  = (fun mw => (_generate_manifest (over old mw.2), over old mw.2))
    <$> finalize fuel w.
Proof.
  unfold Parquet.finalize.
  change (buffered_batches (over old w)) with (buffered_batches w).
  change (current_writer (over old w)) with (current_writer w).
  assert (match buffered_batches w with
          | [] => Some (over old w)
          | _ :: _ =>
              _write_all_buffered_rows fuel
                (match current_writer w with
                 | Some _ => over old w
                 | None => _start_new_file (over old w)
                 end)
          end
          = over old <$> match buffered_batches w with
                         | [] => Some w
                         | _ :: _ =>
                             _write_all_buffered_rows fuel
                               (match current_writer w with
                                | Some _ => w
                                | None => _start_new_file w
                                end)
                         end) as ->.
  { destruct (buffered_batches w); [done|].
    destruct (current_writer w); [|rewrite over_start]; apply over_write_all. }
  destruct (match buffered_batches w with [] => _ | _ => _ end) as [w1|];
    [|done].
  simpl. change (current_writer (over old w1)) with (current_writer w1).
  destruct (current_writer w1); [rewrite over_close|]; done.
Qed.

Lemma over_manifest (given : list R) (w : Writer) :
  Store given w -> _generate_manifest (over old w) = _generate_manifest w.
Proof.
  intros HS. unfold Parquet._generate_manifest. simpl.
  destruct (file_info w) as [|first rest] eqn:E; [done|].
  pose proof (st_entries _ _ HS) as Hent. rewrite E in Hent.
  apply Forall_cons in Hent as [(f & Hf & _) _].
  by rewrite (lookup_union_Some_l _ _ _ _ Hf), Hf.
Qed.

End Over.

(** A run into a directory that holds shard files already is the run into
    an empty one, laid over what was there. *)
Lemma run_in_directory (old : gmap Z (shard R)) (schema0 : option Schema)
      (batches : list Batch) (fuel : nat) :
  0 < file_rows ->
  write_parquet_batches_in fuel old schema0 batches
  = (fun mw => (mw.1, over old mw.2))
    <$> write_parquet_batches fuel schema0 batches.
Proof.
  intros Hfr.
  destruct (write_parquet_batches fuel schema0 batches) as [[m w]|] eqn:Hrun.
  - destruct (run_store fuel schema0 batches m w Hfr Hrun)
      as (Hm & _ & _ & _ & HS & _).
    unfold write_parquet_batches_in, Parquet.write_parquet_batches in *.
    rewrite over_init, over_write_batches.
    destruct (write_batches fuel batches (init schema0)) as [w1|]; [|done].
    simpl in *. rewrite over_finalize, Hrun. simpl.
    by rewrite (over_manifest old _ w HS), Hm.
  - unfold write_parquet_batches_in, Parquet.write_parquet_batches in *.
    rewrite over_init, over_write_batches.
    destruct (write_batches fuel batches (init schema0)) as [w1|]; [|done].
    simpl in *. by rewrite over_finalize, Hrun.
Qed.

(** The manifest describes the files the run wrote, and only those.  Its
    entries are numbered from zero in the order the files were written,
    and each gives the row count, the size and the hash of the file of
    its number as the run left it.  A shard file that was in the
    directory before the run under another number is still there as it
    was, without an entry. *)
Theorem manifest_describes_files (old : gmap Z (shard R))
        (schema0 : option Schema) (batches : list Batch) (fuel : nat)
        (m : manifest) (w : Writer) :
  0 < file_rows ->
  write_parquet_batches_in fuel old schema0 batches = Some (m, w) ->
  (forall i e, files m !! i = Some e ->
     file e = Z.of_nat i
     /\ exists f, disk w !! file e = Some f
                  /\ rows e = shard_rows f
                  /\ size_bytes e = st_size f
                  /\ hash e = compute_hash f)
  /\ (forall k, ~ (0 <= k < Z.of_nat (length (files m))) ->
                disk w !! k = old !! k).
Proof.
  intros Hfr. rewrite run_in_directory by done.
  destruct (write_parquet_batches fuel schema0 batches) as [[m0 w0]|] eqn:Hrun;
    [|done].
  simpl. intros [= <- <-].
  destruct (run_store fuel schema0 batches m0 w0 Hfr Hrun)
    as (-> & _ & Hc & Hb & HS & _).
  simpl. split.
  - intros i e Hi. split; [by apply (st_numbers _ _ HS)|].
    destruct (Forall_lookup_1 _ _ _ _ (st_entries _ _ HS) Hi)
      as (f & Hf & Hrest).
    exists f. split; [|done]. by apply lookup_union_Some_l.
  - intros k Hk. apply lookup_union_r.
    destruct (disk w0 !! k) as [f|] eqn:E; [|done].
    exfalso. apply Hk. apply (st_dom _ _ HS). by exists f.
Qed.

End Contents.

(** Three batches of two rows under [file_rows = 5]: the two files read
    back give the six rows in order. *)
Lemma rows_round_trip_witness :
  (exists mw, small_run None [two_rows; two_rows; two_rows] = Some mw
              /\ read_files nat (disk nat mw.2) (files mw.1)
                 = [1; 2; 1; 2; 1; 2]%nat)
  /\ forall m w,
       small_run None [two_rows; two_rows; two_rows] = Some (m, w) ->
       read_files nat (disk nat w) (files m)
       = concat (map (batch_rows nat) [two_rows; two_rows; two_rows]).
Proof.
  split.
  - vm_compute. eexists. split; reflexivity.
  - intros m w E.
    exact (rows_round_trip nat (fun _ => 0) (fun _ => "sha256:") 2 5 "scores"
             "2026-01-01T00:00:00Z" None [two_rows; two_rows; two_rows]
             (enough_fuel nat [two_rows; two_rows; two_rows]) m w eq_refl E).
Defined.

(** The run of [shard_budgets_witness] into a directory in which an
    earlier run left four files: files 0 and 1 are written anew, file 3 is
    as it was. *)
Definition stale : shard nat := mkShard (Some [("id", "int64")]) [[7%nat]].

Lemma manifest_describes_files_witness :
  let old : gmap Z (shard nat) :=
    {[0 := stale; 1 := stale; 2 := stale; 3 := stale]} in
  let run :=
    write_parquet_batches_in nat (fun _ => 0) (fun _ => "sha256:") 2 5
      "scores" "2026-01-01T00:00:00Z"
      (enough_fuel nat [two_rows; two_rows; two_rows]) old None
      [two_rows; two_rows; two_rows] in
  (exists mw, run = Some mw /\ map file (files mw.1) = [0; 1])
  /\ forall m w, run = Some (m, w) -> disk nat w !! 3 = Some stale.
Proof.
  intros old run. split.
  - vm_compute. eexists. split; reflexivity.
  - intros m w E.
    assert (length (files m) = 2%nat) as Hlen.
    { vm_compute in E. by injection E as <- _. }
    rewrite (proj2 (manifest_describes_files nat (fun _ => 0)
                      (fun _ => "sha256:") 2 5 "scores"
                      "2026-01-01T00:00:00Z" old None
                      [two_rows; two_rows; two_rows]
                      (enough_fuel nat [two_rows; two_rows; two_rows]) m w
                      eq_refl E) 3); [reflexivity|].
    rewrite Hlen. lia.
Defined.

Lemma shards_filled_in_order_witness :
  (exists mw, small_run None [two_rows; two_rows; two_rows] = Some mw
              /\ map rows (files mw.1) = [5; 1])
  /\ forall m w,
       small_run None [two_rows; two_rows; two_rows] = Some (m, w) ->
       forall i e, files m !! i = Some e ->
         0 < rows e <= 5 /\ ((S i < length (files m))%nat -> rows e = 5).
Proof.
  split.
  - vm_compute. eexists. split; reflexivity.
  - intros m w E.
    exact (shards_filled_in_order nat (fun _ => 0) (fun _ => "sha256:") 2 5
             "scores" "2026-01-01T00:00:00Z" None
             [two_rows; two_rows; two_rows]
             (enough_fuel nat [two_rows; two_rows; two_rows]) m w eq_refl E).
Defined.

Lemma shard_count_witness :
  (exists mw, small_run None [two_rows; two_rows; two_rows] = Some mw
              /\ length (files mw.1) = 2%nat /\ total_rows mw.1 = 6)
  /\ forall m w,
       small_run None [two_rows; two_rows; two_rows] = Some (m, w) ->
       Z.of_nat (length (files m)) = (total_rows m + 5 - 1) / 5.
Proof.
  split.
  - vm_compute. eexists. split_and!; reflexivity.
  - intros m w E.
    exact (proj2 (shard_count nat (fun _ => 0) (fun _ => "sha256:") 2 5
                    "scores" "2026-01-01T00:00:00Z" None
                    [two_rows; two_rows; two_rows]
                    (enough_fuel nat [two_rows; two_rows; two_rows]) m w
                    eq_refl E)).
Defined.

(** A batch without rows and with another schema comes first: the
    manifest has the schema of the first batch with rows. *)
Definition no_rows : RecordBatch nat := mkBatch [("pp", "double")] [].

Lemma manifest_schema_of_first_batch_witness :
  first_with_rows nat [no_rows; two_rows] = Some two_rows
  /\ (exists mw, small_run None [no_rows; two_rows] = Some mw
                 /\ schema_fields mw.1 = [("id", "int64")])
  /\ forall m w,
       small_run None [no_rows; two_rows] = Some (m, w) ->
       schema_fields m = batch_schema nat two_rows.
Proof.
  split; [reflexivity|]. split.
  - vm_compute. eexists. split; reflexivity.
  - intros m w E.
    exact (proj1 (manifest_schema_of_first_batch nat (fun _ => 0)
                    (fun _ => "sha256:") 2 5 "scores" "2026-01-01T00:00:00Z"
                    None [no_rows; two_rows]
                    (enough_fuel nat [no_rows; two_rows]) m w two_rows
                    eq_refl eq_refl
                    ltac:(repeat constructor; done) (or_introl eq_refl) E)).
Defined.

End Parquet.

(* ===================================================================== *)
(** * Warehouse materializer ([pipelines/duckdb_pipeline.py])             *)
(* ===================================================================== *)

Module Warehouse.

Local Open Scope Z_scope.

(** ** The analytical engine, as far as the driver uses it *)

(** A cell of a table. *)
Inductive value :=
| Null
| Int (z : Z)
| Real (q : Q)
| Text (s : string)
| IntList (l : list Z).

Record table := mkTable {
  columns : list string;
  rows : list (list value)
}.

(** An index: the table it is on and its key columns. *)
Record index := mkIndex {
  on_table : string;
  key_columns : list string
}.

(** The database file: its tables and its indexes, by name. *)
Record database := mkDb {
  tables : gmap string table;
  indexes : gmap string index
}.

Definition column_index (c : string) (t : table) : option nat :=
  fst <$> list_find (fun c' => c' = c) (columns t).

(** The cells of [row] under the columns [cols] of [t]. *)
Definition project (cols : list string) (t : table) (row : list value)
  : option (list value) :=
  mapM (fun c => i ← column_index c t; row !! i) cols.

(** The SQL predicate [v = k] for an integer literal [k]: unknown on NULL
    (the row is filtered out), refused by the binder on a non-integer. *)
Definition equals_literal (v : value) (k : Z) : option bool :=
  match v with
  | Null => Some false
  | Int z => Some (z =? k)
  | _ => None
  end.

(** The rows for which [column = k]. *)
Fixpoint where_equals (i : nat) (k : Z) (rs : list (list value))
  : option (list (list value)) :=
  match rs with
  | [] => Some []
  | r :: rs' =>
      v ← r !! i;
      b ← equals_literal v k;
      kept ← where_equals i k rs';
      Some (if b : bool then r :: kept else kept)
  end.

(** [SELECT cols FROM t WHERE c = k]; [None] when the engine rejects it. *)
Definition select_where (cols : list string) (t : table) (c : string) (k : Z)
  : option table :=
  _ ← mapM (fun c' => column_index c' t) cols;
  i ← column_index c t;
  kept ← where_equals i k (rows t);
  projected ← mapM (project cols t) kept;
  Some (mkTable cols projected).

(** [DROP TABLE IF EXISTS name]; the indexes on the table go with it. *)
Definition drop_table_if_exists (name : string) (db : database) : database :=
  mkDb (delete name (tables db))
       (filter (fun ni => on_table ni.2 ≠ name) (indexes db)).

(** [CREATE TABLE name AS <query>], given what the query evaluates to. *)
Definition create_table_as (name : string) (q : option table) (db : database)
  : option database :=
  t ← q;
  match tables db !! name with
  | Some _ => None
  | None => Some (mkDb (<[name := t]> (tables db)) (indexes db))
  end.

Definition drop_index_if_exists (name : string) (db : database) : database :=
  mkDb (tables db) (delete name (indexes db)).

(** [CREATE INDEX name ON tbl(cols)]. *)
Definition create_index (name tbl : string) (cols : list string) (db : database)
  : option database :=
  t ← tables db !! tbl;
  _ ← mapM (fun c => column_index c t) cols;
  match indexes db !! name with
  | Some _ => None
  | None => Some (mkDb (tables db) (<[name := mkIndex tbl cols]> (indexes db)))
  end.

(** [SELECT COUNT( * ) FROM name]. *)
Definition select_count (name : string) (db : database) : option Z :=
  t ← tables db !! name; Some (Z.of_nat (length (rows t))).

(** ** The driver *)

Section Pipeline.

(** What the engine answers to the three mart queries over their source
    table ([None]: it rejects the query).  Window functions, [STDDEV] and
    [PERCENTILE_CONT] are the engine's business. *)
Variable best_scores_query : table -> option table.
Variable user_topk_query : table -> option table.
Variable beatmap_user_sets_query : table -> option table.

(** [read_parquet(glob)] and [glob.glob(pattern) != []]. *)
Variable read_parquet : string -> option table.
Variable glob_matches : string -> bool.

Variable db_path : string.

(** [_resolve_parquet_path]. *)
Definition _resolve_parquet_path (parquet_dir table_name : string) : string :=
  let subdir_pattern := parquet_dir +:+ "/" +:+ table_name +:+ "/*.parquet" in
  let root_pattern := parquet_dir +:+ "/*.parquet" in
  if glob_matches subdir_pattern then subdir_pattern else root_pattern.

(** [load_parquet_to_raw]. *)
Definition load_parquet_to_raw (table_name parquet_path : string) (db : database)
  : option database :=
  let db := drop_table_if_exists ("raw_" +:+ table_name) db in
  create_table_as ("raw_" +:+ table_name) (read_parquet parquet_path) db.

(** The select list of the staging query. *)
Definition stg_select_list : list string :=
  ["id"; "user_id"; "beatmap_id"; "score"; "pp"; "playmode"; "data";
   "mods_key"; "speed_mod"].

(** [create_stg_scores]. *)
Definition create_stg_scores (db : database) : option database :=
  let db := drop_table_if_exists "stg_scores" db in
  create_table_as "stg_scores"
    (raw ← tables db !! "raw_scores";
     select_where stg_select_list raw "playmode" 0)
    db.

(** [create_mart_best_scores]. *)
Definition create_mart_best_scores (db : database) : option database :=
  let db := drop_table_if_exists "mart_best_scores" db in
  create_table_as "mart_best_scores"
    (tables db !! "stg_scores" ≫= best_scores_query) db.

(** [create_mart_user_topk]. *)
Definition create_mart_user_topk (db : database) : option database :=
  let db := drop_table_if_exists "mart_user_topk" db in
  create_table_as "mart_user_topk"
    (tables db !! "mart_best_scores" ≫= user_topk_query) db.

(** [create_mart_beatmap_user_sets]. *)
Definition create_mart_beatmap_user_sets (db : database) : option database :=
  let db := drop_table_if_exists "mart_beatmap_user_sets" db in
  create_table_as "mart_beatmap_user_sets"
    (tables db !! "mart_best_scores" ≫= beatmap_user_sets_query) db.

(** [create_indexes]. *)
Definition create_indexes (db : database) : option database :=
  let db := drop_index_if_exists "idx_mart_best_scores_beatmap_lookup" db in
  let db := drop_index_if_exists "idx_mart_best_scores_user_lookup" db in
  db ← create_index "idx_mart_best_scores_beatmap_lookup" "mart_best_scores"
         ["beatmap_id"; "pp"; "mods_key"; "user_id"] db;
  create_index "idx_mart_best_scores_user_lookup" "mart_best_scores"
    ["user_id"; "beatmap_id"; "pp"] db.

(** The dictionary [run_full_pipeline] returns; [table_counts] is its
    ["tables"] entry, each value being the ["row_count"]. *)
Record manifest := mkManifest {
  database_path : string;
  table_counts : gmap string Z
}.

(** The tables the manifest loop goes through, in its order. *)
Definition manifest_tables : list string :=
  ["raw_scores"; "stg_scores"; "mart_best_scores"; "mart_user_topk";
   "mart_beatmap_user_sets"].

(** One iteration: the count, or [0] when the query raises. *)
Definition record_count (db : database) (counts : gmap string Z) (name : string)
  : gmap string Z :=
  <[name := default 0 (select_count name db)]> counts.

(** [run_full_pipeline]. *)
Definition run_full_pipeline (parquet_dir : string) (db : database)
  : option (manifest * database) :=
  let scores_path := _resolve_parquet_path parquet_dir "scores" in
  db ← load_parquet_to_raw "scores" scores_path db;
  db ← create_stg_scores db;
  db ← create_mart_best_scores db;
  db ← create_mart_user_topk db;
  db ← create_mart_beatmap_user_sets db;
  db ← create_indexes db;
  Some (mkManifest db_path (foldl (record_count db) ∅ manifest_tables), db).

End Pipeline.

(** The names of the two lookup structures. *)
Definition lookup_structures : list string :=
  ["idx_mart_best_scores_beatmap_lookup"; "idx_mart_best_scores_user_lookup"].

(** ** The staging step *)

(** The cell of [row] under column [c] of [t]. *)
Definition cell (t : table) (row : list value) (c : string) : option value :=
  column_index c t ≫= fun i => row !! i.

(** The record's playmode equals zero. *)
Definition playmode_is_zero (t : table) (row : list value) : bool :=
  match cell t row "playmode" with
  | Some (Int 0) => true
  | _ => false
  end.

(** The columns the specification lists for [stg_scores]. *)
Definition spec_stg_columns : list string :=
  ["id"; "user_id"; "beatmap_id"; "score"; "pp"; "data"; "mods_key";
   "speed_mod"].

(** The cell at position [i] is the integer [k]. *)
Definition cell_is (i : nat) (k : Z) (r : list value) : bool :=
  match r !! i with
  | Some (Int z) => z =? k
  | _ => false
  end.

Lemma where_equals_filter (i : nat) (k : Z) (rs kept : list (list value)) :
  where_equals i k rs = Some kept ->
  kept = filter (fun r => cell_is i k r = true) rs.
Proof.
  revert kept. induction rs as [|r rs IH]; intros kept; simpl.
  - by intros [= <-].
  - destruct (r !! i) as [v|] eqn:Ev; [|done]. simpl.
    destruct (equals_literal v k) as [b|] eqn:Eb; [|done]. simpl.
    destruct (where_equals i k rs) as [kept'|]; [|done]. simpl.
    intros [= <-]. rewrite (IH kept' eq_refl).
    rewrite filter_cons.
    assert (cell_is i k r = b) as ->.
    { unfold cell_is. rewrite Ev.
      destruct v; simpl in Eb; try done; by injection Eb as <-. }
    destruct b; [rewrite decide_True|rewrite decide_False]; done.
Qed.

Section StagingFacts.

Lemma playmode_filter (raw : table) (i : nat) :
  column_index "playmode" raw = Some i ->
  filter (fun r => cell_is i 0 r = true) (rows raw)
  = filter (fun r => playmode_is_zero raw r = true) (rows raw).
Proof.
  intros Hi. apply list_filter_iff. intros r.
  unfold playmode_is_zero, cell, cell_is. rewrite Hi. simpl.
  destruct (r !! i) as [[|[| |]| | |]|]; done.
Qed.

Lemma tables_after_create (name : string) (q : option table) (db db' : database) :
  create_table_as name q (drop_table_if_exists name db) = Some db' ->
  exists t, q = Some t /\ tables db' = <[name := t]> (tables db).
Proof.
  unfold create_table_as. destruct q as [t|]; [|done]. simpl.
  rewrite lookup_delete_eq. intros [= <-]. exists t. split; [done|]. simpl.
  apply insert_delete_eq.
Qed.

(** C4, as the code has it.  When the staging step succeeds, [stg_scores]
    has the nine columns [id, user_id, beatmap_id, score, pp, playmode,
    data, mods_key, speed_mod] and its rows are, in order, the rows of
    [raw_scores] whose playmode equals zero, each cut down to those
    columns; every other table is as it was. *)
Theorem stg_scores_projection (db db' : database) :
  create_stg_scores db = Some db' ->
  exists raw stg,
    tables db !! "raw_scores" = Some raw
    /\ tables db' = <["stg_scores" := stg]> (tables db)
    /\ columns stg = ["id"; "user_id"; "beatmap_id"; "score"; "pp";
                      "playmode"; "data"; "mods_key"; "speed_mod"]
    /\ mapM (project (columns stg) raw)
            (filter (fun r => playmode_is_zero raw r = true) (rows raw))
       = Some (rows stg).
Proof.
  unfold create_stg_scores. intros H.
  apply tables_after_create in H as (stg & Hq & Htab).
  simpl in Hq. rewrite lookup_delete_ne in Hq by done.
  destruct (tables db !! "raw_scores") as [raw|] eqn:Eraw; [|done]. simpl in Hq.
  exists raw, stg. split; [done|]. split; [done|].
  unfold select_where in Hq.
  destruct (mapM _ stg_select_list) as [idx|]; [|done]. simpl in Hq.
  destruct (column_index "playmode" raw) as [i|] eqn:Ei; [|done]. simpl in Hq.
  destruct (where_equals i 0 (rows raw)) as [kept|] eqn:Ek; [|done]. simpl in Hq.
  destruct (mapM (project stg_select_list raw) kept) as [pr|] eqn:Ep; [|done].
  simpl in Hq. injection Hq as <-. simpl. split; [done|].
  apply where_equals_filter in Ek. rewrite (playmode_filter raw i Ei) in Ek.
  by rewrite <- Ek.
Qed.

End StagingFacts.

(** A [raw_scores] with the nine columns and one more, and two records,
    one of each playmode. *)
Definition sample_raw : table :=
  mkTable ["id"; "user_id"; "beatmap_id"; "score"; "pp"; "playmode"; "data";
           "mods_key"; "speed_mod"; "accuracy"]
          [[Int 1; Int 101; Int 201; Int 900; Int 500; Int 0; Null;
            Text "DT"; Text "DT"; Int 99];
           [Int 2; Int 102; Int 201; Int 800; Int 400; Int 1; Null;
            Text ""; Null; Int 98]].

Definition sample_db : database := mkDb {["raw_scores" := sample_raw]} ∅.

Lemma stg_scores_projection_witness :
  is_Some (create_stg_scores sample_db)
  /\ forall db', create_stg_scores sample_db = Some db' ->
       exists raw stg,
         tables sample_db !! "raw_scores" = Some raw
         /\ tables db' = <["stg_scores" := stg]> (tables sample_db)
         /\ columns stg = ["id"; "user_id"; "beatmap_id"; "score"; "pp";
                           "playmode"; "data"; "mods_key"; "speed_mod"]
         /\ mapM (project (columns stg) raw)
                 (filter (fun r => playmode_is_zero raw r = true) (rows raw))
            = Some (rows stg).
Proof.
  split.
  - vm_compute. eauto.
  - intros db' H. exact (stg_scores_projection sample_db db' H).
Defined.

(** C4 as stated fails: [stg_scores] keeps a ninth column, [playmode]. *)
Lemma stg_scores_keeps_playmode :
  exists db' stg,
    create_stg_scores sample_db = Some db'
    /\ tables db' !! "stg_scores" = Some stg
    /\ In "playmode" (columns stg)
    /\ ~ In "playmode" spec_stg_columns
    /\ columns stg <> spec_stg_columns
    /\ rows stg = [[Int 1; Int 101; Int 201; Int 900; Int 500; Int 0; Null;
                    Text "DT"; Text "DT"]].
Proof.
  eexists _, _. split; [vm_compute; reflexivity|].
  split; [vm_compute; reflexivity|]. simpl. split_and!.
  - tauto.
  - intros H. repeat destruct H as [H|H]; done.
  - discriminate.
  - reflexivity.
Qed.

(** ** The manifest of a full run *)

Section ManifestFacts.

Variables best_scores_query user_topk_query beatmap_user_sets_query
  : table -> option table.
Variable read_parquet : string -> option table.
Variable glob_matches : string -> bool.
Variable db_path : string.

Local Abbreviation run_full_pipeline :=
  (run_full_pipeline best_scores_query user_topk_query beatmap_user_sets_query
                     read_parquet glob_matches db_path).

Lemma create_index_tables (name tbl : string) (cols : list string)
      (db db' : database) :
  create_index name tbl cols db = Some db' ->
  tables db' = tables db
  /\ indexes db' = <[name := mkIndex tbl cols]> (indexes db).
Proof.
  unfold create_index. destruct (tables db !! tbl) as [t|]; [|done]. simpl.
  destruct (mapM _ cols); [|done]. simpl.
  destruct (indexes db !! name); [done|]. by intros [= <-].
Qed.

Lemma create_indexes_tables (db db' : database) :
  create_indexes db = Some db' ->
  tables db' = tables db
  /\ Forall (fun name => is_Some (indexes db' !! name)) lookup_structures.
Proof.
  unfold create_indexes.
  destruct (create_index "idx_mart_best_scores_beatmap_lookup" _ _ _)
    as [db1|] eqn:E1; [|done]. simpl. intros E2.
  apply create_index_tables in E1 as [T1 I1].
  apply create_index_tables in E2 as [T2 I2].
  split; [by rewrite T2, T1|].
  repeat constructor; rewrite I2.
  - rewrite lookup_insert_ne by done. rewrite I1, lookup_insert_eq. eauto.
  - rewrite lookup_insert_eq. eauto.
Qed.

(** C5, as the code has it.  The manifest [run_full_pipeline] returns has
    an entry for exactly the five tables [raw_scores], [stg_scores],
    [mart_best_scores], [mart_user_topk] and [mart_beatmap_user_sets], each
    with the number of rows of that table in the database the run leaves;
    the two lookup structures exist in that database and have no entry. *)
Theorem manifest_records_five_tables (parquet_dir : string)
        (db db' : database) (m : manifest) :
  run_full_pipeline parquet_dir db = Some (m, db') ->
  dom (table_counts m) = list_to_set manifest_tables
  /\ Forall (fun name =>
       exists t, tables db' !! name = Some t
                 /\ table_counts m !! name = Some (Z.of_nat (length (rows t))))
     manifest_tables
  /\ Forall (fun name => is_Some (indexes db' !! name)
                         /\ table_counts m !! name = None)
     lookup_structures.
Proof.
  unfold run_full_pipeline, Warehouse.run_full_pipeline.
  unfold load_parquet_to_raw, create_stg_scores, create_mart_best_scores,
    create_mart_user_topk, create_mart_beatmap_user_sets.
  change ("raw_" +:+ "scores") with "raw_scores".
  destruct (create_table_as "raw_scores" _ _) as [db1|] eqn:E1; [|done]. simpl.
  destruct (create_table_as "stg_scores" _ _) as [db2|] eqn:E2; [|done]. simpl.
  destruct (create_table_as "mart_best_scores" _ _) as [db3|] eqn:E3; [|done].
  simpl.
  destruct (create_table_as "mart_user_topk" _ _) as [db4|] eqn:E4; [|done].
  simpl.
  destruct (create_table_as "mart_beatmap_user_sets" _ _) as [db5|] eqn:E5;
    [|done]. simpl.
  destruct (create_indexes db5) as [db6|] eqn:E6; [|done]. simpl.
  intros [= <- <-].
  apply tables_after_create in E1 as (t1 & _ & T1).
  apply tables_after_create in E2 as (t2 & _ & T2).
  apply tables_after_create in E3 as (t3 & _ & T3).
  apply tables_after_create in E4 as (t4 & _ & T4).
  apply tables_after_create in E5 as (t5 & _ & T5).
  apply create_indexes_tables in E6 as [T6 I6].
  rewrite T5, T4, T3, T2, T1 in T6. clear T1 T2 T3 T4 T5.
  unfold record_count, select_count, manifest_tables. simpl. rewrite T6.
  split; [|split].
  - rewrite !dom_insert_L. set_solver.
  - repeat constructor.
    + exists t1. by simplify_map_eq.
    + exists t2. by simplify_map_eq.
    + exists t3. by simplify_map_eq.
    + exists t4. by simplify_map_eq.
    + exists t5. by simplify_map_eq.
  - inversion_clear I6 as [|? ? Hi1 I6']. inversion_clear I6' as [|? ? Hi2 _].
    repeat constructor; auto; by simplify_map_eq.
Qed.

End ManifestFacts.

(** ** A run over shards without rows *)

(** On a table without rows the three mart queries give tables without
    rows, with the columns of their select lists. *)
Definition mart_columns : list string :=
  ["id"; "user_id"; "beatmap_id"; "score"; "pp"; "data"; "mods_key";
   "speed_mod"].
Definition user_sets_columns : list string :=
  ["beatmap_id"; "mods_key"; "user_ids"; "user_count"; "avg_pp"; "std_pp";
   "min_pp"; "median_pp"; "p75_pp"; "p90_pp"].
Definition empty_shards : table := mkTable (stg_select_list) [].

Abbreviation run_on_empty_shards :=
  (run_full_pipeline (fun _ => Some (mkTable mart_columns []))
                     (fun _ => Some (mkTable mart_columns []))
                     (fun _ => Some (mkTable user_sets_columns []))
                     (fun _ => Some empty_shards) (fun _ => true)
                     "warehouse/osu.duckdb" "parquet" (mkDb ∅ ∅)).

Lemma manifest_records_five_tables_witness :
  is_Some run_on_empty_shards
  /\ forall m db', run_on_empty_shards = Some (m, db') ->
       dom (table_counts m) = list_to_set manifest_tables.
Proof.
  split.
  - vm_compute. eauto.
  - intros m db' H.
    exact (proj1 (manifest_records_five_tables _ _ _ _ _ _ _ _ _ _ H)).
Defined.

(** C5 as stated fails: the manifest has five entries, none of them for a
    lookup structure. *)
Lemma manifest_has_no_entry_for_lookup_structures :
  exists m db',
    run_on_empty_shards = Some (m, db')
    /\ size (table_counts m) = 5%nat
    /\ table_counts m !! "idx_mart_best_scores_beatmap_lookup" = None
    /\ table_counts m !! "idx_mart_best_scores_user_lookup" = None
    /\ is_Some (indexes db' !! "idx_mart_best_scores_beatmap_lookup")
    /\ is_Some (indexes db' !! "idx_mart_best_scores_user_lookup").
Proof.
  eexists _, _. split; [vm_compute; reflexivity|].
  split_and!; try (vm_compute; reflexivity); vm_compute; eauto.
Qed.

(** ** A run rebuilds its tables *)

Section Rebuild.

Variables best_scores_query user_topk_query beatmap_user_sets_query
  : table -> option table.
Variable read_parquet : string -> option table.
Variable glob_matches : string -> bool.
Variable db_path : string.

Local Abbreviation run_full_pipeline :=
  (run_full_pipeline best_scores_query user_topk_query beatmap_user_sets_query
                     read_parquet glob_matches db_path).

(** Dropping a table and creating it anew, in one step. *)
Lemma create_after_drop (name : string) (q : option table) (db : database) :
  create_table_as name q (drop_table_if_exists name db)
  = t ← q;
    Some (mkDb (<[name := t]> (tables db))
               (filter (fun ni => on_table ni.2 ≠ name) (indexes db))).
Proof.
  unfold create_table_as. destruct q as [t|]; [|done]. simpl.
  rewrite lookup_delete_eq. by rewrite insert_delete_eq.
Qed.

(** The indexes that survive the five drops. *)
Definition kept_indexes (ixs : gmap string index) : gmap string index :=
  filter (fun ni => on_table ni.2 ∉ manifest_tables) ixs.

(** What a run computes from the shards alone: the five tables, if the
    engine accepts every statement. *)
Definition built (parquet_dir : string)
  : option (table * table * table * table * table) :=
  raw ← read_parquet (_resolve_parquet_path glob_matches parquet_dir "scores");
  stg ← select_where stg_select_list raw "playmode" 0;
  best ← best_scores_query stg;
  topk ← user_topk_query best;
  sets ← beatmap_user_sets_query best;
  _ ← mapM (fun c => column_index c best)
        ["beatmap_id"; "pp"; "mods_key"; "user_id"];
  _ ← mapM (fun c => column_index c best) ["user_id"; "beatmap_id"; "pp"];
  Some (raw, stg, best, topk, sets).

(** The database a run leaves, given what it built and what was there. *)
Definition rebuilt (ts : table * table * table * table * table)
           (db : database) : database :=
  let '(raw, stg, best, topk, sets) := ts in
  mkDb (<["mart_beatmap_user_sets" := sets]>
          (<["mart_user_topk" := topk]>
             (<["mart_best_scores" := best]>
                (<["stg_scores" := stg]>
                   (<["raw_scores" := raw]> (tables db))))))
       (<["idx_mart_best_scores_user_lookup" :=
            mkIndex "mart_best_scores" ["user_id"; "beatmap_id"; "pp"]]>
          (<["idx_mart_best_scores_beatmap_lookup" :=
               mkIndex "mart_best_scores"
                       ["beatmap_id"; "pp"; "mods_key"; "user_id"]]>
             (kept_indexes (indexes db)))).

Lemma kept_indexes_chain (ixs : gmap string index) :
  filter (fun ni : string * index => on_table ni.2 ≠ "mart_beatmap_user_sets")
    (filter (fun ni : string * index => on_table ni.2 ≠ "mart_user_topk")
       (filter (fun ni : string * index => on_table ni.2 ≠ "mart_best_scores")
          (filter (fun ni : string * index => on_table ni.2 ≠ "stg_scores")
             (filter (fun ni : string * index => on_table ni.2 ≠ "raw_scores")
                ixs))))
  = kept_indexes ixs.
Proof.
  unfold kept_indexes. rewrite !map_filter_filter.
  apply map_filter_ext. intros name ix _. simpl.
  unfold manifest_tables. rewrite !elem_of_cons, elem_of_nil. tauto.
Qed.

Lemma run_full_pipeline_built (parquet_dir : string) (db : database) :
  run_full_pipeline parquet_dir db
  = ts ← built parquet_dir;
    Some (mkManifest db_path
            (foldl (record_count (rebuilt ts db)) ∅ manifest_tables),
          rebuilt ts db).
Proof.
  unfold run_full_pipeline, Warehouse.run_full_pipeline, built.
  unfold load_parquet_to_raw, create_stg_scores, create_mart_best_scores,
    create_mart_user_topk, create_mart_beatmap_user_sets, create_indexes.
  change ("raw_" +:+ "scores") with "raw_scores".
  rewrite create_after_drop.
  destruct (read_parquet _) as [raw|]; [|done]. cbn [mbind option_bind].
  rewrite create_after_drop. cbn [tables indexes drop_table_if_exists].
  rewrite lookup_delete_ne, lookup_insert_eq by done. cbn [mbind option_bind].
  destruct (select_where _ raw _ _) as [stg|]; [|done]. cbn [mbind option_bind].
  rewrite create_after_drop. cbn [tables indexes drop_table_if_exists].
  rewrite lookup_delete_ne, lookup_insert_eq by done. cbn [mbind option_bind].
  destruct (best_scores_query stg) as [best|]; [|done]. cbn [mbind option_bind].
  rewrite create_after_drop. cbn [tables indexes drop_table_if_exists].
  rewrite lookup_delete_ne, lookup_insert_eq by done. cbn [mbind option_bind].
  destruct (user_topk_query best) as [topk|]; [|done]. cbn [mbind option_bind].
  rewrite create_after_drop. cbn [tables indexes drop_table_if_exists].
  rewrite lookup_delete_ne, lookup_insert_ne, lookup_insert_eq by done.
  cbn [mbind option_bind].
  destruct (beatmap_user_sets_query best) as [sets|]; [|done].
  cbn [mbind option_bind].
  rewrite kept_indexes_chain.
  unfold create_index. cbn [tables indexes drop_index_if_exists].
  rewrite lookup_insert_ne, lookup_insert_ne, lookup_insert_eq by done.
  cbn [mbind option_bind].
  destruct (mapM _ ["beatmap_id"; "pp"; "mods_key"; "user_id"]); [|done].
  cbn [mbind option_bind].
  rewrite lookup_delete_ne, lookup_delete_eq by done.
  cbn [mbind option_bind tables indexes].
  rewrite !lookup_insert_ne by done. rewrite lookup_insert_eq, lookup_delete_eq.
  cbn [mbind option_bind].
  destruct (mapM _ ["user_id"; "beatmap_id"; "pp"]); [|done].
  cbn [mbind option_bind].
  assert (<["idx_mart_best_scores_user_lookup" :=
              mkIndex "mart_best_scores" ["user_id"; "beatmap_id"; "pp"]]>
            (<["idx_mart_best_scores_beatmap_lookup" :=
                 mkIndex "mart_best_scores"
                         ["beatmap_id"; "pp"; "mods_key"; "user_id"]]>
               (delete "idx_mart_best_scores_user_lookup"
                  (delete "idx_mart_best_scores_beatmap_lookup"
                     (kept_indexes (indexes db)))))
          = indexes (rebuilt (raw, stg, best, topk, sets) db)) as ->; [|done].
  cbn [rebuilt indexes].
  rewrite (insert_insert_ne _ "idx_mart_best_scores_user_lookup") by done.
  rewrite insert_delete_eq.
  rewrite (insert_insert_ne _ "idx_mart_best_scores_beatmap_lookup") by done.
  by rewrite insert_delete_eq.
Qed.

Lemma record_counts_rebuilt (ts : table * table * table * table * table)
      (db db' : database) :
  foldl (record_count (rebuilt ts db)) ∅ manifest_tables
  = foldl (record_count (rebuilt ts db')) ∅ manifest_tables.
Proof.
  destruct ts as [[[[raw stg] best] topk] sets].
  unfold manifest_tables, record_count, select_count. cbn [foldl rebuilt tables].
  by simplify_map_eq.
Qed.

(** What a run leaves does not depend on what the five tables and the two
    indexes held before: on any database it succeeds exactly when it does
    on an empty one, with the same manifest, and it leaves what the run on
    the empty database leaves, laid over the old content.  Of the old
    content the tables with other names stay, and so do the indexes with
    other names on other tables. *)
Theorem run_full_pipeline_overwrites (parquet_dir : string) (db : database) :
  run_full_pipeline parquet_dir db
  = (fun '(m, d) =>
       (m, mkDb (tables d ∪ tables db)
                (indexes d ∪ kept_indexes (indexes db))))
    <$> run_full_pipeline parquet_dir (mkDb ∅ ∅).
Proof.
  rewrite !run_full_pipeline_built.
  destruct (built parquet_dir) as [ts|]; [|done].
  cbn [mbind option_bind fmap option_fmap option_map].
  rewrite (record_counts_rebuilt ts db (mkDb ∅ ∅)). do 2 f_equal.
  destruct ts as [[[[raw stg] best] topk] sets]. unfold rebuilt. simpl.
  f_equal.
  - rewrite <- !insert_union_l. by rewrite (left_id_L ∅ (∪)).
  - unfold kept_indexes at 2. rewrite map_filter_empty.
    rewrite <- !insert_union_l. by rewrite (left_id_L ∅ (∪)).
Qed.

(** What a run built is gone once the next run has built its own. *)
Lemma rebuilt_rebuilt (ts ts' : table * table * table * table * table)
      (db : database) :
  rebuilt ts' (rebuilt ts db) = rebuilt ts' db.
Proof.
  destruct ts as [[[[raw stg] best] topk] sets].
  destruct ts' as [[[[raw' stg'] best'] topk'] sets'].
  unfold rebuilt. cbn [tables indexes]. f_equal.
  - apply map_eq. intros name.
    destruct (decide (name = "mart_beatmap_user_sets")) as [->|];
      [by simplify_map_eq|].
    destruct (decide (name = "mart_user_topk")) as [->|];
      [by simplify_map_eq|].
    destruct (decide (name = "mart_best_scores")) as [->|];
      [by simplify_map_eq|].
    destruct (decide (name = "stg_scores")) as [->|]; [by simplify_map_eq|].
    destruct (decide (name = "raw_scores")) as [->|]; by simplify_map_eq.
  - unfold kept_indexes.
    rewrite (map_filter_insert_False _ _ "idx_mart_best_scores_user_lookup")
      by (simpl; unfold manifest_tables; set_solver).
    rewrite delete_insert_ne by done.
    rewrite (map_filter_insert_False _ _
               "idx_mart_best_scores_beatmap_lookup")
      by (simpl; unfold manifest_tables; set_solver).
    rewrite !map_filter_delete, map_filter_filter_l by done.
    rewrite insert_delete_eq.
    rewrite (insert_insert_ne _ "idx_mart_best_scores_user_lookup") by done.
    rewrite insert_delete_eq.
    by rewrite (insert_insert_ne _ "idx_mart_best_scores_beatmap_lookup").
Qed.

End Rebuild.

(** ** Running again *)

Section Again.

(** What the engine, the directory and the caller give to the first run,
    and what they give to the second: the answers to the same statements
    need not be the same (the mart queries break ties as the engine
    likes), nor the shards. *)
Variables best_scores_query user_topk_query beatmap_user_sets_query
  : table -> option table.
Variable read_parquet : string -> option table.
Variable glob_matches : string -> bool.
Variable db_path : string.
Variables best_scores_query' user_topk_query' beatmap_user_sets_query'
  : table -> option table.
Variable read_parquet' : string -> option table.
Variable glob_matches' : string -> bool.
Variable db_path' : string.

(** A run leaves nothing behind that the next run can see.  Whatever the
    engine answers the second time, the run on the database a successful
    run left is the run on the database as it was before that run: it
    succeeds on the one exactly when it does on the other, with the same
    manifest and the same database left. *)
Theorem run_full_pipeline_again (parquet_dir parquet_dir' : string)
        (db db' : database) (m : manifest) :
  run_full_pipeline best_scores_query user_topk_query beatmap_user_sets_query
    read_parquet glob_matches db_path parquet_dir db = Some (m, db') ->
  run_full_pipeline best_scores_query' user_topk_query'
    beatmap_user_sets_query' read_parquet' glob_matches' db_path'
    parquet_dir' db'
  = run_full_pipeline best_scores_query' user_topk_query'
      beatmap_user_sets_query' read_parquet' glob_matches' db_path'
      parquet_dir' db.
Proof.
  rewrite !run_full_pipeline_built.
  destruct (built best_scores_query user_topk_query beatmap_user_sets_query
              read_parquet glob_matches parquet_dir) as [ts|]; [|done].
  cbn [mbind option_bind]. intros [= _ <-].
  destruct (built best_scores_query' user_topk_query'
              beatmap_user_sets_query' read_parquet' glob_matches'
              parquet_dir') as [ts'|]; [|done].
  cbn [mbind option_bind]. by rewrite rebuilt_rebuilt.
Qed.

End Again.

(** A database that already holds a table and an index of the pipeline,
    and a table of its own. *)
Definition used_db : database :=
  mkDb {["stg_scores" := sample_raw; "notes" := sample_raw]}
       {["idx_old" := mkIndex "stg_scores" ["id"]]}.

(** A first run over shards without rows, and a second one over shards
    that hold the two records of [sample_raw]. *)
Lemma run_full_pipeline_again_witness :
  let marts := fun _ : table => Some (mkTable mart_columns []) in
  let sets := fun _ : table => Some (mkTable user_sets_columns []) in
  let run :=
    run_full_pipeline marts marts sets (fun _ => Some empty_shards)
                      (fun _ => true) "warehouse/osu.duckdb" "parquet" in
  let run' :=
    run_full_pipeline marts marts sets (fun _ => Some sample_raw)
                      (fun _ => true) "warehouse/osu.duckdb" "parquet" in
  exists m db',
    run used_db = Some (m, db')
    /\ run' db' = run' used_db
    /\ (fun r => table_counts r.1 !! "stg_scores") <$> run' db'
       = Some (Some 1).
Proof.
  intros marts sets run run'.
  set (mdb := default (mkManifest "" ∅, used_db) (run used_db)).
  assert (run used_db = Some (mdb.1, mdb.2)) as E.
  { vm_compute. reflexivity. }
  exists mdb.1, mdb.2. split; [exact E|]. split.
  - exact (run_full_pipeline_again marts marts sets (fun _ => Some empty_shards)
             (fun _ => true) "warehouse/osu.duckdb"
             marts marts sets (fun _ => Some sample_raw)
             (fun _ => true) "warehouse/osu.duckdb"
             "parquet" "parquet" used_db mdb.2 mdb.1 E).
  - vm_compute. reflexivity.
Defined.

End Warehouse.

(* ===================================================================== *)
(** * Python strings                                                      *)
(* ===================================================================== *)

Module Py.

(** A Python [str], as the list of its characters. *)
Abbreviation str := (list ascii).

(** A literal. *)
Definition txt (s : string) : str := String.list_ascii_of_string s.

(** The double quote, and a literal in which [~] stands for it. *)
Definition dquote : ascii := ascii_of_nat 34.
Definition squote : ascii := ascii_of_nat 39.
Definition backslash : ascii := ascii_of_nat 92.
Definition newline : ascii := ascii_of_nat 10.
Definition txtq (s : string) : str :=
  map (fun c => if Ascii.eqb c "~" then dquote else c) (String.list_ascii_of_string s).

Arguments txt s : simpl never.
Arguments txtq s : simpl never.

Definition code (c : ascii) : nat := nat_of_ascii c.

(** [c.isspace()] below 128: TAB, LF, VT, FF, CR, FS, GS, RS, US, space. *)
Definition isspace (c : ascii) : bool :=
  let n := code c in
  ((9 <=? n) && (n <=? 13)) || ((28 <=? n) && (n <=? 32)).

Definition isdigit (c : ascii) : bool :=
  let n := code c in (48 <=? n) && (n <=? 57).

Definition isupper (c : ascii) : bool :=
  let n := code c in (65 <=? n) && (n <=? 90).

Definition islower (c : ascii) : bool :=
  let n := code c in (97 <=? n) && (n <=? 122).

Definition upper_char (c : ascii) : ascii :=
  if islower c then ascii_of_nat (code c - 32) else c.

Definition lower_char (c : ascii) : ascii :=
  if isupper c then ascii_of_nat (code c + 32) else c.

(** [s.upper()]. *)
Definition upper (s : str) : str := map upper_char s.

(** [a == b] on strings. *)
Definition eqb (a b : str) : bool := bool_decide (a = b).

(** [s.lstrip(chars)], [s.rstrip(chars)], [s.strip(chars)] with the set of
    characters given as a predicate; [strip] is [s.strip()]. *)
Fixpoint lstrip_with (p : ascii -> bool) (s : str) : str :=
  match s with
  | c :: s' => if p c then lstrip_with p s' else s
  | [] => []
  end.
Definition rstrip_with (p : ascii -> bool) (s : str) : str :=
  rev (lstrip_with p (rev s)).
Definition strip_with (p : ascii -> bool) (s : str) : str :=
  rstrip_with p (lstrip_with p s).
Definition strip (s : str) : str := strip_with isspace s.

(** [s.startswith(c)] and [s.endswith(c)] for a one-character [c]. *)
Definition startswith (c : ascii) (s : str) : bool :=
  match s with
  | c' :: _ => Ascii.eqb c' c
  | [] => false
  end.
Definition endswith (c : ascii) (s : str) : bool := startswith c (rev s).

(** [s[1:-1]]. *)
Definition inner (s : str) : str := removelast (tail s).

(** [s.startswith(p)] for a string [p]. *)
Fixpoint has_prefix (p s : str) : bool :=
  match p, s with
  | [], _ => true
  | a :: p', b :: s' => Ascii.eqb a b && has_prefix p' s'
  | _ :: _, [] => false
  end.

(** [s.find(sub)]: the first index at which [sub] occurs, if any. *)
Fixpoint find (sub s : str) : option nat :=
  if has_prefix sub s then Some 0
  else match s with
       | [] => None
       | _ :: s' => S <$> find sub s'
       end.

(** [s.find(sub, start)]. *)
Definition find_from (sub s : str) (start : nat) : option nat :=
  (fun i => start + i) <$> find sub (drop start s).

(** [sub in s]. *)
Definition contains (sub s : str) : bool :=
  match find sub s with Some _ => true | None => false end.

(** [s.replace(old, new)] for a non-empty [old]: occurrences are taken from
    left to right and do not overlap.  [skip] counts the characters of the
    occurrence just replaced that are still to be passed over. *)
Fixpoint replace_from (old new : str) (skip : nat) (s : str) : str :=
  match s with
  | [] => []
  | c :: s' =>
      match skip with
      | S k => replace_from old new k s'
      | O => if has_prefix old s
             then new ++ replace_from old new (length old - 1) s'
             else c :: replace_from old new 0 s'
      end
  end.
Definition replace (old new s : str) : str := replace_from old new 0 s.

(** [s.split(sep)] for a one-character [sep]. *)
Fixpoint split_on (sep : ascii) (s : str) : list str :=
  match s with
  | [] => [[]]
  | c :: s' =>
      if Ascii.eqb c sep then [] :: split_on sep s'
      else match split_on sep s' with
           | piece :: pieces => (c :: piece) :: pieces
           | [] => [[c]]
           end
  end.

(** [sep.join(pieces)]. *)
Fixpoint join (sep : str) (pieces : list str) : str :=
  match pieces with
  | [] => []
  | [piece] => piece
  | piece :: pieces' => piece ++ sep ++ join sep pieces'
  end.

(** [a <= b] on strings: lexicographic on code points. *)
Fixpoint leb (a b : str) : bool :=
  match a, b with
  | [], _ => true
  | _ :: _, [] => false
  | x :: a', y :: b' =>
      (code x <? code y) || ((code x =? code y) && leb a' b')
  end.

(** ** [int(s)] and [float(s)] on text *)

(** The value of a run of digits in which single underscores may separate
    digits, read after the digits [acc] seen so far; [None] when the run is
    not well formed.  [prev] tells whether the previous character was a
    digit. *)
Fixpoint digits_value (acc : Z) (prev : bool) (s : str) : option Z :=
  match s with
  | [] => if prev then Some acc else None
  | c :: s' =>
      if isdigit c then
        digits_value (10 * acc + Z.of_nat (code c - 48)) true s'
      else if Ascii.eqb c "_" && prev then
        match s' with
        | d :: _ => if isdigit d then digits_value acc false s' else None
        | [] => None
        end
      else None
  end.

(** [int(s)] in base 10: [None] stands for [ValueError].  Surrounding
    white space is allowed, then a sign, then digits. *)
Definition int_of_str (s : str) : option Z :=
  match strip s with
  | "+"%char :: ds => digits_value 0 false ds
  | "-"%char :: ds => Z.opp <$> digits_value 0 false ds
  | ds => digits_value 0 false ds
  end.

(** A digit part: digits with single underscores between digits; what
    follows it, if the text starts with one. *)
Fixpoint digit_part (prev : bool) (s : str) : option str :=
  match s with
  | c :: s' =>
      if isdigit c then
        match digit_part true s' with
        | Some rest => Some rest
        | None => Some s'
        end
      else if Ascii.eqb c "_" && prev then
        match s' with
        | d :: _ => if isdigit d then digit_part false s' else None
        | [] => None
        end
      else None
  | [] => None
  end.

(** An optional exponent followed by the end of the text. *)
Definition exponent_and_end (s : str) : bool :=
  match s with
  | [] => true
  | e :: s' =>
      if Ascii.eqb e "e" || Ascii.eqb e "E" then
        let s'' := match s' with
                   | sg :: t => if Ascii.eqb sg "+" || Ascii.eqb sg "-"
                                then t else s'
                   | [] => s'
                   end in
        match digit_part false s'' with
        | Some [] => true
        | _ => false
        end
      else false
  end.

(** The text after the sign is a decimal number, [inf], [infinity] or
    [nan]. *)
Definition is_float_body (s : str) : bool :=
  let l := map lower_char s in
  if eqb l (txt "inf") || eqb l (txt "infinity") || eqb l (txt "nan") then true
  else
    match digit_part false s with
    | Some rest =>
        match rest with
        | "."%char :: frac =>
            match digit_part false frac with
            | Some rest' => exponent_and_end rest'
            | None => exponent_and_end frac
            end
        | _ => exponent_and_end rest
        end
    | None =>
        match s with
        | "."%char :: frac =>
            match digit_part false frac with
            | Some rest' => exponent_and_end rest'
            | None => false
            end
        | _ => false
        end
    end.

(** [float(s)] succeeds ([False] stands for [ValueError]). *)
Definition is_float (s : str) : bool :=
  match strip s with
  | sg :: body =>
      if Ascii.eqb sg "+" || Ascii.eqb sg "-" then is_float_body body
      else is_float_body (sg :: body)
  | [] => false
  end.

End Py.

(* ===================================================================== *)
(** * Value tokenizer ([SqlParser.parse_value], [parse_value_fast])       *)
(* ===================================================================== *)

Module Tokenizer.
Import Py.

(** What a field lexeme is turned into.  A float is kept as the text
    [float] was given; a string as its characters. *)
Inductive pyval :=
| PNone
| PInt (z : Z)
| PFloat (lexeme : str)
| PStr (s : str).

(** [SqlParser.parse_value] of [pipelines/sql_parser.py].  The two
    [try: ... except ValueError: pass] blocks are the two [match]es. *)
Definition parse_value (value_str : str) : pyval :=
  let value_str := strip value_str in
  if bool_decide (value_str = []) || eqb (upper value_str) (txt "NULL")
  then PNone
  else if (startswith squote value_str && endswith squote value_str)
          || (startswith dquote value_str && endswith dquote value_str)
  then
    match value_str with
    | quote_char :: _ =>
        let content := inner value_str in
        PStr (replace [quote_char; quote_char] [quote_char] content)
    | [] => PNone
    end
  else
    match int_of_str value_str with
    | Some z => PInt z
    | None => if is_float value_str then PFloat value_str else PStr value_str
    end.

(** ** What the specification says about quoted lexemes *)

(** Unescaping as section 4.A describes it: two delimiters in a row stand
    for one, and a backslash right before a delimiter stands for that
    delimiter. *)
Fixpoint spec_unescape_from (q : ascii) (skip : bool) (s : str) : str :=
  match s with
  | [] => []
  | a :: s' =>
      if skip then spec_unescape_from q false s'
      else match s' with
           | b :: _ =>
               if (Ascii.eqb a q || Ascii.eqb a backslash) && Ascii.eqb b q
               then q :: spec_unescape_from q true s'
               else a :: spec_unescape_from q false s'
           | [] => [a]
           end
  end.
Definition spec_unescape (q : ascii) (s : str) : str :=
  spec_unescape_from q false s.

(** ** The tokenizer on the lexemes of the test suite *)

Example parse_null : parse_value (txt "NULL") = PNone.
Proof. reflexivity. Qed.
Example parse_integer : parse_value (txt "-456") = PInt (-456).
Proof. reflexivity. Qed.
Example parse_float : parse_value (txt "98.5") = PFloat (txt "98.5").
Proof. reflexivity. Qed.
Example parse_escaped_quotes :
  parse_value (txt "'It''s a test with ''quotes'''")
  = PStr (txt "It's a test with 'quotes'").
Proof. reflexivity. Qed.
Example parse_bare_word : parse_value (txt "CURRENT_TIMESTAMP")
  = PStr (txt "CURRENT_TIMESTAMP").
Proof. reflexivity. Qed.

(** ** Quoted lexemes *)

Lemma lstrip_with_head (p : ascii -> bool) (c : ascii) (s : str) :
  p c = false -> lstrip_with p (c :: s) = c :: s.
Proof. intros H. simpl. by rewrite H. Qed.

Lemma strip_with_quoted (p : ascii -> bool) (q : ascii) (body : str) :
  p q = false -> strip_with p (q :: body ++ [q]) = q :: body ++ [q].
Proof.
  intros H. unfold strip_with, rstrip_with. rewrite lstrip_with_head by done.
  assert (rev (q :: body ++ [q]) = q :: rev body ++ [q]) as E.
  { simpl. by rewrite rev_app_distr. }
  rewrite E, lstrip_with_head by done. rewrite <- E. apply rev_involutive.
Qed.

Lemma has_prefix_find_none (old s : str) :
  find old s = None -> has_prefix old s = false.
Proof. destruct s; simpl; destruct (has_prefix old _); done. Qed.

(** Without an occurrence of [old] nothing is replaced. *)
Lemma replace_no_occurrence (old new s : str) :
  find old s = None -> replace old new s = s.
Proof.
  unfold replace. induction s as [|c s IH]; [done|]. intros H. simpl.
  rewrite (has_prefix_find_none old (c :: s) H). f_equal. apply IH.
  simpl in H. destruct (has_prefix old (c :: s)); [done|].
  by destruct (find old s).
Qed.

Lemma inner_quoted (q : ascii) (body : str) :
  inner (q :: body ++ [q]) = body.
Proof. unfold inner. simpl. apply removelast_last. Qed.

Lemma endswith_quoted (q : ascii) (s : str) : endswith q (s ++ [q]) = true.
Proof.
  unfold endswith. rewrite rev_app_distr. simpl. apply Ascii.eqb_refl.
Qed.

Lemma upper_quoted_not_null (q : ascii) (body : str) :
  isspace q = false -> islower q = false -> q <> "N"%char ->
  eqb (upper (q :: body ++ [q])) (txt "NULL") = false.
Proof.
  intros _ Hl Hq. unfold eqb. apply bool_decide_eq_false. simpl.
  unfold upper_char at 1. rewrite Hl. intros [= H _]. done.
Qed.

(** A lexeme in quotes whose interior has no two delimiters in a row is
    returned as its interior, character for character: a backslash is an
    ordinary character to [parse_value], also right before a delimiter. *)
Lemma parse_value_quoted_verbatim (q : ascii) (body : str) :
  q = squote \/ q = dquote ->
  find [q; q] body = None ->
  parse_value (q :: body ++ [q]) = PStr body.
Proof.
  intros Hq Hfind. unfold parse_value, strip.
  rewrite strip_with_quoted by (by destruct Hq as [-> | ->]).
  rewrite bool_decide_eq_false_2 by done.
  rewrite upper_quoted_not_null by (by destruct Hq as [-> | ->]).
  rewrite inner_quoted, replace_no_occurrence by done.
  pose proof (endswith_quoted q (q :: body)) as He. simpl app in He.
  destruct Hq as [-> | ->]; rewrite He; reflexivity.
Qed.

(** C3 at the lexeme ['a\'b']: the specification has the backslash
    un-escape the delimiter that follows it; [parse_value] returns the
    interior with the backslash in it. *)
Theorem parse_value_keeps_backslash :
  parse_value (txt "'a\'b'") = PStr (txt "a\'b")
  /\ spec_unescape squote (txt "a\'b") = txt "a'b"
  /\ parse_value (txt "'a\'b'") <> PStr (spec_unescape squote (txt "a\'b")).
Proof. vm_compute. split_and!; [reflexivity|reflexivity|discriminate]. Qed.

(** ** Quoting and white space *)

(** A text with every delimiter [q] written twice: how a dump writes a
    string that contains its own quote character. *)
Fixpoint doubled (q : ascii) (s : str) : str :=
  match s with
  | [] => []
  | c :: s' => if Ascii.eqb c q then q :: q :: doubled q s'
               else c :: doubled q s'
  end.

Lemma replace_doubled (q : ascii) (s : str) :
  replace [q; q] [q] (doubled q s) = s.
Proof.
  unfold replace. induction s as [|c s IH]; [done|]. simpl.
  destruct (Ascii.eqb_spec c q) as [->|Hne].
  - simpl. rewrite !Ascii.eqb_refl. simpl. by rewrite IH.
  - simpl. destruct (Ascii.eqb_spec q c) as [->|_]; [done|]. simpl.
    by rewrite IH.
Qed.

(** Round trip of quoting: a string written between quotes with its
    delimiters doubled is read back as the string itself, whatever its
    characters. *)
Theorem parse_value_of_quoted (q : ascii) (s : str) :
  q = squote \/ q = dquote ->
  parse_value (q :: doubled q s ++ [q]) = PStr s.
Proof.
  intros Hq. unfold parse_value, strip.
  rewrite strip_with_quoted by (by destruct Hq as [-> | ->]).
  rewrite bool_decide_eq_false_2 by done.
  rewrite upper_quoted_not_null by (by destruct Hq as [-> | ->]).
  rewrite inner_quoted, replace_doubled.
  pose proof (endswith_quoted q (q :: doubled q s)) as He. simpl app in He.
  destruct Hq as [-> | ->]; rewrite He; reflexivity.
Qed.

Lemma parse_value_of_quoted_witness :
  doubled squote (txt "It's") = txt "It''s"
  /\ parse_value (squote :: doubled squote (txt "It's") ++ [squote])
     = PStr (txt "It's").
Proof.
  split; [reflexivity|].
  exact (parse_value_of_quoted squote (txt "It's") (or_introl eq_refl)).
Defined.

Lemma lstrip_with_app_all (p : ascii -> bool) (l s : str) :
  Forall (fun c => p c = true) l -> lstrip_with p (l ++ s) = lstrip_with p s.
Proof. induction 1 as [|c l Hc _ IH]; simpl; [done|]. by rewrite Hc. Qed.

Lemma lstrip_with_all (p : ascii -> bool) (l : str) :
  Forall (fun c => p c = true) l -> lstrip_with p l = [].
Proof.
  intros H. rewrite <- (app_nil_r l). by rewrite lstrip_with_app_all.
Qed.

Lemma strip_with_app_r (p : ascii -> bool) (s r : str) :
  Forall (fun c => p c = true) r -> strip_with p (s ++ r) = strip_with p s.
Proof.
  intros Hr. unfold strip_with.
  induction s as [|c s IH]; simpl.
  - by rewrite lstrip_with_all.
  - destruct (p c) eqn:Hc; [done|]. unfold rstrip_with.
    change (c :: s ++ r) with ((c :: s) ++ r).
    rewrite rev_app_distr, lstrip_with_app_all; [done|].
    by apply Forall_rev.
Qed.

Lemma strip_with_app_l (p : ascii -> bool) (l s : str) :
  Forall (fun c => p c = true) l -> strip_with p (l ++ s) = strip_with p s.
Proof. intros Hl. unfold strip_with. by rewrite lstrip_with_app_all. Qed.

(** White space around a lexeme does not count. *)
Theorem parse_value_ignores_outer_space (l s r : str) :
  Forall (fun c => isspace c = true) l ->
  Forall (fun c => isspace c = true) r ->
  parse_value (l ++ s ++ r) = parse_value s.
Proof.
  intros Hl Hr. unfold parse_value, strip.
  by rewrite strip_with_app_l, strip_with_app_r.
Qed.

Lemma parse_value_ignores_outer_space_witness :
  parse_value (txt "  " ++ txt "42" ++ txt " ") = PInt 42
  /\ parse_value (txt "  " ++ txt "42" ++ txt " ") = parse_value (txt "42").
Proof.
  split; [reflexivity|].
  apply parse_value_ignores_outer_space; repeat constructor.
Defined.

(** [parse_value] gives [None] for the blank lexeme and for the word NULL
    in any case, and for nothing else: a quoted NULL is a string. *)
Theorem parse_value_none (s : str) :
  parse_value s = PNone <-> strip s = [] \/ upper (strip s) = txt "NULL".
Proof.
  unfold parse_value. set (v := strip s).
  destruct (bool_decide_reflect (v = [])) as [Hv|Hv]; simpl.
  { split; auto. }
  unfold eqb. destruct (bool_decide_reflect (upper v = txt "NULL")) as [Hn|Hn].
  { split; auto. }
  split; [|by intros [?|?]].
  destruct v as [|c v']; [done|].
  destruct (_ || _); [done|].
  destruct (int_of_str (c :: v')); [done|].
  by destruct (is_float (c :: v')).
Qed.

Example quoted_null_is_a_string : parse_value (txt "'NULL'") = PStr (txt "NULL").
Proof. reflexivity. Qed.

End Tokenizer.

(* ===================================================================== *)
(** * Mod normalizer ([parse_mods_from_data], [normalize_mods])           *)
(* ===================================================================== *)

Module Mods.
Import Py Tokenizer.

(** What [json.loads] returns: [None], [bool], [int], [float] (a finite
    one as the rational it is, [NaN] and the infinities apart), [str],
    [list] and [dict].  A [dict] is kept as the members of the document in
    their order; the last member with a name is the one [dict] keeps. *)
Inductive json :=
| JNull
| JBool (b : bool)
| JInt (z : Z)
| JFloat (q : Q)
| JNonFinite
| JStr (s : str)
| JArr (items : list json)
| JObj (members : list (str * json)).

(** The exceptions that can leave the two functions. *)
Inductive exn := TypeError | AttributeError | KeyError.

(** A value, or the exception raised. *)
Definition result (A : Type) : Type := A + exn.
Definition ok {A} (a : A) : result A := inl a.
Definition raise {A} (e : exn) : result A := inr e.
Definition bind {A B} (r : result A) (k : A -> result B) : result B :=
  match r with
  | inl a => k a
  | inr e => inr e
  end.

(** [d.get(k)]: the last member named [k]. *)
Fixpoint dict_get (k : str) (d : list (str * json)) : option json :=
  match d with
  | [] => None
  | (k', v) :: d' =>
      match dict_get k d' with
      | Some v' => Some v'
      | None => if eqb k' k then Some v else None
      end
  end.

(** The keys of the [dict], in the order of their first member. *)
Fixpoint dict_keys (seen : list str) (d : list (str * json)) : list str :=
  match d with
  | [] => []
  | (k, _) :: d' =>
      if existsb (eqb k) seen then dict_keys seen d'
      else k :: dict_keys (k :: seen) d'
  end.

(** [not v]. *)
Definition falsy (v : json) : bool :=
  match v with
  | JNull => true
  | JBool b => negb b
  | JInt z => (z =? 0)%Z
  | JFloat q => Qeq_bool q 0
  | JNonFinite => false
  | JStr s => match s with [] => true | _ => false end
  | JArr l => match l with [] => true | _ => false end
  | JObj d => match d with [] => true | _ => false end
  end.

(** [for m in mods]: what the loop goes through. *)
Definition iterate (mods : json) : result (list json) :=
  match mods with
  | JArr l => ok l
  | JStr s => ok (map (fun c => JStr [c]) s)
  | JObj d => ok (map JStr (dict_keys [] d))
  | _ => raise TypeError
  end.

(** ["acronym" in m]. *)
Definition has_acronym (mod_ : json) : result bool :=
  match mod_ with
  | JObj d => ok (match dict_get (txt "acronym") d with
                  | Some _ => true
                  | None => false
                  end)
  | JStr s => ok (contains (txt "acronym") s)
  | JArr l => ok (existsb (fun x => match x with
                                    | JStr s => eqb s (txt "acronym")
                                    | _ => false
                                    end) l)
  | _ => raise TypeError
  end.

(** [m["acronym"]]. *)
Definition get_acronym (mod_ : json) : result json :=
  match mod_ with
  | JObj d => match dict_get (txt "acronym") d with
              | Some v => ok v
              | None => raise KeyError
              end
  | _ => raise TypeError
  end.

(** [[mod["acronym"] for mod_ in mods if "acronym" in mod_]], from left to
    right. *)
Fixpoint collect_acronyms (mods : list json) : result (list json) :=
  match mods with
  | [] => ok []
  | mod_ :: mods' =>
      bind (has_acronym mod_) (fun has =>
      if has : bool then
        bind (get_acronym mod_) (fun a =>
        bind (collect_acronyms mods') (fun rest => ok (a :: rest)))
      else collect_acronyms mods')
  end.

(** The acronyms as strings, if every one of them is a string. *)
Fixpoint all_strings (vs : list json) : option (list str) :=
  match vs with
  | [] => Some []
  | JStr s :: vs' => cons s <$> all_strings vs'
  | _ :: vs' => None
  end.

(** The order of [str]: lexicographic on code points. *)
Definition str_le (a b : str) : Prop := leb a b = true.

#[local] Instance str_le_dec : RelDecision str_le.
Proof. intros a b. unfold str_le. apply _. Defined.

(** [acronyms.sort()] on strings. *)
Definition sort (l : list str) : list str := merge_sort str_le l.

(** [x in acronyms]. *)
Definition mem (x : str) (l : list str) : bool := existsb (eqb x) l.

(** [normalize_mods].  [sort] followed by [join] raises [TypeError] unless
    every acronym is a string: [sort] when it has to compare values of
    different types, [join] on the first that is not a string. *)
Definition normalize_mods (mods : json) : result (str * option str) :=
  if falsy mods then ok ([], None)
  else
    bind (iterate mods) (fun items =>
    bind (collect_acronyms items) (fun acronyms =>
    match all_strings acronyms with
    | None => raise TypeError
    | Some acronyms =>
        let acronyms := sort acronyms in
        let mods_key := join (txt ",") acronyms in
        let speed_mod :=
          if mem (txt "DT") acronyms || mem (txt "NC") acronyms
          then Some (txt "DT")
          else if mem (txt "HT") acronyms then Some (txt "HT")
          else None in
        ok (mods_key, speed_mod)
    end)).

Section WithDecoder.

(** [json.loads] on a string: [None] stands for [JSONDecodeError]. *)
Variable json_loads : str -> option json.

(** [parse_mods_from_data].  On a value that is not a string [json.loads]
    raises [TypeError], which is caught; [data.get] on a document that is
    not an object raises [AttributeError], which is not. *)
Definition parse_mods_from_data (data_str : pyval) : result json :=
  match data_str with
  | PNone => ok (JArr [])
  | PInt _ | PFloat _ => ok (JArr [])
  | PStr s =>
      if eqb s (txt "NULL") then ok (JArr [])
      else match json_loads s with
           | None => ok (JArr [])
           | Some (JObj d) => ok (default (JArr []) (dict_get (txt "mods") d))
           | Some _ => raise AttributeError
           end
  end.

(** The derived pair of a [data] value, as [_rows_to_batch] computes it. *)
Definition derive (data : pyval) : result (str * option str) :=
  bind (parse_mods_from_data data) normalize_mods.

End WithDecoder.

(** ** A decoder to run examples with *)

(** JSON white space. *)
Definition json_ws (c : ascii) : bool :=
  let n := code c in (n =? 32) || (n =? 9) || (n =? 10) || (n =? 13).

(** The characters of a string up to its closing quote, for strings
    without a backslash or a control character. *)
Fixpoint string_body (s : str) : option (str * str) :=
  match s with
  | [] => None
  | c :: t =>
      if Ascii.eqb c dquote then Some ([], t)
      else if Ascii.eqb c backslash || (code c <? 32) then None
      else match string_body t with
           | Some (body, rest) => Some (c :: body, rest)
           | None => None
           end
  end.

(** The digits at the front of a text. *)
Fixpoint leading_digits (s : str) : str * str :=
  match s with
  | c :: s' => if isdigit c
               then let '(ds, rest) := leading_digits s' in (c :: ds, rest)
               else ([], s)
  | [] => ([], [])
  end.

(** An integer: an optional minus sign, then [0] or digits that do not
    start with [0]; not followed by a fraction or an exponent. *)
Definition integer (s : str) : option (json * str) :=
  let '(neg, s1) := match s with
                    | "-"%char :: t => (true, t)
                    | _ => (false, s)
                    end in
  let '(ds, rest) := leading_digits s1 in
  match ds, rest with
  | [], _ => None
  | "0"%char :: _ :: _, _ => None
  | _, c :: _ =>
      if Ascii.eqb c "." || Ascii.eqb c "e" || Ascii.eqb c "E" then None
      else z ← digits_value 0 false ds;
           Some (JInt (if neg : bool then - z else z)%Z, rest)
  | _, [] => z ← digits_value 0 false ds;
             Some (JInt (if neg : bool then - z else z)%Z, rest)
  end.

(** One JSON value at the front of a text, and the text after it.  Covers
    objects, arrays, strings without escapes, integers and the literals
    [null], [true], [false]. *)
Fixpoint decode (fuel : nat) (s : str) : option (json * str) :=
  match fuel with
  | O => None
  | S fuel' =>
      match lstrip_with json_ws s with
      | [] => None
      | c :: r =>
          if has_prefix (txt "null") (c :: r) then Some (JNull, drop 4 (c :: r))
          else if has_prefix (txt "true") (c :: r)
          then Some (JBool true, drop 4 (c :: r))
          else if has_prefix (txt "false") (c :: r)
          then Some (JBool false, drop 5 (c :: r))
          else if Ascii.eqb c dquote then
            '(body, rest) ← string_body r; Some (JStr body, rest)
          else if Ascii.eqb c "[" then
            match lstrip_with json_ws r with
            | "]"%char :: rest => Some (JArr [], rest)
            | _ =>
                (fix items (n : nat) (s : str) (acc : list json)
                   : option (json * str) :=
                   match n with
                   | O => None
                   | S n' =>
                       '(v, rest) ← decode fuel' s;
                       match lstrip_with json_ws rest with
                       | ","%char :: rest' => items n' rest' (acc ++ [v])
                       | "]"%char :: rest' => Some (JArr (acc ++ [v]), rest')
                       | _ => None
                       end
                   end) fuel' r []
            end
          else if Ascii.eqb c "{" then
            match lstrip_with json_ws r with
            | "}"%char :: rest => Some (JObj [], rest)
            | _ =>
                (fix members (n : nat) (s : str) (acc : list (str * json))
                   : option (json * str) :=
                   match n with
                   | O => None
                   | S n' =>
                       match lstrip_with json_ws s with
                       | q :: s1 =>
                           if Ascii.eqb q dquote then
                             '(k, s2) ← string_body s1;
                             match lstrip_with json_ws s2 with
                             | ":"%char :: s3 =>
                                 '(v, rest) ← decode fuel' s3;
                                 match lstrip_with json_ws rest with
                                 | ","%char :: rest' =>
                                     members n' rest' (acc ++ [(k, v)])
                                 | "}"%char :: rest' =>
                                     Some (JObj (acc ++ [(k, v)]), rest')
                                 | _ => None
                                 end
                             | _ => None
                             end
                           else None
                       | [] => None
                       end
                   end) fuel' r []
            end
          else integer (c :: r)
      end
  end.

(** A whole document. *)
Definition json_loads_lite (s : str) : option json :=
  '(v, rest) ← decode (S (length s)) s;
  match lstrip_with json_ws rest with
  | [] => Some v
  | _ => None
  end.
(** ** The derived key *)

(** The [mods_key] of a [data] value. *)
Definition mods_key (json_loads : str -> option json) (data : pyval)
  : result str :=
  bind (derive json_loads data) (fun p => ok p.1).

(** A mod record as the dumps have them: an object whose ["acronym"], if
    it has one, is a string. *)
Definition is_record (m : json) : bool :=
  match m with
  | JObj d => match dict_get (txt "acronym") d with
              | Some (JStr _) | None => true
              | Some _ => false
              end
  | _ => false
  end.

(** The acronyms of the records that have one, in the order of the
    array. *)
Definition acronyms_of (M : list json) : list str :=
  omap (fun m => match m with
                 | JObj d => match dict_get (txt "acronym") d with
                             | Some (JStr a) => Some a
                             | _ => None
                             end
                 | _ => None
                 end) M.

(** The key of the specification: sorted, without duplicates, joined. *)
Definition spec_mods_key (M : list json) : str :=
  join (txt ",") (sort (remove_dups (acronyms_of M))).

(** [data] is null or is not text that [json.loads] accepts. *)
Definition undecodable (json_loads : str -> option json) (data : pyval) : bool :=
  match data with
  | PStr s => eqb s (txt "NULL")
              || match json_loads s with Some _ => false | None => true end
  | _ => true
  end.

Lemma leb_total (a b : str) : leb a b = true \/ leb b a = true.
Proof.
  revert b. induction a as [|x a IH]; intros [|y b]; simpl; auto.
  destruct (Nat.ltb_spec (code x) (code y)); [by left|].
  destruct (Nat.ltb_spec (code y) (code x)); [by right|].
  assert (code x = code y) as -> by lia. rewrite Nat.eqb_refl. simpl.
  apply IH.
Qed.

#[local] Instance str_le_total : Total str_le.
Proof. intros a b. apply leb_total. Qed.

Lemma sort_sorted (l : list str) : Sorted str_le (sort l) /\ sort l ≡ₚ l.
Proof.
  split; [apply Sorted_merge_sort, _|apply merge_sort_Permutation].
Qed.

Lemma all_strings_map (l : list str) : all_strings (map JStr l) = Some l.
Proof. induction l as [|a l IH]; simpl; [done|]. by rewrite IH. Qed.

Lemma collect_acronyms_records (M : list json) :
  forallb is_record M = true ->
  collect_acronyms M = ok (map JStr (acronyms_of M)).
Proof.
  induction M as [|m M IH]; [done|]. simpl. intros [Hm HM]%andb_prop.
  specialize (IH HM). unfold acronyms_of in *.
  destruct m as [| | | | | |l|d]; try done. simpl in *.
  destruct (dict_get (txt "acronym") d) as [[| | | | |a| |]|]; try done; simpl.
  by rewrite IH.
Qed.

Lemma normalize_mods_records (M : list json) :
  forallb is_record M = true ->
  exists speed_mod,
    normalize_mods (JArr M)
    = ok (join (txt ",") (sort (acronyms_of M)), speed_mod).
Proof.
  intros HM. unfold normalize_mods. destruct M as [|m M]; [by eexists|].
  cbn [falsy iterate bind ok]. rewrite collect_acronyms_records by done.
  cbn [bind ok]. rewrite all_strings_map. eauto.
Qed.

Section KeyFacts.

Variable json_loads : str -> option json.

(** C2, as the code has it.  For every value of the [data] column: when
    it is null, is not text, or is text that [json.loads] rejects, the
    derived [mods_key] is the empty string; when it is a JSON object
    without [mods], likewise; and when its [mods] is an array of records,
    [mods_key] is the comma-join of the acronyms of the records that have
    one, sorted lexicographically, every occurrence kept. *)
Theorem mods_key_sorted_join (data : pyval) :
  (undecodable json_loads data = true -> mods_key json_loads data = ok [])
  /\ (forall s d,
        data = PStr s -> eqb s (txt "NULL") = false ->
        json_loads s = Some (JObj d) ->
        match dict_get (txt "mods") d with
        | None => mods_key json_loads data = ok []
        | Some (JArr M) =>
            forallb is_record M = true ->
            exists sorted,
              mods_key json_loads data = ok (join (txt ",") sorted)
              /\ Sorted str_le sorted
              /\ sorted ≡ₚ acronyms_of M
        | Some _ => True
        end).
Proof.
  split.
  - unfold mods_key, derive, parse_mods_from_data, undecodable.
    destruct data as [| | |s]; try done.
    destruct (eqb s (txt "NULL")); [done|]. simpl.
    destruct (json_loads s); [done|]. done.
  - intros s d -> Hnull Hloads.
    unfold mods_key, derive, parse_mods_from_data. rewrite Hnull, Hloads.
    destruct (dict_get (txt "mods") d) as [[| | | | | |M|]|]; try done.
    intros HM. destruct (normalize_mods_records M HM) as [sp Hn].
    exists (sort (acronyms_of M)). cbn [default bind ok id]. rewrite Hn.
    split; [done|]. apply sort_sorted.
Qed.

End KeyFacts.

(** The [data] of scenario S1. *)
Definition s1_data : pyval :=
  PStr (txtq "{~mods~:[{~acronym~:~HR~},{~acronym~:~DT~}]}").

Lemma mods_key_sorted_join_witness :
  mods_key json_loads_lite s1_data = ok (txt "DT,HR")
  /\ exists sorted,
       mods_key json_loads_lite s1_data = ok (join (txt ",") sorted)
       /\ Sorted str_le sorted
       /\ sorted ≡ₚ [txt "HR"; txt "DT"].
Proof.
  split; [reflexivity|].
  exact (proj2 (mods_key_sorted_join json_loads_lite s1_data)
           (txtq "{~mods~:[{~acronym~:~HR~},{~acronym~:~DT~}]}")
           [(txt "mods", JArr [JObj [(txt "acronym", JStr (txt "HR"))];
                              JObj [(txt "acronym", JStr (txt "DT"))]])]
           eq_refl eq_refl eq_refl eq_refl).
Defined.

(** C2 as stated fails: an acronym that occurs twice is kept twice. *)
Lemma mods_key_keeps_duplicates :
  let doc := txtq "{~mods~:[{~acronym~:~DT~},{~acronym~:~DT~}]}" in
  let M := [JObj [(txt "acronym", JStr (txt "DT"))];
            JObj [(txt "acronym", JStr (txt "DT"))]] in
  json_loads_lite doc = Some (JObj [(txt "mods", JArr M)])
  /\ mods_key json_loads_lite (PStr doc) = ok (txt "DT,DT")
  /\ spec_mods_key M = txt "DT"
  /\ mods_key json_loads_lite (PStr doc) <> ok (spec_mods_key M).
Proof. vm_compute. split_and!; [reflexivity..|discriminate]. Qed.

(** A document that is valid JSON but not an object is not turned into
    the empty key: [data.get] raises, and nothing catches it. *)
Example mods_key_of_an_array :
  json_loads_lite (txt "[1]") = Some (JArr [JInt 1])
  /\ mods_key json_loads_lite (PStr (txt "[1]")) = raise AttributeError.
Proof. split; reflexivity. Qed.

(** ** The order of the mods does not matter *)

Lemma code_inj (x y : ascii) : code x = code y -> x = y.
Proof.
  unfold code. intros H.
  rewrite <- (ascii_nat_embedding x), <- (ascii_nat_embedding y). by rewrite H.
Qed.

Lemma leb_antisym (a b : str) : leb a b = true -> leb b a = true -> a = b.
Proof.
  revert b. induction a as [|x a IH]; intros [|y b]; simpl; try done.
  destruct (Nat.ltb_spec (code x) (code y)) as [Hlt|Hge]; simpl.
  - destruct (Nat.ltb_spec (code y) (code x)); [lia|]. simpl.
    destruct (Nat.eqb_spec (code y) (code x)); [lia|done].
  - destruct (Nat.eqb_spec (code x) (code y)) as [Heq|]; [|done]. simpl.
    rewrite Heq, Nat.ltb_irrefl, Nat.eqb_refl. simpl.
    intros H1 H2. f_equal; [by apply code_inj|by apply IH].
Qed.

Lemma leb_trans (a b c : str) :
  leb a b = true -> leb b c = true -> leb a c = true.
Proof.
  revert b c. induction a as [|x a IH]; intros [|y b] [|z c]; simpl; try done.
  destruct (Nat.ltb_spec (code x) (code y)) as [Hxy|Hxy]; simpl.
  - intros _. destruct (Nat.ltb_spec (code y) (code z)) as [Hyz|Hyz]; simpl.
    + intros _. destruct (Nat.ltb_spec (code x) (code z)); [done|lia].
    + destruct (Nat.eqb_spec (code y) (code z)); [|done]. simpl. intros _.
      destruct (Nat.ltb_spec (code x) (code z)); [done|lia].
  - destruct (Nat.eqb_spec (code x) (code y)) as [Exy|]; [|done]. simpl.
    intros Hab. destruct (Nat.ltb_spec (code y) (code z)) as [Hyz|Hyz]; simpl.
    + intros _. destruct (Nat.ltb_spec (code x) (code z)); [done|lia].
    + destruct (Nat.eqb_spec (code y) (code z)) as [Eyz|]; [|done]. simpl.
      intros Hbc. destruct (Nat.ltb_spec (code x) (code z)); [done|]. simpl.
      destruct (Nat.eqb_spec (code x) (code z)); [|lia]. simpl. eauto.
Qed.

#[local] Instance str_le_antisym : AntiSymm (=) str_le.
Proof. intros a b. apply leb_antisym. Qed.

#[local] Instance str_le_trans : Transitive str_le.
Proof. intros a b c. apply leb_trans. Qed.

(** Sorting forgets the order of its input. *)
Lemma sort_Permutation (l1 l2 : list str) : l1 ≡ₚ l2 -> sort l1 = sort l2.
Proof.
  intros H. apply (Sorted_unique str_le).
  - apply sort_sorted.
  - apply sort_sorted.
  - destruct (sort_sorted l1) as [_ ->]. destruct (sort_sorted l2) as [_ ->].
    done.
Qed.

(** The pair [normalize_mods] derives from an array of records: the
    sorted acronyms, joined, and the speed class read off them. *)
Lemma normalize_mods_of_records (M : list json) :
  forallb is_record M = true ->
  normalize_mods (JArr M)
  = let acronyms := sort (acronyms_of M) in
    ok (join (txt ",") acronyms,
        if mem (txt "DT") acronyms || mem (txt "NC") acronyms
        then Some (txt "DT")
        else if mem (txt "HT") acronyms then Some (txt "HT") else None).
Proof.
  intros HM. unfold normalize_mods. destruct M as [|m M]; [done|].
  cbn [falsy iterate bind ok]. rewrite collect_acronyms_records by done.
  cbn [bind ok]. by rewrite all_strings_map.
Qed.

Lemma is_record_Permutation (M1 M2 : list json) :
  M1 ≡ₚ M2 -> forallb is_record M1 = forallb is_record M2.
Proof.
  induction 1 as [|m ? ? _ IH|m1 m2 M|? ? ? _ IH1 _ IH2]; simpl;
    [done|by rewrite IH| |congruence].
  destruct (is_record m1), (is_record m2); done.
Qed.

(** The derived pair does not depend on the order in which the mods are
    listed: two arrays of records that are permutations of each other get
    the same [mods_key] and the same [speed_mod]. *)
Theorem normalize_mods_order_independent (M1 M2 : list json) :
  forallb is_record M1 = true -> M1 ≡ₚ M2 ->
  normalize_mods (JArr M1) = normalize_mods (JArr M2).
Proof.
  intros H1 Hp.
  assert (forallb is_record M2 = true) as H2
    by (by rewrite <- (is_record_Permutation M1 M2 Hp)).
  rewrite !normalize_mods_of_records by done. cbv zeta.
  assert (sort (acronyms_of M1) = sort (acronyms_of M2)) as ->; [|done].
  apply sort_Permutation. unfold acronyms_of. by rewrite Hp.
Qed.

Lemma normalize_mods_order_independent_witness :
  let hr := JObj [(txt "acronym", JStr (txt "HR"))] in
  let dt := JObj [(txt "acronym", JStr (txt "DT"))] in
  normalize_mods (JArr [hr; dt]) = ok (txt "DT,HR", Some (txt "DT"))
  /\ normalize_mods (JArr [hr; dt]) = normalize_mods (JArr [dt; hr]).
Proof.
  split; [reflexivity|].
  apply normalize_mods_order_independent; [reflexivity|apply perm_swap].
Defined.

End Mods.

(* ===================================================================== *)
(** * Regular expressions, as [re] matches them                           *)
(* ===================================================================== *)

Module Regex.
Import Py.

(** The patterns of the sources use literals, character sets, [\s], [\w],
    [.], sequence, alternation, greedy and lazy repetition, one capturing
    group and [$]. *)
Inductive regex :=
| Chr (c : ascii)
| CharSet (negated : bool) (cs : list ascii)
| Space
| Word
| Any
| Cat (r1 r2 : regex)
| Alt (r1 r2 : regex)
| Star (greedy : bool) (r : regex)
| Group (r : regex)
| Eol
| Eps.

(** [r+], [r+?], [r?] and a literal string. *)
Definition Plus (greedy : bool) (r : regex) : regex := Cat r (Star greedy r).
Definition Opt (r : regex) : regex := Alt r Eps.
Definition Lit (s : str) : regex := foldr (fun c r => Cat (Chr c) r) Eps s.

Definition isword (c : ascii) : bool :=
  isdigit c || isupper c || islower c || Ascii.eqb c "_".

Section Matching.

(** [re.IGNORECASE] and [re.DOTALL]. *)
Variables (ignorecase dotall : bool).

Definition same_char (a b : ascii) : bool :=
  if ignorecase then Ascii.eqb (lower_char a) (lower_char b)
  else Ascii.eqb a b.

Context {A : Type}.

(** Backtracking matching of [r] at the front of [s]: [k] is what remains
    to be matched, given the rest of the text and the text of the group.
    Alternatives are tried in the order [re] tries them. *)
Fixpoint run (r : regex) (s : str) (cap : option str)
         (k : str -> option str -> option A) : option A :=
  match r with
  | Chr c =>
      match s with
      | c' :: s' => if same_char c c' then k s' cap else None
      | [] => None
      end
  | CharSet negated cs =>
      match s with
      | c' :: s' => if xorb negated (existsb (same_char c') cs)
                    then k s' cap else None
      | [] => None
      end
  | Space =>
      match s with
      | c' :: s' => if isspace c' then k s' cap else None
      | [] => None
      end
  | Word =>
      match s with
      | c' :: s' => if isword c' then k s' cap else None
      | [] => None
      end
  | Any =>
      match s with
      | c' :: s' => if dotall || negb (Ascii.eqb c' newline)
                    then k s' cap else None
      | [] => None
      end
  | Cat r1 r2 => run r1 s cap (fun s' cap' => run r2 s' cap' k)
  | Alt r1 r2 =>
      match run r1 s cap k with
      | Some a => Some a
      | None => run r2 s cap k
      end
  | Star greedy r' =>
      (fix iterate (n : nat) (s : str) (cap : option str) : option A :=
         match n with
         | O => k s cap
         | S n' =>
             let again :=
               run r' s cap (fun s' cap' =>
                 if length s' <? length s then iterate n' s' cap' else None) in
             if greedy then
               match again with
               | Some a => Some a
               | None => k s cap
               end
             else
               match k s cap with
               | Some a => Some a
               | None => again
               end
         end) (S (length s)) s cap
  | Group r' =>
      run r' s cap (fun s' _ => k s' (Some (take (length s - length s') s)))
  | Eol =>
      match s with
      | [] => k s cap
      | [c] => if Ascii.eqb c newline then k s cap else None
      | _ => None
      end
  | Eps => k s cap
  end.

End Matching.

(** A match: where it starts, the text after it, and the group. *)
Record found := mkFound {
  start : nat;
  after : str;
  group1 : option str
}.

Section Searching.

Variables (ignorecase dotall : bool).

(** [pattern.match(s)] at the front of [s]. *)
Definition match_here (r : regex) (s : str) : option (str * option str) :=
  run ignorecase dotall r s None (fun s' cap => Some (s', cap)).

(** [pattern.search(s)]: the leftmost match. *)
Fixpoint search_from (r : regex) (pos : nat) (s : str) : option found :=
  match match_here r s with
  | Some (s', cap) => Some (mkFound pos s' cap)
  | None =>
      match s with
      | [] => None
      | _ :: s' => search_from r (S pos) s'
      end
  end.
Definition search (r : regex) (s : str) : option found := search_from r 0 s.

(** [pattern.findall(s)] for a pattern with one group that does not match
    the empty string: the group of every match, from left to right, each
    search starting where the match before it ended. *)
Fixpoint findall_from (fuel : nat) (r : regex) (s : str) : list str :=
  match fuel with
  | O => []
  | S fuel' =>
      match search r s with
      | None => []
      | Some m =>
          default [] (group1 m) ::
            (if length (after m) <? length s
             then findall_from fuel' r (after m) else [])
      end
  end.
Definition findall (r : regex) (s : str) : list str :=
  findall_from (S (length s)) r s.

End Searching.

End Regex.

(* ===================================================================== *)
(** * Dump scanner ([pipelines/sql_parser.py])                            *)
(* ===================================================================== *)

Module Scanner.
Import Py Tokenizer Regex.

Inductive ParserState := SEARCH_INSERT | READ_VALUES | READ_ROW | READ_FIELD.

(** The attributes of a [SqlParser]. *)
Record SqlParser := mkParser {
  table_name : str;
  _state : ParserState;
  columns : list str;
  current_row : list str;
  rows : list (list str);
  buffer : str;
  in_string : bool;
  string_delimiter : option ascii;
  escape_next : bool;
  paren_depth : Z;
  found_table : bool;
  insert_buffer : str;
  row_started : bool
}.

(** [SqlParser(table_name)]. *)
Definition new_parser (table_name : str) : SqlParser :=
  mkParser table_name SEARCH_INSERT [] [] [] [] false None false 0 false []
           false.

(** ** Attribute assignments *)

Definition set_state (x : ParserState) (p : SqlParser) : SqlParser :=
  mkParser (table_name p) x (columns p) (current_row p) (rows p) (buffer p)
           (in_string p) (string_delimiter p) (escape_next p) (paren_depth p)
           (found_table p) (insert_buffer p) (row_started p).
Definition set_columns (x : list str) (p : SqlParser) : SqlParser :=
  mkParser (table_name p) (_state p) x (current_row p) (rows p) (buffer p)
           (in_string p) (string_delimiter p) (escape_next p) (paren_depth p)
           (found_table p) (insert_buffer p) (row_started p).
Definition set_current_row (x : list str) (p : SqlParser) : SqlParser :=
  mkParser (table_name p) (_state p) (columns p) x (rows p) (buffer p)
           (in_string p) (string_delimiter p) (escape_next p) (paren_depth p)
           (found_table p) (insert_buffer p) (row_started p).
Definition set_rows (x : list (list str)) (p : SqlParser) : SqlParser :=
  mkParser (table_name p) (_state p) (columns p) (current_row p) x (buffer p)
           (in_string p) (string_delimiter p) (escape_next p) (paren_depth p)
           (found_table p) (insert_buffer p) (row_started p).
Definition set_buffer (x : str) (p : SqlParser) : SqlParser :=
  mkParser (table_name p) (_state p) (columns p) (current_row p) (rows p) x
           (in_string p) (string_delimiter p) (escape_next p) (paren_depth p)
           (found_table p) (insert_buffer p) (row_started p).
Definition set_string (x : bool) (d : option ascii) (p : SqlParser) : SqlParser :=
  mkParser (table_name p) (_state p) (columns p) (current_row p) (rows p)
           (buffer p) x d (escape_next p) (paren_depth p)
           (found_table p) (insert_buffer p) (row_started p).
Definition set_paren_depth (x : Z) (p : SqlParser) : SqlParser :=
  mkParser (table_name p) (_state p) (columns p) (current_row p) (rows p)
           (buffer p) (in_string p) (string_delimiter p) (escape_next p) x
           (found_table p) (insert_buffer p) (row_started p).
Definition set_found_table (x : bool) (p : SqlParser) : SqlParser :=
  mkParser (table_name p) (_state p) (columns p) (current_row p) (rows p)
           (buffer p) (in_string p) (string_delimiter p) (escape_next p)
           (paren_depth p) x (insert_buffer p) (row_started p).
Definition set_insert_buffer (x : str) (p : SqlParser) : SqlParser :=
  mkParser (table_name p) (_state p) (columns p) (current_row p) (rows p)
           (buffer p) (in_string p) (string_delimiter p) (escape_next p)
           (paren_depth p) (found_table p) x (row_started p).
Definition set_row_started (x : bool) (p : SqlParser) : SqlParser :=
  mkParser (table_name p) (_state p) (columns p) (current_row p) (rows p)
           (buffer p) (in_string p) (string_delimiter p) (escape_next p)
           (paren_depth p) (found_table p) (insert_buffer p) x.

(** [self.buffer += char]. *)
Definition push (char : ascii) (p : SqlParser) : SqlParser :=
  set_buffer (buffer p ++ [char]) p.

(** ** The patterns of [feed] *)

Definition quotes : regex := CharSet false ["`"%char; dquote; squote].
Definition not_close : regex := CharSet true [")"%char].

(** The pattern of the statement head: INSERT, white space, INTO, white
    space, an optional quote (backtick, double or single), the escaped
    table name, an optional quote. *)
Definition insert_into (table : str) : regex :=
  Cat (Lit (txt "INSERT")) (Cat (Plus true Space)
  (Cat (Lit (txt "INTO")) (Cat (Plus true Space)
  (Cat (Opt quotes) (Cat (Lit table) (Opt quotes)))))).

(** The pattern of the column list: an opening parenthesis, a group of
    one or more characters other than a closing parenthesis, the closing
    parenthesis, optional white space, VALUES. *)
Definition column_list : regex :=
  Cat (Chr "(") (Cat (Group (Plus true not_close))
  (Cat (Chr ")") (Cat (Star true Space) (Lit (txt "VALUES"))))).

(** The column names: the pieces of [col_str] between commas, each
    stripped of white space and then of quotes. *)
Definition is_quote (c : ascii) : bool :=
  Ascii.eqb c "`" || Ascii.eqb c dquote || Ascii.eqb c squote.
Definition column_names (col_str : str) : list str :=
  map (fun c => strip_with is_quote (strip c)) (split_on "," col_str).

(** ** The state machine *)

(** The three assignments that go back to [SEARCH_INSERT]. *)
Definition end_statement (p : SqlParser) : SqlParser :=
  set_row_started false
    (set_found_table false (set_insert_buffer [] (set_state SEARCH_INSERT p))).

(** [field = self.buffer.strip(); if field: self.current_row.append(field)]
    and the reset of [self.buffer]. *)
Definition commit_field (p : SqlParser) : SqlParser :=
  let field := strip (buffer p) in
  let p := match field with
           | [] => p
           | _ => set_current_row (current_row p ++ [field]) p
           end in
  set_buffer [] p.

(** [if self.current_row: self.rows.append(self.current_row[:]);
    self.current_row = []]. *)
Definition commit_row (p : SqlParser) : SqlParser :=
  match current_row p with
  | [] => p
  | row => set_current_row [] (set_rows (rows p ++ [row]) p)
  end.

Definition search_insert (char : ascii) (p : SqlParser) : SqlParser :=
  let p := set_insert_buffer (insert_buffer p ++ [char]) p in
  let upper_buffer := upper (insert_buffer p) in
  if contains (txt "INSERT") upper_buffer && contains (txt "INTO") upper_buffer
  then
    match search true false (insert_into (table_name p)) (insert_buffer p) with
    | Some _ =>
        let p := set_found_table true p in
        if contains (txt "VALUES") upper_buffer then
          let p := match search true false column_list (insert_buffer p) with
                   | Some col_match =>
                       set_columns (column_names (default [] (group1 col_match))) p
                   | None => p
                   end in
          set_insert_buffer [] (set_state READ_VALUES p)
        else p
    | None =>
        if contains (txt "VALUES") upper_buffer
        then set_insert_buffer [] p else p
    end
  else p.

Definition read_values (char : ascii) (p : SqlParser) : SqlParser :=
  if Ascii.eqb char "(" then
    set_row_started true
      (set_current_row [] (set_buffer [] (set_paren_depth 1 (set_state READ_ROW p))))
  else if Ascii.eqb char ";" then end_statement p
  else p.

Definition read_row (char : ascii) (p : SqlParser) : SqlParser :=
  if Ascii.eqb char squote && negb (in_string p) then
    push char (set_state READ_FIELD (set_string true (Some squote) p))
  else if Ascii.eqb char dquote && negb (in_string p) then
    push char (set_state READ_FIELD (set_string true (Some dquote) p))
  else if Ascii.eqb char "(" && negb (in_string p) then
    let p := set_paren_depth (paren_depth p + 1) p in
    let p := if (paren_depth p =? 1)%Z
             then set_current_row [] (set_buffer [] p)
             else push char p in
    set_state READ_FIELD p
  else if Ascii.eqb char ")" && negb (in_string p) then
    let p := set_paren_depth (paren_depth p - 1) p in
    if (paren_depth p =? 0)%Z then commit_row (commit_field p)
    else set_state READ_FIELD (push char p)
  else if Ascii.eqb char "," && negb (in_string p) && (paren_depth p =? 1)%Z then
    set_state READ_FIELD (commit_field p)
  else if Ascii.eqb char ";" && negb (in_string p) && (paren_depth p =? 0)%Z then
    end_statement p
  else if negb (isspace char) then
    if (paren_depth p =? 0)%Z then p
    else push char (set_state READ_FIELD p)
  else p.

(** A character in [READ_FIELD]; [next] is [text[i + 1]] when there is
    one.  The boolean tells that [i] was advanced past [next]. *)
Definition read_field (char : ascii) (next : option ascii) (p : SqlParser)
  : SqlParser * bool :=
  let no_delimiter := match string_delimiter p with
                      | None => true
                      | Some _ => false
                      end in
  let delimiter_is (q : ascii) := match string_delimiter p with
                                  | Some d => Ascii.eqb d q
                                  | None => false
                                  end in
  let close_or_double (q : ascii) :=
    let p := push char p in
    match next with
    | Some n => if Ascii.eqb n q then (push n p, true)
                else (set_state READ_ROW (set_string false None p), false)
    | None => (set_state READ_ROW (set_string false None p), false)
    end in
  if Ascii.eqb char squote && no_delimiter && negb (in_string p) then
    (push char (set_string true (Some squote) p), false)
  else if Ascii.eqb char dquote && no_delimiter && negb (in_string p) then
    (push char (set_string true (Some dquote) p), false)
  else if Ascii.eqb char squote && delimiter_is squote then
    close_or_double squote
  else if Ascii.eqb char dquote && delimiter_is dquote then
    close_or_double dquote
  else if Ascii.eqb char "(" && negb (in_string p) then
    (push char (set_paren_depth (paren_depth p + 1) p), false)
  else if Ascii.eqb char ")" && negb (in_string p) then
    let p := set_paren_depth (paren_depth p - 1) p in
    if (paren_depth p =? 0)%Z
    then (commit_row (set_state READ_ROW (commit_field p)), false)
    else (set_state READ_ROW (push char p), false)
  else if Ascii.eqb char "," && negb (in_string p) && (paren_depth p =? 1)%Z then
    (commit_field p, false)
  else if Ascii.eqb char ";" && negb (in_string p) && (paren_depth p =? 0)%Z then
    (end_statement p, false)
  else (push char p, false).

(** One turn of the [while i < len(text)] loop. *)
Definition step (char : ascii) (next : option ascii) (p : SqlParser)
  : SqlParser * bool :=
  match _state p with
  | SEARCH_INSERT => (search_insert char p, false)
  | READ_VALUES => (read_values char p, false)
  | READ_ROW => (read_row char p, false)
  | READ_FIELD => read_field char next p
  end.

(** The loop of [feed] over the text left. *)
Fixpoint scan (text : str) (p : SqlParser) : SqlParser :=
  match text with
  | [] => p
  | char :: rest =>
      let '(p', skipped) := step char (head rest) p in
      if skipped : bool then
        match rest with
        | _ :: rest' => scan rest' p'
        | [] => p'
        end
      else scan rest p'
  end.

(** ** Comment removal *)

(** [line[:comment_idx]] when [--] occurs in the line. *)
Definition cut_line_comment (line : str) : str :=
  match find (txt "--") line with
  | Some comment_idx => take comment_idx line
  | None => line
  end.

(** The loop that runs while both comment markers occur in [result].
    [None]: the loop is still running after [fuel] turns. *)
Fixpoint cut_block_comments (fuel : nat) (result : str) : option str :=
  if contains (txt "/*") result && contains (txt "*/") result then
    match fuel with
    | O => None
    | S fuel' =>
        let start := default 0 (find (txt "/*") result) in
        (* [find] gives -1 when nothing is found, so [end] is 1 *)
        let end_ := match find_from (txt "*/") result start with
                    | Some i => i + 2
                    | None => 1
                    end in
        cut_block_comments fuel' (take start result ++ txt " " ++ drop end_ result)
    end
  else Some result.

(** [_remove_comments]. *)
Definition _remove_comments (text : str) : option str :=
  let lines := split_on newline text in
  let result := join [newline] (map cut_line_comment lines) in
  cut_block_comments (S (length result)) result.

(** [feed]. *)
Definition feed (text : str) (p : SqlParser) : option SqlParser :=
  text ← _remove_comments text; Some (scan text p).

(** [parse_line]: the parser, and the row returned ([None] for [None]). *)
Definition parse_line (line : str) (p : SqlParser)
  : option (SqlParser * option (list str)) :=
  p ← feed line p;
  match rows p with
  | row :: rest => Some (set_rows rest p, Some row)
  | [] => Some (p, None)
  end.

(** ** Batches *)

(** A batch, before it is handed to Arrow: the columns in the order of the
    dictionary, each with its Python values.  (Arrow's typing of the
    columns is left out.) *)
Definition batch := list (str * list pyval).

(** [{col: [] for col in keys}]: a key that is repeated is one key. *)
Fixpoint dict_of_keys (keys : list str) (d : batch) : batch :=
  match keys with
  | [] => d
  | k :: keys' =>
      dict_of_keys keys'
        (if existsb (fun kv => eqb kv.1 k) d then d else d ++ [(k, [])])
  end.

(** [d[key].append(v)]. *)
Definition dict_append (key : str) (v : pyval) (d : batch) : batch :=
  map (fun kv => if eqb kv.1 key then (kv.1, kv.2 ++ [v]) else kv) d.

(** [columns.index(x)]. *)
Fixpoint index_of (x : str) (l : list str) : option nat :=
  match l with
  | [] => None
  | y :: l' => if eqb y x then Some 0 else S <$> index_of x l'
  end.

Section WithDecoder.

Variable json_loads : str -> option Mods.json.

(** The body of [for row in rows] in [_rows_to_batch]. *)
Definition add_row (columns : list str) (row : list str) (data_dict : batch)
  : Mods.result batch :=
  let parsed_values := map parse_value row in
  let parsed_values :=
    parsed_values ++ replicate (length columns - length parsed_values) PNone in
  Mods.bind
    (match index_of (txt "data") columns with
     | Some data_idx =>
         match parsed_values !! data_idx with
         | Some data_str => Mods.derive json_loads data_str
         | None => Mods.ok ([], None)
         end
     | None => Mods.ok ([], None)
     end)
    (fun '(mods_key, speed_mod) =>
       let data_dict :=
         foldl (fun d '(i, col) =>
                  dict_append col (default PNone (parsed_values !! i)) d)
               data_dict (imap (fun i col => (i, col)) columns) in
       let data_dict := dict_append (txt "mods_key") (PStr mods_key) data_dict in
       Mods.ok (dict_append (txt "speed_mod")
                  (match speed_mod with Some s => PStr s | None => PNone end)
                  data_dict)).

Fixpoint add_rows (columns : list str) (rows : list (list str))
         (data_dict : batch) : Mods.result batch :=
  match rows with
  | [] => Mods.ok data_dict
  | row :: rows' =>
      Mods.bind (add_row columns row data_dict) (add_rows columns rows')
  end.

(** [_rows_to_batch] for a non-empty [rows] and a [columns] that is not
    [None], which is how [parse_sql_file] calls it. *)
Definition _rows_to_batch (rows : list (list str)) (columns : list str)
  : Mods.result batch :=
  add_rows columns rows
    (dict_of_keys (columns ++ [txt "mods_key"; txt "speed_mod"]) []).

(** ** The file driver *)

(** What iterating over a text file gives: the lines, each with its line
    end. *)
Fixpoint file_lines (line : str) (content : str) : list str :=
  match content with
  | [] => match line with [] => [] | _ => [line] end
  | c :: content' =>
      if Ascii.eqb c newline then (line ++ [c]) :: file_lines [] content'
      else file_lines (line ++ [c]) content'
  end.

(** How the generator ends. *)
Inductive ending :=
| Exhausted
| NameError
| Error (e : Mods.exn)
| NoReturn.

(** What the consumer of the generator sees: the batches, then the end. *)
Record output := mkOutput {
  batches : list batch;
  ended : ending
}.

(** [cols = columns if columns else parser.columns]. *)
Definition choose_columns (columns : option (list str)) (p : SqlParser)
  : list str :=
  match columns with
  | Some (c :: cs) => c :: cs
  | _ => Scanner.columns p
  end.

(** The [for line in f] loop and what follows it. *)
Fixpoint read_lines (lines : list str) (batch_size : Z)
         (columns : option (list str)) (parser : SqlParser)
         (batch_rows : list (list str)) (yielded : list batch) : output :=
  match lines with
  | [] =>
      match batch_rows with
      | [] => mkOutput yielded Exhausted
      | _ =>
          match _rows_to_batch batch_rows (choose_columns columns parser) with
          | inl b => mkOutput (yielded ++ [b]) Exhausted
          | inr e => mkOutput yielded (Error e)
          end
      end
  | line :: lines' =>
      match parse_line line parser with
      | None => mkOutput yielded NoReturn
      | Some (parser, Some (f :: fs)) =>
          let batch_rows := batch_rows ++ [f :: fs] in
          if (batch_size <=? Z.of_nat (length batch_rows))%Z then
            match _rows_to_batch batch_rows (choose_columns columns parser) with
            | inl b => read_lines lines' batch_size columns parser []
                                  (yielded ++ [b])
            | inr e => mkOutput yielded (Error e)
            end
          else read_lines lines' batch_size columns parser batch_rows yielded
      | Some (parser, _) =>
          read_lines lines' batch_size columns parser batch_rows yielded
      end
  end.

(** [parse_sql_file] on the text of the file.  The function reads the
    clock through the name [time], which its module neither imports nor
    defines (nor [logger], used every 100000 rows): [time_is_bound] tells
    whether the name resolves when the generator starts.  It does in the
    setting the tests of the repository are written for. *)
Definition parse_sql_file (time_is_bound : bool) (content : str)
           (table_name : str) (batch_size : Z) (columns : option (list str))
  : output :=
  if time_is_bound then
    read_lines (file_lines [] content) batch_size columns
               (new_parser table_name) [] []
  else mkOutput [] NameError.

End WithDecoder.

(** Two given characters are different. *)
Ltac char_neq := let H := fresh in intros H; cbv in H; discriminate H.

(** A property of characters holds of every character of a literal. *)
Ltac literal_chars :=
  unfold txt; simpl; repeat (constructor; [char_neq|]); constructor.

(** ** Facts about searching in text *)

Lemma has_prefix2 (x y : ascii) (s : str) :
  has_prefix [x; y] s
  = match s with
    | a :: b :: _ => Ascii.eqb x a && Ascii.eqb y b
    | _ => false
    end.
Proof.
  destruct s as [|a [|b s]]; simpl; [done| |].
  - by rewrite andb_false_r.
  - by rewrite andb_true_r.
Qed.

Lemma find_cons_none (sub : str) (c : ascii) (s : str) :
  find sub (c :: s) = None ->
  has_prefix sub (c :: s) = false /\ find sub s = None.
Proof.
  simpl. destruct (has_prefix sub (c :: s)); [done|].
  by destruct (find sub s).
Qed.

(** The first occurrence of a two-character pattern is where the text
    shows it, when it does not start earlier. *)
Lemma find2_app (x y : ascii) (a rest : str) :
  find [x; y] (a ++ [x]) = None ->
  find [x; y] (a ++ x :: y :: rest) = Some (length a).
Proof.
  induction a as [|c a IH]; intros H.
  - simpl. by rewrite !Ascii.eqb_refl.
  - apply find_cons_none in H as [Hp Hf].
    change ((c :: a) ++ x :: y :: rest) with (c :: (a ++ x :: y :: rest)).
    cbn [find]. rewrite has_prefix2 in *.
    assert (match c :: a ++ x :: y :: rest with
            | a0 :: b :: _ => (x =? a0)%char && (y =? b)%char
            | _ => false
            end = false) as ->.
    { destruct a as [|d a]; simpl in *; done. }
    rewrite (IH Hf). reflexivity.
Qed.

(** A text without the pattern still has none after a character that is
    not the pattern's second one. *)
Lemma find2_snoc (x y z : ascii) (s : str) :
  find [x; y] s = None -> z <> y -> find [x; y] (s ++ [z]) = None.
Proof.
  intros H Hz. induction s as [|c s IH].
  - simpl. by rewrite andb_false_r.
  - apply find_cons_none in H as [Hp Hf].
    change ((c :: s) ++ [z]) with (c :: (s ++ [z])). cbn [find].
    rewrite (IH Hf). rewrite has_prefix2 in *.
    destruct s as [|d s]; simpl in *.
    + destruct (Ascii.eqb_spec y z); [congruence|]. by rewrite andb_false_r.
    + by rewrite Hp.
Qed.

Lemma find2_tail (x y : ascii) (s eol : str) :
  find [x; y] s = None -> eol = [] \/ eol = [newline] -> newline <> y ->
  find [x; y] (s ++ eol) = None.
Proof.
  intros H [-> | ->] Hy; [by rewrite app_nil_r|]. by apply find2_snoc.
Qed.

Lemma contains_false (sub s : str) : find sub s = None -> contains sub s = false.
Proof. unfold contains. by intros ->. Qed.

Lemma contains_true (sub s : str) (i : nat) :
  find sub s = Some i -> contains sub s = true.
Proof. unfold contains. by intros ->. Qed.

Lemma find_from_contains (sub s : str) (n i : nat) :
  find_from sub s n = Some i -> contains sub s = true.
Proof.
  unfold find_from, contains.
  destruct (find sub (drop n s)) as [j|] eqn:E; [intros _|done].
  destruct (find sub s) eqn:E'; [done|]. exfalso.
  revert s E E'. induction n as [|n IH]; intros s E E'.
  - rewrite drop_0 in E. congruence.
  - destruct s as [|c0 s].
    + rewrite drop_nil in E. congruence.
    + apply find_cons_none in E' as [_ E']. simpl in E. eauto.
Qed.

(** ** Lines *)

Lemma split_on_app (sep : ascii) (s t : str) :
  Forall (fun c => c <> sep) s ->
  split_on sep (s ++ sep :: t) = s :: split_on sep t.
Proof.
  induction 1 as [|c s Hc _ IH]; simpl.
  - by rewrite Ascii.eqb_refl.
  - destruct (Ascii.eqb_spec c sep); [done|]. by rewrite IH.
Qed.

Lemma split_on_none (sep : ascii) (s : str) :
  Forall (fun c => c <> sep) s -> split_on sep s = [s].
Proof.
  induction 1 as [|c s Hc _ IH]; simpl; [done|].
  destruct (Ascii.eqb_spec c sep); [done|]. by rewrite IH.
Qed.

(** The line phase of [_remove_comments] on one line, with or without its
    line end. *)
Lemma line_phase (line eol : str) :
  Forall (fun c => c <> newline) line ->
  eol = [] \/ eol = [newline] ->
  join [newline] (map cut_line_comment (split_on newline (line ++ eol)))
  = cut_line_comment line ++ eol.
Proof.
  intros Hl [-> | ->].
  - rewrite app_nil_r, split_on_none by done. simpl. by rewrite app_nil_r.
  - rewrite split_on_app by done. simpl. reflexivity.
Qed.

(** Everything from the first [--] of a line on is cut. *)
Lemma cut_line_comment_app (a b : str) :
  find (txt "--") (a ++ txt "-") = None ->
  cut_line_comment (a ++ txt "--" ++ b) = a.
Proof.
  intros H. unfold cut_line_comment.
  change (a ++ txt "--" ++ b) with (a ++ "-"%char :: "-"%char :: b).
  change (txt "--") with ["-"%char; "-"%char] in *.
  rewrite (find2_app _ _ a b H). by rewrite take_app_length.
Qed.

Lemma cut_line_comment_none (line : str) :
  find (txt "--") line = None -> cut_line_comment line = line.
Proof. unfold cut_line_comment. by intros ->. Qed.

(** ** Inside a string literal *)

(** The parser is reading a field, inside a literal opened by [q]. *)
Definition inside_literal (q : ascii) (p : SqlParser) : Prop :=
  _state p = READ_FIELD /\ in_string p = true /\ string_delimiter p = Some q.

Lemma read_field_inside (q c : ascii) (next : option ascii) (p : SqlParser) :
  inside_literal q p -> c <> q ->
  read_field c next p = (push c p, false).
Proof.
  intros (_ & Hin & Hd) Hc. unfold read_field. rewrite Hin, Hd. simpl.
  rewrite !andb_false_r.
  destruct (Ascii.eqb_spec c squote) as [->|_]; simpl.
  { destruct (Ascii.eqb_spec q squote); [congruence|]. simpl.
    destruct (Ascii.eqb_spec squote dquote); done. }
  destruct (Ascii.eqb_spec c dquote) as [->|_]; simpl.
  { destruct (Ascii.eqb_spec q dquote); [congruence|]. done. }
  done.
Qed.

(** Characters other than the delimiter are added to the field, and
    nothing else changes. *)
Lemma scan_inside (q : ascii) (s : str) : forall p,
  inside_literal q p -> Forall (fun c => c <> q) s ->
  scan s p = set_buffer (buffer p ++ s) p.
Proof.
  induction s as [|c s IH]; intros p Hp Hs.
  - simpl. rewrite app_nil_r. by destruct p.
  - inversion_clear Hs as [|? ? Hc Hs'].
    cbn [scan]. unfold step. destruct Hp as (Hst & Hin & Hd). rewrite Hst.
    rewrite (read_field_inside q c _ p) by done.
    rewrite IH; [|done|done].
    destruct p. unfold push, set_buffer. simpl. by rewrite <- app_assoc.
Qed.

(** C10, as the code has it.  Comment removal is textual and comes before
    the tracking of string literals.  While the parser is inside a literal
    opened by [q], a chunk [a -- b] (one line, with or without its line
    end) leaves the parser inside the literal with only [a] and the line
    end added to the field: what follows [--], a closing quote included,
    is gone, and no row is completed.  Likewise a chunk [a /* b */ c] adds
    [a], one space and [c] to the field. *)
Theorem comments_cut_inside_literals (q : ascii) (p : SqlParser) (eol : str) :
  inside_literal q p -> q = squote \/ q = dquote ->
  eol = [] \/ eol = [newline] ->
  (forall a b,
     Forall (fun c => c <> newline /\ c <> q) a ->
     Forall (fun c => c <> newline) b ->
     find (txt "--") (a ++ txt "-") = None ->
     find (txt "/*") a = None ->
     feed (a ++ txt "--" ++ b ++ eol) p
     = Some (set_buffer (buffer p ++ a ++ eol) p))
  /\ (forall a b c,
        Forall (fun c => c <> newline /\ c <> q) a ->
        Forall (fun c => c <> newline) b ->
        Forall (fun c => c <> newline /\ c <> q) c ->
        find (txt "--") (a ++ txt "/*" ++ b ++ txt "*/" ++ c) = None ->
        find (txt "/*") (a ++ txt "/") = None ->
        find (txt "*/") (txt "/*" ++ b ++ txt "*") = None ->
        find (txt "/*") (a ++ txt " " ++ c) = None ->
        feed (a ++ txt "/*" ++ b ++ txt "*/" ++ c ++ eol) p
        = Some (set_buffer (buffer p ++ a ++ txt " " ++ c ++ eol) p)).
Proof.
  intros Hp Hq Heol.
  assert (Forall (fun c => c <> q) eol) as Heolq.
  { destruct Heol as [-> | ->]; [done|]. constructor; [|done].
    destruct Hq as [-> | ->]; char_neq. }
  assert (forall s, Forall (fun c => c <> newline /\ c <> q) s ->
            Forall (fun c => c <> newline) s /\ Forall (fun c => c <> q) s)
    as Hboth.
  { intros s Hs. split; (eapply Forall_impl; [exact Hs|]); by intros c' [? ?]. }
  split.
  - intros a b [Ha Haq]%Hboth Hb Hdash Hblock.
    assert (Forall (fun c => c <> newline) (a ++ txt "--" ++ b)) as Hline.
    { rewrite !Forall_app. split_and!; [done|literal_chars|done]. }
    unfold feed, _remove_comments.
    replace (a ++ txt "--" ++ b ++ eol) with ((a ++ txt "--" ++ b) ++ eol)
      by (by rewrite <- !app_assoc).
    rewrite line_phase by done. rewrite cut_line_comment_app by done.
    assert (find (txt "/*") (a ++ eol) = None) as Hnone.
    { apply find2_tail; [done|done|char_neq]. }
    cbn [cut_block_comments]. rewrite (contains_false _ _ Hnone). simpl.
    f_equal. apply (scan_inside q); [done|].
    rewrite Forall_app. by split.
  - intros a b c [Ha Haq]%Hboth Hb [Hc Hcq]%Hboth Hdash Hopen Hclose Hrest.
    set (text := a ++ txt "/*" ++ b ++ txt "*/" ++ c).
    assert (Forall (fun c => c <> newline) text) as Hline.
    { unfold text. rewrite !Forall_app.
      split_and!; [done|literal_chars|done|literal_chars|done]. }
    unfold feed, _remove_comments.
    replace (a ++ txt "/*" ++ b ++ txt "*/" ++ c ++ eol) with (text ++ eol)
      by (unfold text; by rewrite <- !app_assoc).
    rewrite line_phase by done. rewrite cut_line_comment_none by done.
    assert (find (txt "/*") (text ++ eol) = Some (length a)) as Hstart.
    { unfold text. rewrite <- !app_assoc. apply (find2_app "/" "*"). exact Hopen. }
    assert (find_from (txt "*/") (text ++ eol) (length a)
            = Some (length a + (2 + length b))) as Hend.
    { unfold find_from, text. rewrite <- !app_assoc, drop_app_length.
      change (txt "/*" ++ b ++ txt "*/" ++ c ++ eol)
        with ((txt "/*" ++ b) ++ "*"%char :: "/"%char :: (c ++ eol)).
      rewrite (find2_app "*" "/").
      - simpl. do 2 f_equal.
      - rewrite <- app_assoc. exact Hclose. }
    assert (contains (txt "*/") (text ++ eol) = true) as Hhas.
    { apply (find_from_contains _ _ _ _ Hend). }
    assert (forall fuel,
              cut_block_comments (S fuel) (text ++ eol)
              = Some (a ++ txt " " ++ c ++ eol)) as Hcut.
    { intros fuel. cbn [cut_block_comments].
      rewrite (contains_true _ _ _ Hstart), Hhas.
      cbn [andb]. cbv zeta. rewrite Hstart. cbn [default id]. rewrite Hend.
      assert (take (length a) (text ++ eol) ++ txt " "
                ++ drop (length a + (2 + length b) + 2) (text ++ eol)
              = a ++ txt " " ++ c ++ eol) as ->.
      { unfold text. rewrite <- !app_assoc, take_app_length. do 2 f_equal.
        change (a ++ txt "/*" ++ b ++ txt "*/" ++ c ++ eol)
          with (a ++ txt "/*" ++ b ++ txt "*/" ++ (c ++ eol)).
        rewrite !(app_assoc _ _ (c ++ eol)).
        apply drop_app_length'. rewrite !length_app. simpl. lia. }
      assert (find (txt "/*") (a ++ txt " " ++ c ++ eol) = None) as Hnone.
      { replace (a ++ txt " " ++ c ++ eol) with ((a ++ txt " " ++ c) ++ eol)
          by (by rewrite <- !app_assoc).
        apply find2_tail; [done|done|char_neq]. }
      destruct fuel; cbn [cut_block_comments];
        by rewrite (contains_false _ _ Hnone). }
    rewrite Hcut. simpl. f_equal. apply (scan_inside q); [done|].
    apply Forall_app_2; [done|].
    constructor; [destruct Hq as [-> | ->]; char_neq | by apply Forall_app_2].
Qed.
(** The parser that has read a statement head, a first field and the
    opening quote of a second one. *)
Definition in_literal : SqlParser :=
  default (new_parser (txt "scores"))
          (feed (txt "INSERT INTO scores VALUES (1,'")
                (new_parser (txt "scores"))).

Lemma comments_cut_inside_literals_witness :
  inside_literal squote in_literal
  /\ feed (txt "a" ++ txt "--" ++ txt "b');" ++ [newline]) in_literal
     = Some (set_buffer (buffer in_literal ++ txt "a" ++ [newline])
                        in_literal)
  /\ feed (txt "a" ++ txt "/*" ++ txt "b');" ++ txt "*/" ++ txt "c"
             ++ [newline]) in_literal
     = Some (set_buffer (buffer in_literal ++ txt "a" ++ txt " "
                           ++ txt "c" ++ [newline]) in_literal).
Proof.
  assert (inside_literal squote in_literal) as Hp
    by (vm_compute; split_and!; reflexivity).
  destruct (comments_cut_inside_literals squote in_literal [newline] Hp
              (or_introl eq_refl) (or_intror eq_refl)) as [Hline Hblock].
  split_and!.
  - exact Hp.
  - apply Hline.
    + repeat (constructor; [split; char_neq|]); constructor.
    + literal_chars.
    + reflexivity.
    + reflexivity.
  - apply Hblock.
    + repeat (constructor; [split; char_neq|]); constructor.
    + literal_chars.
    + repeat (constructor; [split; char_neq|]); constructor.
    + reflexivity.
    + reflexivity.
    + reflexivity.
    + reflexivity.
Defined.

(** C10 as stated fails in its conclusion.  A literal that contains [--]
    is not emitted cut short: its closing quote is cut away with the rest
    of the line, so the parser stays inside the literal and the row is not
    emitted at all; the next statement is swallowed by the literal.  And a
    block comment is not deleted but replaced by one space. *)
Lemma literal_with_dashes_is_not_emitted :
  let p := new_parser (txt "scores") in
  let line1 := txt "INSERT INTO scores VALUES (1,'a--b');" ++ [newline] in
  let line2 := txt "INSERT INTO scores VALUES (2,'c');" ++ [newline] in
  let line3 := txt "INSERT INTO scores VALUES (1,'a/*b*/c');" ++ [newline] in
  rows <$> feed line1 p = Some []
  /\ rows <$> feed line1 p <> Some [[txt "1"; txt "'a'"]]
  /\ in_string <$> feed line1 p = Some true
  /\ buffer <$> feed line1 p = Some (txt "'a" ++ [newline])
  /\ parse_sql_file Mods.json_loads_lite true (line1 ++ line2) (txt "scores")
       100000 None = mkOutput [] Exhausted
  /\ rows <$> feed line3 p = Some [[txt "1"; txt "'a c'"]].
Proof. vm_compute. split_and!; [reflexivity|discriminate|reflexivity..]. Qed.

(** ** Truncated input *)

(** C9 on a statement cut in the middle of its third tuple.  The state
    machine has the two complete rows and leaves the partial one out, but
    [parse_sql_file] emits the first row only: [parse_line] hands over one
    row per line read, and the file has one line.  If the name [time] does
    not resolve, no row is emitted and [NameError] reaches the caller. *)
Theorem truncated_statement_loses_a_complete_row :
  let content := txt "INSERT INTO `scores` (`id`,`pp`) VALUES (1,10),(2,20),(3," in
  rows <$> feed content (new_parser (txt "scores"))
  = Some [[txt "1"; txt "10"]; [txt "2"; txt "20"]]
  /\ parse_sql_file Mods.json_loads_lite true content (txt "scores") 100000 None
     = mkOutput [[(txt "id", [PInt 1]); (txt "pp", [PInt 10]);
                  (txt "mods_key", [PStr []]); (txt "speed_mod", [PNone])]]
                Exhausted
  /\ parse_sql_file Mods.json_loads_lite false content (txt "scores") 100000 None
     = mkOutput [] NameError.
Proof. vm_compute. split_and!; reflexivity. Qed.

(** The truncated statement of the test suite has one tuple per line: its
    complete row is emitted and the partial one is not. *)
Example truncated_statement_of_the_tests :
  parse_sql_file Mods.json_loads_lite true
    (txt "INSERT INTO `scores` (`id`, `data`) VALUES" ++ [newline]
     ++ txtq "(1, '{~mods~: [{~acronym~: ~DT~}]}')," ++ [newline]
     ++ txt "(2, NULL  -- missing closing paren and semicolon")
    (txt "scores") 100000 None
  = mkOutput [[(txt "id", [PInt 1]);
               (txt "data", [PStr (txtq "{~mods~: [{~acronym~: ~DT~}]}")]);
               (txt "mods_key", [PStr (txt "DT")]);
               (txt "speed_mod", [PStr (txt "DT")])]]
             Exhausted.
Proof. vm_compute. reflexivity. Qed.

(** ** Comment removal on its own *)

Lemma split_on_cons (sep : ascii) (s : str) :
  exists piece pieces, split_on sep s = piece :: pieces.
Proof.
  destruct s as [|c s]; simpl; [by eexists _, _|].
  destruct (Ascii.eqb c sep); [by eexists _, _|].
  destruct (split_on sep s); by eexists _, _.
Qed.

(** Round trip of [split] and [join]. *)
Lemma join_split_on (sep : ascii) (s : str) :
  join [sep] (split_on sep s) = s.
Proof.
  induction s as [|c s IH]; [done|]. simpl.
  destruct (split_on_cons sep s) as (piece & pieces & E). rewrite E in *.
  destruct (Ascii.eqb_spec c sep) as [->|Hne].
  - change (join [sep] ([] :: piece :: pieces))
      with (sep :: join [sep] (piece :: pieces)).
    by rewrite IH.
  - rewrite <- IH. by destruct pieces.
Qed.

Lemma find2_none_cons (x y c : ascii) (s : str) :
  find [x; y] (c :: s) = None <->
  (Ascii.eqb x c && startswith y s = false) /\ find [x; y] s = None.
Proof.
  cbn [find]. rewrite has_prefix2. unfold startswith.
  destruct s as [|d s].
  - rewrite andb_false_r. simpl. by split; [|intros _].
  - rewrite (Ascii.eqb_sym d y).
    destruct (Ascii.eqb x c && Ascii.eqb y d).
    + split; [done|]. by intros [? _].
    + destruct (find [x; y] (d :: s)); split; try done. by intros [_ ?].
Qed.

Lemma find2_none_app (x y : ascii) (a b : str) :
  find [x; y] (a ++ b) = None ->
  find [x; y] a = None /\ find [x; y] b = None.
Proof.
  induction a as [|c a IH]; [done|]. simpl app.
  rewrite !find2_none_cons. intros [Hp Hf]. destruct (IH Hf) as [Ha Hb].
  split; [|done]. split; [|done].
  destruct (Ascii.eqb x c); [|done]. simpl in *.
  destruct a as [|d a]; [done|]. exact Hp.
Qed.

(** Two texts without [xy] joined by a character that is neither [x] nor
    [y] have no [xy]. *)
Lemma find2_none_join (x y z : ascii) (a b : str) :
  find [x; y] a = None -> find [x; y] b = None -> z <> x -> z <> y ->
  find [x; y] (a ++ z :: b) = None.
Proof.
  intros Ha Hb Hx Hy. induction a as [|c a IH]; simpl app.
  - apply find2_none_cons. split; [|done].
    destruct (Ascii.eqb_spec x z); [congruence|done].
  - apply find2_none_cons in Ha as [Hp Hf]. apply find2_none_cons.
    split; [|by apply IH].
    destruct (Ascii.eqb x c); [|done]. simpl in *.
    destruct a as [|d a]; simpl in *; [|done].
    destruct (Ascii.eqb_spec z y); [congruence|done].
Qed.

Lemma find2_none_take (x y : ascii) (n : nat) (s : str) :
  find [x; y] s = None -> find [x; y] (take n s) = None.
Proof.
  intros H. rewrite <- (take_drop n s) in H.
  by apply find2_none_app in H as [? _].
Qed.

Lemma find2_none_drop (x y : ascii) (n : nat) (s : str) :
  find [x; y] s = None -> find [x; y] (drop n s) = None.
Proof.
  intros H. rewrite <- (take_drop n s) in H.
  by apply find2_none_app in H as [_ ?].
Qed.

(** Before its first occurrence a pattern does not occur. *)
Lemma find2_before (x y : ascii) (s : str) (i : nat) :
  find [x; y] s = Some i -> find [x; y] (take i s) = None.
Proof.
  revert i. induction s as [|c s IH]; intros i; [done|].
  cbn [find]. destruct (has_prefix [x; y] (c :: s)) eqn:Hp.
  { by intros [= <-]. }
  destruct (find [x; y] s) as [j|] eqn:Hj; [|done]. simpl.
  intros [= <-]. simpl. apply find2_none_cons. split; [|by apply IH].
  rewrite has_prefix2 in Hp. destruct (Ascii.eqb x c); [|done]. simpl in *.
  destruct j as [|j]; [done|].
  destruct s as [|d s]; [done|]. simpl. by rewrite Ascii.eqb_sym.
Qed.

Lemma cut_line_comment_clean (line : str) :
  find (txt "--") (cut_line_comment line) = None.
Proof.
  unfold cut_line_comment.
  destruct (find (txt "--") line) as [i|] eqn:E; [|done].
  by apply (find2_before "-" "-").
Qed.

Lemma join_clean (lines : list str) :
  Forall (fun line => find (txt "--") line = None) lines ->
  find (txt "--") (join [newline] lines) = None.
Proof.
  induction 1 as [|line lines Hl _ IH]; [done|].
  destruct lines as [|l2 ls]; [done|].
  change (join [newline] (line :: l2 :: ls))
    with (line ++ newline :: join [newline] (l2 :: ls)).
  apply (find2_none_join "-" "-"); auto; char_neq.
Qed.

(** The pieces between line ends of a text without [xy] have no [xy]. *)
Lemma split_on_clean (x y sep : ascii) (s : str) :
  find [x; y] s = None ->
  Forall (fun line => find [x; y] line = None) (split_on sep s).
Proof.
  induction s as [|c s IH]; [by repeat constructor|].
  intros [Hp Hf]%find2_none_cons. specialize (IH Hf). simpl.
  destruct (Ascii.eqb_spec c sep) as [->|Hne]; [by constructor|].
  destruct (split_on_cons sep s) as (piece & pieces & E). rewrite E in *.
  inversion_clear IH as [|? ? Hpiece Hpieces]. constructor; [|done].
  apply find2_none_cons. split; [|done].
  destruct (Ascii.eqb x c); [|done]. simpl in *.
  destruct s as [|d s]; simpl in *; [by injection E as <- <-|].
  destruct (Ascii.eqb d sep); [by injection E as <- <-|].
  destruct (split_on sep s); injection E as <- <-; done.
Qed.

(** What the block loop returns has no line comment marker if its input
    has none, and does not have both block markers. *)
Lemma cut_block_comments_clean (fuel : nat) : forall result r,
  cut_block_comments fuel result = Some r ->
  (find (txt "--") result = None -> find (txt "--") r = None)
  /\ contains (txt "/*") r && contains (txt "*/") r = false.
Proof.
  induction fuel as [|fuel IH]; intros result r; cbn [cut_block_comments].
  - destruct (contains (txt "/*") result && contains (txt "*/") result) eqn:E;
      [done|]. by intros [= <-].
  - destruct (contains (txt "/*") result && contains (txt "*/") result) eqn:E;
      [|by intros [= <-]].
    intros Hrun. apply IH in Hrun as [Hdash Hblock]. split; [|done].
    intros Hclean. apply Hdash.
    apply (find2_none_join "-" "-" " ").
    + by apply (find2_none_take "-" "-").
    + by apply (find2_none_drop "-" "-").
    + char_neq.
    + char_neq.
Qed.

(** What [_remove_comments] returns contains no [--], and not both a
    [/*] and a [*/]. *)
Theorem _remove_comments_leaves_no_marker (text r : str) :
  _remove_comments text = Some r ->
  find (txt "--") r = None
  /\ (find (txt "/*") r = None \/ find (txt "*/") r = None).
Proof.
  unfold _remove_comments. intros Hrun.
  apply cut_block_comments_clean in Hrun as [Hdash Hblock]. split.
  - apply Hdash, join_clean, Forall_map, Forall_forall.
    intros line _. apply cut_line_comment_clean.
  - unfold contains in Hblock.
    destruct (find (txt "/*") r); [|by left].
    destruct (find (txt "*/") r); [done|by right].
Qed.

Lemma _remove_comments_leaves_no_marker_witness :
  _remove_comments (txt "a -- b" ++ [newline] ++ txt "c /* d */ e")
  = Some (txt "a " ++ [newline] ++ txt "c   e")
  /\ find (txt "--") (txt "a " ++ [newline] ++ txt "c   e") = None.
Proof.
  split; [reflexivity|].
  exact (proj1 (_remove_comments_leaves_no_marker
                  (txt "a -- b" ++ [newline] ++ txt "c /* d */ e")
                  (txt "a " ++ [newline] ++ txt "c   e") eq_refl)).
Defined.

(** A text without [--] and without a [/* ... */] pair goes through
    comment removal unchanged, line ends included, and [feed] scans it as
    it is. *)
Theorem _remove_comments_without_comments (text : str) :
  find (txt "--") text = None ->
  find (txt "/*") text = None \/ find (txt "*/") text = None ->
  _remove_comments text = Some text
  /\ forall p, feed text p = Some (scan text p).
Proof.
  intros Hdash Hblock.
  assert (_remove_comments text = Some text) as Hsame.
  { unfold _remove_comments.
    assert (map cut_line_comment (split_on newline text)
            = split_on newline text) as ->.
    { rewrite <- (map_id (split_on newline text)) at 2.
      apply map_ext_Forall.
      eapply Forall_impl; [apply (split_on_clean "-" "-" newline text Hdash)|].
      intros line Hl. by apply cut_line_comment_none. }
    rewrite join_split_on. cbn [cut_block_comments]. unfold contains.
    destruct Hblock as [-> | ->]; [done|].
    by destruct (find (txt "/*") text). }
  split; [done|]. intros p. unfold feed. by rewrite Hsame.
Qed.

Lemma _remove_comments_without_comments_witness :
  _remove_comments (txt "(1, 'a-b')," ++ [newline] ++ txt "(2, 'c*/')")
  = Some (txt "(1, 'a-b')," ++ [newline] ++ txt "(2, 'c*/')").
Proof.
  exact (proj1 (_remove_comments_without_comments
                  (txt "(1, 'a-b')," ++ [newline] ++ txt "(2, 'c*/')")
                  eq_refl (or_introl eq_refl))).
Defined.

(** ** A block loop that does not end *)

Lemma find2_all_not_y (x y c : ascii) (s : str) :
  Forall (fun d => d <> y) s -> find [x; y] (c :: s) = None.
Proof.
  intros H. revert c. induction H as [|d s Hd _ IH]; intros c.
  - simpl. by rewrite andb_false_r.
  - apply find2_none_cons. split; [|apply IH]. simpl.
    destruct (Ascii.eqb_spec d y); [done|]. by rewrite andb_false_r.
Qed.

(** The line phase leaves a text without [--] as it is. *)
Lemma line_phase_without_dashes (text : str) :
  find (txt "--") text = None ->
  join [newline] (map cut_line_comment (split_on newline text)) = text.
Proof.
  intros Hdash.
  assert (map cut_line_comment (split_on newline text)
          = split_on newline text) as ->.
  { rewrite <- (map_id (split_on newline text)) at 2.
    apply map_ext_Forall.
    eapply Forall_impl; [apply (split_on_clean "-" "-" newline text Hdash)|].
    intros line Hl. by apply cut_line_comment_none. }
  apply join_split_on.
Qed.

(** On a text that has a closing marker only before its opening marker
    the loop rewrites the text into a longer one of the same kind. *)
Lemma cut_block_comments_diverges (fuel : nat) : forall m,
  Forall (fun c => c <> "*"%char) m ->
  cut_block_comments fuel (txt "*/" ++ m ++ txt "/*") = None.
Proof.
  induction fuel as [|fuel IH]; intros m Hm.
  all: assert (find (txt "/*") (txt "*/" ++ m ++ txt "/*")
               = Some (2 + length m)) as Hstart.
  1,3: change (txt "*/" ++ m ++ txt "/*")
         with (("*"%char :: "/"%char :: m) ++ "/"%char :: "*"%char :: []);
       rewrite (find2_app "/" "*"); [done|];
       apply find2_all_not_y; apply Forall_cons; split; [char_neq|];
       apply Forall_app; split; [done|]; repeat constructor; char_neq.
  all: cbn [cut_block_comments];
       rewrite (contains_true _ _ _ Hstart);
       assert (contains (txt "*/") (txt "*/" ++ m ++ txt "/*") = true) as ->
         by done; cbn [andb].
  - done.
  - rewrite Hstart. cbn [default id].
    assert (find_from (txt "*/") (txt "*/" ++ m ++ txt "/*") (2 + length m)
            = None) as ->.
    { unfold find_from.
      change (txt "*/" ++ m ++ txt "/*")
        with (("*"%char :: "/"%char :: m) ++ txt "/*").
      by rewrite (drop_app_length' _ _ (2 + length m)). }
    change (txt "*/" ++ m ++ txt "/*")
      with (("*"%char :: "/"%char :: m) ++ txt "/*") at 1.
    rewrite (take_app_length' _ _ (2 + length m)) by done.
    change (drop 1 (txt "*/" ++ m ++ txt "/*")) with ("/"%char :: m ++ txt "/*").
    specialize (IH (m ++ txt " /" ++ m)).
    rewrite <- IH.
    + f_equal. simpl. by rewrite <- !app_assoc.
    + rewrite !Forall_app. split_and!; [done| |done].
      repeat constructor; char_neq.
Qed.

(** [feed] does not return on a chunk that has a [*/] and, only after it,
    a [/*]: whatever the number of turns, the loop of [_remove_comments]
    is still running. *)
Theorem feed_never_returns (m : str) :
  Forall (fun c => c <> "*"%char /\ c <> "-"%char) m ->
  (forall fuel, cut_block_comments fuel (txt "*/" ++ m ++ txt "/*") = None)
  /\ forall p, feed (txt "*/" ++ m ++ txt "/*") p = None.
Proof.
  intros Hm.
  assert (Forall (fun c => c <> "*"%char) m) as Hstar.
  { eapply Forall_impl; [exact Hm|]. by intros c [? _]. }
  split; [intros fuel; by apply cut_block_comments_diverges|].
  intros p. unfold feed, _remove_comments.
  rewrite line_phase_without_dashes.
  - by rewrite cut_block_comments_diverges.
  - apply (find2_all_not_y "-" "-"). apply Forall_cons. split; [char_neq|].
    apply Forall_app. split.
    + eapply Forall_impl; [exact Hm|]. by intros c [_ ?].
    + repeat constructor; char_neq.
Qed.

Lemma feed_never_returns_witness :
  feed (txt "*/" ++ txt " x " ++ txt "/*") (new_parser (txt "scores")) = None.
Proof.
  apply (proj2 (feed_never_returns (txt " x ")
                  ltac:(repeat constructor; char_neq))).
Defined.

(** ** What the state machine collects *)

(** No row and no field that the parser holds is empty. *)
Definition tidy (p : SqlParser) : Prop :=
  Forall (fun row => row <> [] /\ Forall (fun f : str => f <> []) row) (rows p)
  /\ Forall (fun f : str => f <> []) (current_row p).

Lemma commit_field_tidy (p : SqlParser) :
  tidy p -> tidy (commit_field p) /\ rows (commit_field p) = rows p.
Proof.
  intros [Hr Hc]. unfold commit_field, tidy.
  destruct (strip (buffer p)) as [|c f] eqn:E; simpl; [done|].
  split; [|done]. split; [done|]. apply Forall_app. split; [done|].
  by repeat constructor.
Qed.

Lemma commit_row_tidy (p : SqlParser) :
  tidy p ->
  tidy (commit_row p)
  /\ (rows (commit_row p) = rows p
      \/ exists row, rows (commit_row p) = rows p ++ [row]).
Proof.
  intros [Hr Hc]. unfold commit_row, tidy.
  destruct (current_row p) as [|f row] eqn:E; simpl; [rewrite E; by auto|].
  split; [|by eauto]. split; [|done].
  apply Forall_app. split; [done|].
  constructor; [split; [done|exact Hc]|constructor].
Qed.

Lemma tidy_same (p p' : SqlParser) :
  rows p' = rows p -> current_row p' = current_row p -> tidy p -> tidy p'.
Proof. unfold tidy. by intros -> ->. Qed.

Lemma commit_field_of (p q : SqlParser) :
  tidy p -> rows q = rows p -> current_row q = current_row p ->
  tidy (commit_field q) /\ rows (commit_field q) = rows p.
Proof.
  intros Ht Hr Hc. destruct (commit_field_tidy q) as [T R].
  - by apply (tidy_same p).
  - split; [done|congruence].
Qed.

Lemma commit_row_of (p q : SqlParser) :
  tidy q -> rows q = rows p ->
  tidy (commit_row q)
  /\ (rows (commit_row q) = rows p
      \/ exists row, rows (commit_row q) = rows p ++ [row]).
Proof.
  intros Ht Hr. destruct (commit_row_tidy q Ht) as [T R].
  split; [done|]. by rewrite <- Hr.
Qed.

(** One turn of the loop keeps what was collected and adds at most one
    row, which is not empty and has no empty field. *)
Lemma step_tidy (char : ascii) (next : option ascii) (p : SqlParser) :
  tidy p ->
  tidy (step char next p).1
  /\ (rows (step char next p).1 = rows p
      \/ exists row, rows (step char next p).1 = rows p ++ [row]).
Proof.
  intros Ht. unfold step. destruct (_state p).
  - unfold search_insert. destruct Ht.
    repeat match goal with
           | |- context [if ?b then _ else _] => destruct b
           | |- context [match ?o with Some _ => _ | None => _ end] =>
               destruct o
           end; unfold tidy; simpl; auto.
  - unfold read_values, end_statement. destruct Ht.
    repeat match goal with
           | |- context [if ?b then _ else _] => destruct b
           end; unfold tidy; simpl; auto.
  - unfold read_row.
    repeat match goal with
           | |- context [if ?b then _ else _] => destruct b
           end.
    all: try (destruct Ht; unfold end_statement, push, tidy; simpl; by auto).
    + simpl. destruct (commit_field_of p (set_paren_depth (paren_depth p - 1) p))
        as [T R]; try done.
      by apply commit_row_of.
    + simpl. destruct (commit_field_of p p) as [T R]; try done.
      split; [by apply (tidy_same (commit_field p))|]. by left.
  - unfold read_field.
    repeat match goal with
           | |- context [if ?b then _ else _] => destruct b
           | |- context [match next with Some _ => _ | None => _ end] =>
               destruct next
           end.
    all: try (destruct Ht; unfold end_statement, push, tidy; simpl; by auto).
    + simpl. destruct (commit_field_of p (set_paren_depth (paren_depth p - 1) p))
        as [T R]; try done.
      apply commit_row_of; [|done].
      by apply (tidy_same (commit_field
                             (set_paren_depth (paren_depth p - 1) p))).
    + simpl. destruct (commit_field_of p p) as [T R]; try done.
      split; [done|]. by left.
Qed.

(** The loop of [feed] never drops or reorders a row it has collected,
    and never collects an empty row or an empty field. *)
Lemma scan_tidy_upto (n : nat) : forall text p,
  length text <= n -> tidy p ->
  tidy (scan text p) /\ rows p `prefix_of` rows (scan text p).
Proof.
  induction n as [|n IH]; intros text p Hn Ht.
  { destruct text; [done|simpl in Hn; lia]. }
  destruct text as [|char rest]; [done|]. cbn [scan]. simpl in Hn.
  destruct (step_tidy char (head rest) p Ht) as [T R].
  destruct (step char (head rest) p) as [p' skipped]. simpl in T, R.
  assert (rows p `prefix_of` rows p') as Hpre.
  { destruct R as [-> | [row ->]]; [done|]. by apply prefix_app_r. }
  destruct skipped.
  - destruct rest as [|c2 rest']; [done|]. simpl in Hn.
    destruct (IH rest' p' ltac:(lia) T) as [T' P'].
    split; [done|]. by etrans.
  - destruct (IH rest p' ltac:(lia) T) as [T' P'].
    split; [done|]. by etrans.
Qed.

Lemma scan_tidy (text : str) (p : SqlParser) :
  tidy p -> tidy (scan text p) /\ rows p `prefix_of` rows (scan text p).
Proof. by apply (scan_tidy_upto (length text)). Qed.

(** Whatever is fed to a parser, the rows it had collected stay at the
    front of its row list in their order, and every row it has collected
    is non-empty and made of non-empty fields: a field that is blank
    between two commas is dropped, not kept as an empty value. *)
Theorem feed_keeps_rows (text : str) (p p' : SqlParser) :
  tidy p -> feed text p = Some p' ->
  rows p `prefix_of` rows p'
  /\ Forall (fun row => row <> [] /\ Forall (fun f : str => f <> []) row)
            (rows p').
Proof.
  intros Ht. unfold feed.
  destruct (_remove_comments text) as [t|]; [|done]. simpl. intros [= <-].
  destruct (scan_tidy t p Ht) as [[Hr _] Hp]. by split.
Qed.

Lemma new_parser_tidy (table_name : str) : tidy (new_parser table_name).
Proof. by split. Qed.

(** A blank field between two commas is dropped: the tuple with three
    positions gives a row of two fields. *)
Lemma feed_keeps_rows_witness :
  let p := new_parser (txt "scores") in
  let text := txt "INSERT INTO scores VALUES (1,,2);" in
  rows <$> feed text p = Some [[txt "1"; txt "2"]]
  /\ forall p', feed text p = Some p' ->
       Forall (fun row => row <> [] /\ Forall (fun f : str => f <> []) row)
              (rows p').
Proof.
  split; [reflexivity|].
  intros p' E.
  exact (proj2 (feed_keeps_rows (txt "INSERT INTO scores VALUES (1,,2);")
                  (new_parser (txt "scores")) p'
                  (new_parser_tidy (txt "scores")) E)).
Defined.

(** ** Batches are the rows, transposed *)

(** The dictionary with the column names [cols] in order, column number
    [i] holding the values [F i]. *)
Definition table_of (cols : list str) (F : nat -> list pyval) : batch :=
  imap (fun i col => (col, F i)) cols.

Lemma table_of_cons (col : str) (cols : list str) (F : nat -> list pyval) :
  table_of (col :: cols) F = (col, F 0) :: table_of cols (fun i => F (S i)).
Proof. reflexivity. Qed.

Lemma table_of_ext (cols : list str) (F G : nat -> list pyval) :
  (forall i, i < length cols -> F i = G i) -> table_of cols F = table_of cols G.
Proof.
  intros H. apply imap_ext. intros i col Hi. simpl.
  rewrite H; [done|]. by apply lookup_lt_Some in Hi.
Qed.

Lemma table_of_keys (cols : list str) (F : nat -> list pyval) :
  map fst (table_of cols F) = cols.
Proof.
  revert F. induction cols as [|col cols IH]; intros F; [done|].
  rewrite table_of_cons. simpl. by rewrite IH.
Qed.

Lemma eqb_false (a b : str) : a <> b -> eqb a b = false.
Proof. intros H. unfold eqb. by apply bool_decide_eq_false. Qed.

Lemma eqb_true (a : str) : eqb a a = true.
Proof. unfold eqb. by apply bool_decide_eq_true. Qed.

Lemma dict_append_other (key : str) (v : pyval) (d : batch) :
  key ∉ map fst d -> dict_append key v d = d.
Proof.
  intros H. unfold dict_append. rewrite <- (map_id d) at 2.
  apply map_ext_Forall, Forall_forall. intros [k vs] Hin. simpl.
  rewrite eqb_false; [done|]. intros ->. apply H.
  apply list_elem_of_fmap. by exists (key, vs).
Qed.

Lemma dict_append_app (key : str) (v : pyval) (d1 d2 : batch) :
  dict_append key v (d1 ++ d2) = dict_append key v d1 ++ dict_append key v d2.
Proof. apply map_app. Qed.

(** Appending one value to every column, column by column. *)
Lemma append_cells (cols : list str) :
  forall (g : nat -> nat) (v : nat -> pyval) (pre rest : batch)
         (F : nat -> list pyval),
    NoDup cols ->
    (forall col, col ∈ cols -> (col ∉ map fst pre) /\ (col ∉ map fst rest)) ->
    foldl (fun d '(i, col) => dict_append col (v i) d)
          (pre ++ table_of cols F ++ rest)
          (imap (fun i col => (g i, col)) cols)
    = pre ++ table_of cols (fun i => F i ++ [v (g i)]) ++ rest.
Proof.
  induction cols as [|col cols IH]; intros g v pre rest F Hnd Hout; [done|].
  apply NoDup_cons in Hnd as [Hcol Hnd].
  destruct (Hout col ltac:(left)) as [Hpre Hrest].
  rewrite imap_cons. cbn [foldl]. rewrite !table_of_cons.
  rewrite !dict_append_app, (dict_append_other col _ pre) by done.
  rewrite (dict_append_other col _ rest) by done.
  change (dict_append col (v (g 0))
            ((col, F 0) :: table_of cols (fun i => F (S i))))
    with ((if eqb col col then (col, F 0 ++ [v (g 0)]) else (col, F 0))
          :: dict_append col (v (g 0)) (table_of cols (fun i => F (S i)))).
  rewrite eqb_true, dict_append_other by (by rewrite table_of_keys).
  specialize (IH (g ∘ S) v (pre ++ [(col, F 0 ++ [v (g 0)])]) rest
                 (fun i => F (S i)) Hnd).
  rewrite <- !app_assoc in IH. etrans; [apply IH|done].
  intros c Hc. destruct (Hout c ltac:(by right)) as [H1 H2].
  split; [|done]. rewrite map_app. simpl. intros Hin.
  apply elem_of_app in Hin as [Hin|Hin]; [done|].
  apply list_elem_of_singleton in Hin as ->. done.
Qed.

Lemma dict_of_keys_fresh (keys : list str) : forall d : batch,
  NoDup keys -> (forall k, k ∈ keys -> k ∉ map fst d) ->
  dict_of_keys keys d = d ++ map (fun k => (k, [])) keys.
Proof.
  induction keys as [|k keys IH]; intros d Hnd Hout; simpl.
  { by rewrite app_nil_r. }
  apply NoDup_cons in Hnd as [Hk Hnd].
  assert (existsb (fun kv : str * list pyval => eqb kv.1 k) d = false) as ->.
  { apply not_true_is_false. intros Hex.
    apply existsb_exists in Hex as ([k' vs] & Hin & Heq). simpl in Heq.
    unfold eqb in Heq. apply bool_decide_eq_true in Heq as ->.
    apply (Hout k ltac:(left)). apply list_elem_of_fmap.
    exists (k, vs). split; [done|]. by apply list_elem_of_In. }
  rewrite IH; [by rewrite <- app_assoc|done|].
  intros k' Hk'. rewrite map_app. simpl. intros Hin.
  apply elem_of_app in Hin as [Hin|Hin].
  - by apply (Hout k' ltac:(by right)).
  - apply list_elem_of_singleton in Hin as ->. done.
Qed.

Lemma table_of_empty (cols : list str) :
  map (fun k => (k, [])) cols = table_of cols (fun _ => []).
Proof.
  unfold table_of. induction cols as [|c cols IH]; [done|].
  rewrite imap_cons. simpl. by rewrite IH.
Qed.

Lemma index_of_lt (x : str) (l : list str) (i : nat) :
  index_of x l = Some i -> i < length l.
Proof.
  revert i. induction l as [|y l IH]; intros i; simpl; [done|].
  destruct (eqb y x).
  - intros [= <-]. lia.
  - destruct (index_of x l) as [j|]; [|done]. intros [= <-].
    specialize (IH j eq_refl). lia.
Qed.

Lemma foldl_ext_elem {A B} (f g : A -> B -> A) (l : list B) : forall a,
  (forall a x, x ∈ l -> f a x = g a x) -> foldl f a l = foldl g a l.
Proof.
  induction l as [|x l IH]; intros a H; simpl; [done|].
  rewrite H by left. apply IH. intros a' y Hy. apply H. by right.
Qed.

Section Transposed.

Variable json_loads : str -> option Mods.json.

(** The value a row gives to column number [i]: its field, read by
    [parse_value], or [None] where the row is too short. *)
Definition cell (i : nat) (row : list str) : pyval :=
  default PNone (parse_value <$> row !! i).

(** The derived pair of a row: read off its [data] column, if there is
    one. *)
Definition derived_of (columns : list str) (row : list str)
  : Mods.result (str * option str) :=
  match index_of (txt "data") columns with
  | Some data_idx => Mods.derive json_loads (cell data_idx row)
  | None => Mods.ok ([], None)
  end.

Definition speed_value (speed_mod : option str) : pyval :=
  match speed_mod with Some s => PStr s | None => PNone end.

Lemma padded_lookup (columns row : list str) (i : nat) :
  i < length columns ->
  (map parse_value row
     ++ replicate (length columns - length (map parse_value row)) PNone) !! i
  = Some (cell i row).
Proof.
  intros Hi. unfold cell. rewrite length_map.
  destruct (decide (i < length row)) as [Hlt|Hge].
  - rewrite lookup_app_l by (by rewrite length_map).
    change (map parse_value row) with (parse_value <$> row).
    rewrite list_lookup_fmap.
    destruct (lookup_lt_is_Some_2 row i Hlt) as [f ->]. done.
  - rewrite lookup_app_r by (rewrite length_map; lia).
    rewrite length_map, (lookup_ge_None_2 row i) by lia. simpl.
    apply lookup_replicate_2. lia.
Qed.

Lemma add_row_derived (columns row : list str) (d : batch) :
  add_row json_loads columns row d
  = Mods.bind (derived_of columns row)
      (fun '(mods_key, speed_mod) =>
         Mods.ok
           (dict_append (txt "speed_mod") (speed_value speed_mod)
              (dict_append (txt "mods_key") (PStr mods_key)
                 (foldl (fun d '(i, col) => dict_append col (cell i row) d)
                    d (imap (fun i col => (i, col)) columns))))).
Proof.
  unfold add_row, derived_of. cbv zeta.
  assert (forall d0 : batch,
    foldl (fun d '(i, col) =>
             dict_append col
               (default PNone
                  ((map parse_value row
                      ++ replicate (length columns
                                    - length (map parse_value row)) PNone)
                     !! i)) d)
          d0 (imap (fun i col => (i, col)) columns)
    = foldl (fun d '(i, col) => dict_append col (cell i row) d)
          d0 (imap (fun i col => (i, col)) columns)) as Hfold.
  { intros d0. apply foldl_ext_elem. intros d1 [i col] Hin.
    apply elem_of_lookup_imap in Hin as (i' & col' & [= -> ->] & Hcol).
    rewrite padded_lookup; [done|]. by apply lookup_lt_Some in Hcol. }
  rewrite Hfold.
  destruct (index_of (txt "data") columns) as [data_idx|] eqn:Hidx; [|done].
  rewrite padded_lookup by (by apply index_of_lt in Hidx). done.
Qed.

Lemma add_row_table (columns row : list str) (F : nat -> list pyval)
      (keys speeds : list pyval) (mods_key : str) (speed_mod : option str) :
  NoDup (columns ++ [txt "mods_key"; txt "speed_mod"]) ->
  derived_of columns row = inl (mods_key, speed_mod) ->
  add_row json_loads columns row
    (table_of columns F
       ++ [(txt "mods_key", keys); (txt "speed_mod", speeds)])
  = inl (table_of columns (fun i => F i ++ [cell i row])
           ++ [(txt "mods_key", keys ++ [PStr mods_key]);
               (txt "speed_mod", speeds ++ [speed_value speed_mod])]).
Proof.
  intros Hnd Hd. rewrite add_row_derived, Hd. simpl.
  apply NoDup_app in Hnd as (Hcols & Hout & Htwo).
  pose proof (append_cells columns id (fun i => cell i row) []
                [(txt "mods_key", keys); (txt "speed_mod", speeds)] F Hcols)
    as Happ.
  simpl in Happ. rewrite Happ.
  2:{ intros col Hcol. split; [apply not_elem_of_nil|]. by apply Hout. }
  assert (txt "mods_key" <> txt "speed_mod") as Hne.
  { apply NoDup_cons in Htwo as [Hne _]. intros E. apply Hne. rewrite E.
    left. }
  assert (forall G, txt "mods_key" ∉ map fst (table_of columns G)) as Hk.
  { intros G. rewrite table_of_keys. intros Hin. apply (Hout _ Hin). left. }
  assert (forall G, txt "speed_mod" ∉ map fst (table_of columns G)) as Hs.
  { intros G. rewrite table_of_keys. intros Hin. apply (Hout _ Hin).
    right. left. }
  rewrite (dict_append_app (txt "mods_key")).
  rewrite (dict_append_other (txt "mods_key") _ (table_of _ _)) by apply Hk.
  rewrite (dict_append_app (txt "speed_mod")).
  rewrite (dict_append_other (txt "speed_mod") _ (table_of _ _)) by apply Hs.
  unfold Mods.ok. do 2 f_equal.
Qed.

Lemma add_rows_table (columns : list str) (rows : list (list str))
      (ds : list (str * option str)) :
  NoDup (columns ++ [txt "mods_key"; txt "speed_mod"]) ->
  Forall2 (fun row d => derived_of columns row = inl d) rows ds ->
  forall (F : nat -> list pyval) (keys speeds : list pyval),
    add_rows json_loads columns rows
      (table_of columns F
         ++ [(txt "mods_key", keys); (txt "speed_mod", speeds)])
    = inl (table_of columns (fun i => F i ++ map (cell i) rows)
             ++ [(txt "mods_key", keys ++ map (fun d => PStr d.1) ds);
                 (txt "speed_mod",
                  speeds ++ map (fun d => speed_value d.2) ds)]).
Proof.
  intros Hnd Hall.
  induction Hall as [|row [mods_key speed_mod] rows ds Hrow _ IH];
    intros F keys speeds; simpl.
  - rewrite !app_nil_r. unfold Mods.ok. do 2 f_equal.
    apply table_of_ext. intros i _. by rewrite app_nil_r.
  - rewrite (add_row_table _ _ _ _ _ mods_key speed_mod) by done.
    simpl. rewrite IH. rewrite <- !app_assoc. simpl. do 2 f_equal.
    apply table_of_ext. intros i _. by rewrite <- app_assoc.
Qed.

(** What [_rows_to_batch] hands to Arrow is the rows, transposed: under
    column number [i] the field number [i] of every row, read by
    [parse_value], with [None] where a row is too short; a field beyond the
    columns is dropped; the two derived columns come last. *)
Theorem _rows_to_batch_transposes (columns : list str)
        (rows : list (list str)) (ds : list (str * option str)) :
  rows <> [] ->
  NoDup (columns ++ [txt "mods_key"; txt "speed_mod"]) ->
  Forall2 (fun row d => derived_of columns row = inl d) rows ds ->
  _rows_to_batch json_loads rows columns
  = inl (table_of columns (fun i => map (cell i) rows)
           ++ [(txt "mods_key", map (fun d => PStr d.1) ds);
               (txt "speed_mod", map (fun d => speed_value d.2) ds)]).
Proof.
  intros _ Hnd Hall. unfold _rows_to_batch.
  rewrite dict_of_keys_fresh; [|done|intros k _; apply not_elem_of_nil].
  simpl. rewrite map_app, table_of_empty. simpl.
  by rewrite (add_rows_table columns rows ds Hnd Hall).
Qed.

(** One row whose [data] cannot be read loses the batch: the exception of
    the first such row leaves [_rows_to_batch], whatever the rows before
    and after it hold. *)
Theorem _rows_to_batch_raises (columns : list str) (rows : list (list str))
        (row : list str) (rest : list (list str)) (e : Mods.exn) :
  Forall (fun r => exists d, derived_of columns r = inl d) rows ->
  derived_of columns row = inr e ->
  _rows_to_batch json_loads (rows ++ row :: rest) columns = inr e.
Proof.
  intros Hall Hrow. unfold _rows_to_batch.
  generalize (dict_of_keys (columns ++ [txt "mods_key"; txt "speed_mod"]) []).
  induction Hall as [|r rows [[k s] Hr] _ IH]; intros d; simpl.
  - by rewrite add_row_derived, Hrow.
  - rewrite add_row_derived, Hr. simpl. apply IH.
Qed.

End Transposed.

(** Two columns and three rows: a full row, a short one, and one with a
    field too many. *)
Definition short_and_long_rows : list (list str) :=
  [ [txt "1"; squote :: txtq "{~mods~:[{~acronym~:~HR~},{~acronym~:~DT~}]}"
                ++ [squote]];
    [txt "2"];
    [txt "3"; txt "NULL"; txt "9"] ].

Lemma _rows_to_batch_transposes_witness :
  _rows_to_batch Mods.json_loads_lite short_and_long_rows
    [txt "id"; txt "data"]
  = inl [ (txt "id", [PInt 1; PInt 2; PInt 3]);
          (txt "data",
           [PStr (txtq "{~mods~:[{~acronym~:~HR~},{~acronym~:~DT~}]}");
            PNone; PNone]);
          (txt "mods_key", [PStr (txt "DT,HR"); PStr []; PStr []]);
          (txt "speed_mod", [PStr (txt "DT"); PNone; PNone]) ].
Proof.
  apply (_rows_to_batch_transposes Mods.json_loads_lite
           [txt "id"; txt "data"] short_and_long_rows
           [(txt "DT,HR", Some (txt "DT")); ([], None); ([], None)]).
  - done.
  - apply (bool_decide_unpack _). vm_compute. reflexivity.
  - repeat constructor.
Defined.

Lemma _rows_to_batch_raises_witness :
  _rows_to_batch Mods.json_loads_lite
    ([[txt "1"; txt "NULL"]] ++ [txt "2"; txt "'[1]'"] :: [[txt "3"]])
    [txt "id"; txt "data"]
  = inr Mods.AttributeError.
Proof.
  apply (_rows_to_batch_raises Mods.json_loads_lite).
  - repeat constructor. eexists. vm_compute. reflexivity.
  - vm_compute. reflexivity.
Defined.

(** ** One row for each line *)

Section OneRowPerLine.

Variable json_loads : str -> option Mods.json.

(** [b] is the batch of the rows [rows], for some list of columns. *)
Definition batch_of (rows : list (list str)) (b : batch) : Prop :=
  exists columns, _rows_to_batch json_loads rows columns = inl b.

(** The rows behind the batches: full chunks, and at most one that is not
    full at the end. *)
Definition chunked (full_size : Z) (chunks : list (list (list str))) : Prop :=
  exists full rest,
    chunks = full ++ rest
    /\ Forall (fun rows => Z.of_nat (length rows) = full_size) full
    /\ (rest = []
        \/ exists rows, rest = [rows] /\ rows <> []
                        /\ (Z.of_nat (length rows) <= full_size)%Z).

Lemma read_lines_chunks (batch_size : Z) (columns : option (list str))
      (lines : list str) :
  forall (parser : SqlParser) (batch_rows : list (list str))
         (yielded : list batch) (chunks : list (list (list str))),
    Forall2 batch_of chunks yielded ->
    Forall (fun rows => Z.of_nat (length rows) = Z.max 1 batch_size) chunks ->
    (Z.of_nat (length batch_rows) < Z.max 1 batch_size)%Z ->
    exists chunks',
      Forall2 batch_of chunks'
        (batches (read_lines json_loads lines batch_size columns parser
                             batch_rows yielded))
      /\ chunked (Z.max 1 batch_size) chunks'
      /\ length (concat chunks')
         <= length (concat chunks) + length batch_rows + length lines.
Proof.
  induction lines as [|line lines IH];
    intros parser batch_rows yielded chunks Hy Hfull Hlen.
  - cbn [read_lines]. destruct batch_rows as [|row batch_rows'] eqn:Erows.
    { exists chunks. split; [done|]. split; [|simpl; lia].
      exists chunks, []. rewrite app_nil_r. auto. }
    rewrite <- Erows in *.
    destruct (_rows_to_batch json_loads batch_rows _) as [b|e] eqn:Eb.
    + exists (chunks ++ [batch_rows]). cbn [batches]. split_and!.
      * apply Forall2_app; [done|]. constructor; [|constructor]. by eexists.
      * exists chunks, [batch_rows]. split_and!; [done|done|]. right.
        exists batch_rows. split_and!; [done|by rewrite Erows|lia].
      * rewrite concat_app, length_app. simpl. rewrite app_nil_r. lia.
    + exists chunks. split; [done|]. split; [|lia].
      exists chunks, []. rewrite app_nil_r. auto.
  - cbn [read_lines].
    destruct (parse_line line parser) as [[parser' [[|f fs]|]]|].
    + destruct (IH parser' batch_rows yielded chunks Hy Hfull Hlen)
        as (chunks' & H1 & H2 & H3).
      exists chunks'. split_and!; [done|done|simpl; lia].
    + cbv zeta.
      destruct (batch_size <=? Z.of_nat (length (batch_rows ++ [f :: fs])))%Z
        eqn:Efull.
      * apply Z.leb_le in Efull. rewrite length_app in Efull. simpl in Efull.
        destruct (_rows_to_batch json_loads _ _) as [b|e] eqn:Eb.
        -- destruct (IH parser' [] (yielded ++ [b])
                        (chunks ++ [batch_rows ++ [f :: fs]]))
             as (chunks' & H1 & H2 & H3).
           ++ apply Forall2_app; [done|]. constructor; [|constructor].
              by eexists.
           ++ apply Forall_app. split; [done|]. constructor; [|constructor].
              rewrite length_app. simpl. lia.
           ++ simpl. lia.
           ++ exists chunks'. split_and!; [done|done|].
              rewrite concat_app, length_app in H3. simpl in H3.
              rewrite app_nil_r, length_app in H3. simpl in *. lia.
        -- exists chunks. split; [done|]. split; [|lia].
           exists chunks, []. rewrite app_nil_r. auto.
      * apply Z.leb_gt in Efull. rewrite length_app in Efull. simpl in Efull.
        destruct (IH parser' (batch_rows ++ [f :: fs]) yielded chunks Hy Hfull)
          as (chunks' & H1 & H2 & H3).
        -- rewrite length_app. simpl. lia.
        -- exists chunks'. split_and!; [done|done|].
           rewrite length_app in H3. simpl in *. lia.
    + destruct (IH parser' batch_rows yielded chunks Hy Hfull Hlen)
        as (chunks' & H1 & H2 & H3).
      exists chunks'. split_and!; [done|done|simpl; lia].
    + exists chunks. split; [done|]. split; [|lia].
      exists chunks, []. rewrite app_nil_r. auto.
Qed.

(** [parse_sql_file] takes at most one row from each line of the file: the
    batches it yields are the batches of chunks of rows that together hold
    no more rows than the file has lines.  Every chunk but the last holds
    [batch_size] rows (one row, for a [batch_size] below one); the last
    one, if it is not full, holds fewer and at least one. *)
Theorem parse_sql_file_one_row_per_line (time_is_bound : bool)
        (content table_name : str) (batch_size : Z)
        (columns : option (list str)) :
  exists chunks,
    Forall2 batch_of chunks
      (batches (parse_sql_file json_loads time_is_bound content table_name
                               batch_size columns))
    /\ chunked (Z.max 1 batch_size) chunks
    /\ length (concat chunks) <= length (file_lines [] content).
Proof.
  unfold parse_sql_file. destruct time_is_bound.
  - destruct (read_lines_chunks batch_size columns (file_lines [] content)
                (new_parser table_name) [] [] [])
      as (chunks & H1 & H2 & H3); [constructor|constructor|simpl; lia|].
    exists chunks. split_and!; [done|done|simpl in H3; lia].
  - exists []. split; [constructor|]. split; [|simpl; lia].
    exists [], []. auto.
Qed.

End OneRowPerLine.

End Scanner.

(* ===================================================================== *)
(** * Bulk scanner ([pipelines/sql_parser_fast.py])                       *)
(* ===================================================================== *)

Module Fast.
Import Py Tokenizer Regex.

(** ** The patterns *)

(** [VALUES_PATTERN], compiled with IGNORECASE and DOTALL: INSERT, white
    space, INTO, white space, an optional quote, one or more word
    characters, an optional quote, white space, an optional column list in
    parentheses followed by white space, VALUES, white space, the group:
    one or more characters, as few as possible, and then a semicolon or
    the end of the text. *)
Definition VALUES_PATTERN : regex :=
  Cat (Lit (txt "INSERT")) (Cat (Plus true Space)
  (Cat (Lit (txt "INTO")) (Cat (Plus true Space)
  (Cat (Opt Scanner.quotes) (Cat (Plus true Word) (Cat (Opt Scanner.quotes)
  (Cat (Plus true Space)
  (Cat (Opt (Cat (Chr "(") (Cat (Plus true Scanner.not_close)
                           (Cat (Chr ")") (Plus true Space)))))
  (Cat (Lit (txt "VALUES")) (Cat (Plus true Space)
  (Cat (Group (Plus false Any)) (Alt (Chr ";") Eol)))))))))))).

(** [TUPLE_PATTERN], compiled with DOTALL: an opening parenthesis, the
    group, a closing parenthesis.  The group is one or more characters
    other than a closing parenthesis, then any number of times: a
    parenthesised run of such characters and a run of such characters. *)
Definition TUPLE_PATTERN : regex :=
  Cat (Chr "(")
  (Cat (Group (Cat (Plus true Scanner.not_close)
                   (Star true (Cat (Chr "(")
                              (Cat (Star true Scanner.not_close)
                              (Cat (Chr ")") (Star true Scanner.not_close)))))))
       (Chr ")")).

(** ** Values *)

(** [parse_value_fast]. *)
Definition parse_value_fast (value_str : str) : pyval :=
  let value_str := strip value_str in
  if bool_decide (value_str = []) || eqb (upper value_str) (txt "NULL")
  then PNone
  else if (startswith squote value_str && endswith squote value_str)
          || (startswith dquote value_str && endswith dquote value_str)
  then
    match value_str with
    | quote_char :: _ =>
        let content := inner value_str in
        PStr (replace [quote_char; quote_char] [quote_char] content)
    | [] => PNone
    end
  else
    match int_of_str value_str with
    | Some z => PInt z
    | None => if is_float value_str then PFloat value_str else PStr value_str
    end.

(** ** Splitting a tuple into fields *)

(** The variables of the loop over the characters of a tuple. *)
Record splitter := mkSplitter {
  fields : list str;
  current_field : str;
  in_string : bool;
  string_char : option ascii;
  paren_depth : Z
}.

(** [current_field[-1] == "\\"], for a [current_field] that is not empty. *)
Definition ends_with_backslash (s : str) : bool :=
  match last s with
  | Some c => Ascii.eqb c backslash
  | None => false
  end.

(** [char == string_char]. *)
Definition is_string_char (char : ascii) (string_char : option ascii) : bool :=
  match string_char with
  | Some q => Ascii.eqb char q
  | None => false
  end.

(** The body of [for char in tuple_str]. *)
Definition split_char (st : splitter) (char : ascii) : splitter :=
  let added := current_field st ++ [char] in
  if (Ascii.eqb char squote || Ascii.eqb char dquote) && negb (in_string st)
  then mkSplitter (fields st) added true (Some char) (paren_depth st)
  else if is_string_char char (string_char st) && in_string st then
    if ends_with_backslash (current_field st)
    then mkSplitter (fields st) added (in_string st) (string_char st)
                    (paren_depth st)
    else mkSplitter (fields st) added false None (paren_depth st)
  else if Ascii.eqb char "(" && negb (in_string st)
  then mkSplitter (fields st) added (in_string st) (string_char st)
                  (paren_depth st + 1)
  else if Ascii.eqb char ")" && negb (in_string st)
  then mkSplitter (fields st) added (in_string st) (string_char st)
                  (paren_depth st - 1)
  else if Ascii.eqb char "," && negb (in_string st) && (paren_depth st =? 0)%Z
  then mkSplitter (fields st ++ [strip (current_field st)]) []
                  (in_string st) (string_char st) (paren_depth st)
  else mkSplitter (fields st) added (in_string st) (string_char st)
                  (paren_depth st).

(** The fields of a tuple: the loop, and the last field if it is not
    blank. *)
Definition split_fields (tuple_str : str) : list str :=
  let st := foldl split_char (mkSplitter [] [] false None 0) tuple_str in
  match strip (current_field st) with
  | [] => fields st
  | last_field => fields st ++ [last_field]
  end.

Section WithDecoder.

Variable json_loads : str -> option Mods.json.

(** The row of a tuple.  [parse_mods_from_data] and [normalize_mods] have
    the text they have in [pipelines/sql_parser.py]: [Mods.derive].  The
    value taken for [data] is the third from the end of the row as it is
    parsed, before the two derived values are appended. *)
Definition parsed_row_of (tuple_str : str) : Mods.result (list pyval) :=
  let parsed_row := map parse_value_fast (split_fields tuple_str) in
  if 4 <=? length parsed_row then
    let data_val := default PNone (parsed_row !! (length parsed_row - 3)) in
    Mods.bind (Mods.derive json_loads data_val)
      (fun '(mods_key, speed_mod) =>
         Mods.ok (parsed_row ++
                    [PStr mods_key;
                     match speed_mod with Some s => PStr s | None => PNone end]))
  else Mods.ok parsed_row.

(** ** Batches *)

(** [_rows_to_batch] for a non-empty [rows]. *)
Definition _rows_to_batch (rows : list (list pyval)) (columns : list str)
  : Scanner.batch :=
  foldl (fun data row =>
           foldl (fun d '(i, col) =>
                    Scanner.dict_append col (default PNone (row !! i)) d)
                 data (imap (fun i col => (i, col)) columns))
        (Scanner.dict_of_keys columns []) rows.

(** [str(i)] for a natural number. *)
Fixpoint digits_of (fuel n : nat) (acc : str) : str :=
  match fuel with
  | O => acc
  | S fuel' =>
      let d := ascii_of_nat (48 + n mod 10) in
      if n <? 10 then d :: acc else digits_of fuel' (n / 10) (d :: acc)
  end.
Definition str_of_nat (n : nat) : str := digits_of (S n) n [].

(** [detected_columns or [f"col_{i}" for i in range(len(batch_rows[0]))]]. *)
Definition batch_columns (detected_columns : option (list str))
           (batch_rows : list (list pyval)) : list str :=
  match detected_columns with
  | Some (c :: cs) => c :: cs
  | _ => imap (fun i _ => txt "col_" ++ str_of_nat i)
              (default [] (head batch_rows))
  end.

(** ** The file driver *)

(** The variables of the generator that its output depends on, and the
    batches yielded so far. *)
Record state := mkState {
  batch_rows : list (list pyval);
  detected_columns : option (list str);
  yielded : list Scanner.batch
}.

(** The body of [for tuple_str in tuples]; an exception ends the
    generator. *)
Definition each_tuple (batch_size : Z) (st : state) (tuple_str : str)
  : state + Scanner.output :=
  match parsed_row_of tuple_str with
  | inr e => inr (Scanner.mkOutput (yielded st) (Scanner.Error e))
  | inl parsed_row =>
      let batch_rows := batch_rows st ++ [parsed_row] in
      if (batch_size <=? Z.of_nat (length batch_rows))%Z
      then inl (mkState [] (detected_columns st)
                  (yielded st
                     ++ [_rows_to_batch batch_rows
                           (batch_columns (detected_columns st) batch_rows)]))
      else inl (mkState batch_rows (detected_columns st) (yielded st))
  end.

Fixpoint each_tuples (batch_size : Z) (tuples : list str) (st : state)
  : state + Scanner.output :=
  match tuples with
  | [] => inl st
  | tuple_str :: tuples' =>
      match each_tuple batch_size st tuple_str with
      | inl st' => each_tuples batch_size tuples' st'
      | inr out => inr out
      end
  end.

(** The column names of the statement head, with the two derived ones. *)
Definition detect_columns (line : str) : option (list str) :=
  match search true false Scanner.column_list line with
  | Some col_match =>
      Some (Scanner.column_names (default [] (group1 col_match))
              ++ [txt "mods_key"; txt "speed_mod"])
  | None => None
  end.

(** The body of [for line in f], and what follows the loop. *)
Fixpoint each_line (table_name : str) (batch_size : Z) (lines : list str)
         (st : state) : Scanner.output :=
  match lines with
  | [] =>
      match batch_rows st with
      | [] => Scanner.mkOutput (yielded st) Scanner.Exhausted
      | _ =>
          Scanner.mkOutput
            (yielded st
               ++ [_rows_to_batch (batch_rows st)
                     (batch_columns (detected_columns st) (batch_rows st))])
            Scanner.Exhausted
      end
  | line :: lines' =>
      if negb (contains (txt "INSERT") (upper line))
         || negb (contains (upper table_name) (upper line))
      then each_line table_name batch_size lines' st
      else
        match search true true VALUES_PATTERN line with
        | None => each_line table_name batch_size lines' st
        | Some match_ =>
            let values_section := default [] (group1 match_) in
            let detected :=
              match detected_columns st with
              | None => detect_columns line
              | Some cols => Some cols
              end in
            let tuples := findall false true TUPLE_PATTERN values_section in
            match each_tuples batch_size tuples
                    (mkState (batch_rows st) detected (yielded st)) with
            | inl st' => each_line table_name batch_size lines' st'
            | inr out => out
            end
        end
  end.

(** [parse_sql_file_fast] on the text of the file. *)
Definition parse_sql_file_fast (content : str) (table_name : str)
           (batch_size : Z) (columns : option (list str)) : Scanner.output :=
  each_line table_name batch_size (Scanner.file_lines [] content)
            (mkState [] columns []).

End WithDecoder.

(** ** The two scanners on the same line *)

(** Scenario S1 of the specification: one statement, on one line. *)
Definition S1 : str :=
  txtq "INSERT INTO `scores` (`id`,`user_id`,`beatmap_id`,`pp`,`playmode`,`data`) VALUES (1,101,201,500,0,'{~mods~:[{~acronym~:~HR~},{~acronym~:~DT~}]}');".

(** The batch of S1, up to its two derived columns. *)
Definition S1_batch (mods_key speed_mod : pyval) : Scanner.batch :=
  [(txt "id", [PInt 1]); (txt "user_id", [PInt 101]);
   (txt "beatmap_id", [PInt 201]); (txt "pp", [PInt 500]);
   (txt "playmode", [PInt 0]);
   (txt "data", [PStr (txtq "{~mods~:[{~acronym~:~HR~},{~acronym~:~DT~}]}")]);
   (txt "mods_key", [mods_key]); (txt "speed_mod", [speed_mod])].

(** A statement with two tuples, on one line. *)
Definition two_tuples : str :=
  txt "INSERT INTO `scores` (`id`,`pp`) VALUES (1,10),(2,20);".

(** C1 on S1 and on a line with two tuples.  On S1 the byte scanner
    derives [DT,HR] and [DT] from the [data] column it finds by name; the
    bulk scanner takes the third value from the end of the tuple, which is
    [pp], and derives the empty key.  On the line with two tuples the bulk
    scanner emits both rows and the byte scanner the first one only. *)
Theorem bulk_scan_differs_from_byte_scan :
  Scanner.parse_sql_file Mods.json_loads_lite true S1 (txt "scores") 100000 None
  = Scanner.mkOutput [S1_batch (PStr (txt "DT,HR")) (PStr (txt "DT"))]
                     Scanner.Exhausted
  /\ parse_sql_file_fast Mods.json_loads_lite S1 (txt "scores") 100000 None
     = Scanner.mkOutput [S1_batch (PStr []) PNone] Scanner.Exhausted
  /\ Scanner.parse_sql_file Mods.json_loads_lite true two_tuples (txt "scores")
       100000 None
     = Scanner.mkOutput [[(txt "id", [PInt 1]); (txt "pp", [PInt 10]);
                          (txt "mods_key", [PStr []]);
                          (txt "speed_mod", [PNone])]]
                        Scanner.Exhausted
  /\ parse_sql_file_fast Mods.json_loads_lite two_tuples (txt "scores")
       100000 None
     = Scanner.mkOutput [[(txt "id", [PInt 1; PInt 2]);
                          (txt "pp", [PInt 10; PInt 20]);
                          (txt "mods_key", [PNone; PNone]);
                          (txt "speed_mod", [PNone; PNone])]]
                        Scanner.Exhausted.
Proof. vm_compute. split_and!; reflexivity. Qed.

(** With [data] third from the end of a tuple of four values, alone on its
    line, the two scanners emit the same batch. *)
Example scans_agree_with_data_third_from_the_end :
  let line :=
    txtq "INSERT INTO `scores` (`id`,`data`,`pp`,`playmode`) VALUES (1,'{~mods~:[{~acronym~:~HR~},{~acronym~:~DT~}]}',500,0);" in
  parse_sql_file_fast Mods.json_loads_lite line (txt "scores") 100000 None
  = Scanner.parse_sql_file Mods.json_loads_lite true line (txt "scores")
      100000 None.
Proof. vm_compute. reflexivity. Qed.

(** The tuple pattern stops at the first closing parenthesis, inside a
    string literal too. *)
Example tuple_pattern_and_literals :
  findall false true TUPLE_PATTERN (txt "(1,10),(2,'a)b'),(3,f(4))")
  = [txt "1,10"; txt "2,'a"; txt "3,f(4"].
Proof. vm_compute. reflexivity. Qed.

(** ** Batches are the rows, transposed *)

Lemma _rows_to_batch_table (columns : list str) (rows : list (list pyval)) :
  NoDup columns ->
  forall F : nat -> list pyval,
    foldl (fun data row =>
             foldl (fun d '(i, col) =>
                      Scanner.dict_append col (default PNone (row !! i)) d)
                   data (imap (fun i col => (i, col)) columns))
          (Scanner.table_of columns F) rows
    = Scanner.table_of columns
        (fun i => F i ++ map (fun row => default PNone (row !! i)) rows).
Proof.
  intros Hnd. induction rows as [|row rows IH]; intros F; simpl.
  - apply Scanner.table_of_ext. intros i _. by rewrite app_nil_r.
  - pose proof (Scanner.append_cells columns id
                  (fun i => default PNone (row !! i)) [] [] F Hnd) as Happ.
    simpl in Happ. rewrite !app_nil_r in Happ. rewrite Happ.
    2:{ intros col _. split; apply not_elem_of_nil. }
    rewrite IH. apply Scanner.table_of_ext. intros i _.
    by rewrite <- app_assoc.
Qed.

(** The dictionary of a batch is the rows, transposed: under column number
    [i] the value number [i] of every row, and [None] where a row is too
    short; values beyond the columns are dropped. *)
Theorem fast_rows_to_batch_transposes (columns : list str)
        (rows : list (list pyval)) :
  rows <> [] ->
  NoDup columns ->
  _rows_to_batch rows columns
  = Scanner.table_of columns
      (fun i => map (fun row => default PNone (row !! i)) rows).
Proof.
  intros _ Hnd. unfold _rows_to_batch.
  rewrite Scanner.dict_of_keys_fresh;
    [|done|intros k _; apply not_elem_of_nil].
  simpl. rewrite Scanner.table_of_empty.
  by rewrite (_rows_to_batch_table columns rows Hnd).
Qed.

Lemma fast_rows_to_batch_transposes_witness :
  _rows_to_batch [[PInt 1; PStr (txt "a"); PNone]; [PInt 2]]
    [txt "id"; txt "name"]
  = [(txt "id", [PInt 1; PInt 2]); (txt "name", [PStr (txt "a"); PNone])].
Proof.
  apply (fast_rows_to_batch_transposes [txt "id"; txt "name"]
           [[PInt 1; PStr (txt "a"); PNone]; [PInt 2]]).
  - done.
  - apply (bool_decide_unpack _). vm_compute. reflexivity.
Defined.

(** ** Splitting and joining *)

(** The characters the loop over a tuple looks at. *)
Definition special (c : ascii) : bool :=
  Ascii.eqb c squote || Ascii.eqb c dquote || Ascii.eqb c "("
  || Ascii.eqb c ")" || Ascii.eqb c ",".

(** A text in which every quote opens a literal that is closed: characters
    that are not special, and literals [q body q] where [body] has no [q]
    and does not end in a backslash. *)
Inductive closed_text : str -> Prop :=
| closed_nil : closed_text []
| closed_char (c : ascii) (s : str) :
    special c = false -> closed_text s -> closed_text (c :: s)
| closed_literal (q : ascii) (body s : str) :
    q = squote \/ q = dquote ->
    q ∉ body ->
    last body <> Some backslash ->
    closed_text s ->
    closed_text (q :: body ++ q :: s).

Lemma split_char_inside (q : ascii) (body : str) :
  q ∉ body ->
  forall (fs : list str) (cur : str) (d : Z),
    foldl split_char (mkSplitter fs cur true (Some q) d) body
    = mkSplitter fs (cur ++ body) true (Some q) d.
Proof.
  induction body as [|c body IH]; intros Hq fs cur d; simpl.
  { by rewrite app_nil_r. }
  apply not_elem_of_cons in Hq as [Hc Hq].
  unfold split_char at 2. simpl.
  rewrite !andb_false_r. simpl.
  assert (Ascii.eqb c q = false) as -> by (by apply Ascii.eqb_neq).
  simpl. rewrite IH by done. by rewrite <- app_assoc.
Qed.

Lemma split_char_closed (s : str) :
  closed_text s ->
  forall (fs : list str) (cur : str),
    foldl split_char (mkSplitter fs cur false None 0) s
    = mkSplitter fs (cur ++ s) false None 0.
Proof.
  induction 1 as [|c s Hc _ IH|q body s Hq Hbody Hlast _ IH]; intros fs cur.
  - simpl. by rewrite app_nil_r.
  - simpl. unfold split_char at 2. simpl.
    unfold special in Hc. apply orb_false_iff in Hc as [Hc Hcomma].
    apply orb_false_iff in Hc as [Hc Hclose].
    apply orb_false_iff in Hc as [Hc Hopen].
    apply orb_false_iff in Hc as [Hs Hd].
    rewrite Hs, Hd, Hopen, Hclose, Hcomma. simpl.
    rewrite IH. by rewrite <- app_assoc.
  - simpl. unfold split_char at 2. simpl.
    assert (Ascii.eqb q squote || Ascii.eqb q dquote = true) as ->.
    { destruct Hq as [-> | ->]; done. }
    simpl. rewrite foldl_app, split_char_inside by done. simpl.
    unfold split_char at 2. simpl. rewrite Ascii.eqb_refl. simpl.
    rewrite andb_false_r.
    assert (ends_with_backslash ((cur ++ [q]) ++ body) = false) as ->.
    { unfold ends_with_backslash.
      destruct body as [|b body] using rev_ind.
      - rewrite app_nil_r, last_snoc.
        destruct Hq as [-> | ->]; done.
      - rewrite app_assoc, last_snoc. rewrite last_snoc in Hlast.
        apply Ascii.eqb_neq. intros ->. done. }
    rewrite IH. f_equal. rewrite <- !app_assoc. done.
Qed.

Lemma split_char_joined (fs : list str) : forall (f : str) (acc : list str),
  Forall closed_text (fs ++ [f]) ->
  foldl split_char (mkSplitter acc [] false None 0)
        (join (txt ",") (fs ++ [f]))
  = mkSplitter (acc ++ map strip fs) f false None 0.
Proof.
  induction fs as [|f1 fs IH]; intros f acc Hall.
  - simpl. apply Forall_inv in Hall.
    rewrite split_char_closed by done. by rewrite app_nil_r.
  - apply Forall_cons in Hall as [H1 Hall]. fold (fs ++ [f]) in Hall.
    assert (join (txt ",") ((f1 :: fs) ++ [f])
            = f1 ++ ","%char :: join (txt ",") (fs ++ [f])) as ->.
    { simpl. by destruct fs. }
    rewrite foldl_app, split_char_closed by done. simpl.
    unfold split_char at 2. simpl.
    rewrite IH by done. by rewrite <- app_assoc.
Qed.

(** Joining fields with commas and splitting the text gives the fields
    back, stripped: a comma inside a literal does not split, a blank field
    between two commas is kept as the empty string, and a blank last field
    is dropped. *)
Theorem split_fields_of_joined (fs : list str) (f : str) :
  Forall closed_text (fs ++ [f]) ->
  split_fields (join (txt ",") (fs ++ [f]))
  = map strip fs ++ match strip f with [] => [] | last_field => [last_field] end.
Proof.
  intros Hall. unfold split_fields. rewrite split_char_joined by done.
  simpl. destruct (strip f); [by rewrite app_nil_r|done].
Qed.

Lemma closed_text_plain (s : str) :
  Forall (fun c => special c = false) s -> closed_text s.
Proof. induction 1; by constructor. Qed.

Lemma split_fields_of_joined_witness :
  join (txt ",") ([txt "1"; txt " 'a,b' "; txt " "; txt "x"] ++ [txt " "])
  = txt "1, 'a,b' , ,x, "
  /\ split_fields (txt "1, 'a,b' , ,x, ")
     = [txt "1"; txt "'a,b'"; []; txt "x"].
Proof.
  split; [reflexivity|].
  apply (split_fields_of_joined [txt "1"; txt " 'a,b' "; txt " "; txt "x"]
           (txt " ")).
  repeat apply Forall_cons_2; try apply Forall_nil_2;
    try (apply closed_text_plain; by repeat constructor).
  apply (closed_char " " _ eq_refl).
  apply (closed_literal squote (txt "a,b") (txt " ")).
  - by left.
  - apply (bool_decide_unpack _). vm_compute. reflexivity.
  - done.
  - apply closed_text_plain. by repeat constructor.
Defined.

End Fast.

(* ===================================================================== *)
(** * Chunk planning and the worker pool ([scripts/lib/parallel_utils.py]) *)
(* ===================================================================== *)

Module Planner.

Local Open Scope Z_scope.

(** ** [ChunkPlanner] *)

(** The size classes, in increasing order. *)
Inductive category := small | medium | large | xlarge.

#[global] Instance category_eq_dec : EqDecision category.
Proof. solve_decision. Defined.

(** [CHUNK_SIZES] and [PARALLEL_WORKERS]. *)
Definition CHUNK_SIZES (c : category) : Z :=
  match c with
  | small => 100000
  | medium => 500000
  | large => 1000000
  | xlarge => 2000000
  end.

Definition PARALLEL_WORKERS (c : category) : Z :=
  match c with
  | small => 1
  | medium => 2
  | large => 4
  | xlarge => 8
  end.

(** [a < b] on the quotients the planner compares. *)
Definition Qltb (a b : Q) : bool := negb (Qle_bool b a).

(** [file_size_bytes / (1024 * 1024)]: the quotient of two integers.  The
    source has it as a float; the float is the quotient itself for every
    size below [2^53], and beyond that it is far above the three bounds it
    is compared with. *)
Definition size_mb_of (file_size_bytes : Z) : Q :=
  (inject_Z file_size_bytes / inject_Z (1024 * 1024))%Q.

(** [categorize_file]. *)
Definition categorize_file (file_size_bytes : Z) : category :=
  let size_mb := size_mb_of file_size_bytes in
  if Qltb size_mb (inject_Z 100) then small
  else if Qltb size_mb (inject_Z 1024) then medium
  else if Qltb size_mb (inject_Z 5120) then large
  else xlarge.

(** The dictionary [plan_chunks] returns. *)
Record plan := mkPlan {
  table_name : string;
  file_path : string;
  file_size_mb : Q;
  plan_category : category;
  chunk_size : Z;
  num_chunks : Z;
  parallel_workers : Z;
  estimated_rows : Z
}.

(** [plan_chunks], given [self.system_cpus] and what
    [file_path.stat().st_size] returns.  [if estimated_rows:] takes the
    first branch for an integer other than zero. *)
Definition plan_chunks (system_cpus : Z) (file_size : Z)
           (file_path table_name : string) (estimated_rows : option Z) : plan :=
  let category := categorize_file file_size in
  let chunk_size := CHUNK_SIZES category in
  let parallel_workers :=
    Z.min (PARALLEL_WORKERS category) (system_cpus - 1) in
  let '(estimated_rows, num_chunks) :=
    match estimated_rows with
    | Some rows =>
        if rows =? 0
        then let estimated_rows := file_size / 100 in
             (estimated_rows,
              Z.max 1 ((estimated_rows + chunk_size - 1) / chunk_size))
        else (rows, Z.max 1 ((rows + chunk_size - 1) / chunk_size))
    | None =>
        let estimated_rows := file_size / 100 in
        (estimated_rows,
         Z.max 1 ((estimated_rows + chunk_size - 1) / chunk_size))
    end in
  mkPlan table_name file_path (size_mb_of file_size) category chunk_size
         num_chunks parallel_workers estimated_rows.

(** ** [ParallelProcessor.process_chunks] *)

Inductive status := pending | running | completed | failed.

(** What a returned dictionary holds under ["rows"]: an integer, or a
    value that cannot be added to the running total ([None], a string,
    ...), with the message of the [TypeError] that [+=] raises on it.
    Numbers that are not integers are left out. *)
Inductive rows_entry := IntRows (z : Z) | OtherRows (message : string).

(** A task, without its time stamps. *)
Record ChunkTask := mkTask {
  chunk_id : nat;
  chunk_path : string;
  task_table : string;
  task_status : status;
  error_message : option string;
  rows_processed : rows_entry
}.

(** The statistics, without their time stamps. *)
Record ImportStats := mkStats {
  stats_table : string;
  total_chunks : nat;
  completed_chunks : nat;
  failed_chunks : nat;
  total_rows : Z;
  chunk_stats : list ChunkTask
}.

(** What [future.result()] does: it returns what [process_func] returned
    in its worker, a dictionary (with or without a ["rows"] entry) or
    something else, or it raises what [process_func] raised there, or
    what the pool raises for a worker that is gone. *)
Inductive outcome :=
| ReturnedDict (rows : option rows_entry)
| ReturnedOther
| Raised (message : string).

Section Pool.

(** [future.result()] for the future of the task with this [chunk_id].
    Two tasks may have the same path and still end differently. *)
Variable future_result : nat -> outcome.

(** The order in which the pool hands the tasks back. *)
Variable as_completed : list ChunkTask -> list ChunkTask.

(** The [except Exception as e] branch. *)
Definition fail (e : string) (stats : ImportStats) (task : ChunkTask)
  : ImportStats :=
  let task := mkTask (chunk_id task) (chunk_path task) (task_table task)
                     failed (Some e) (rows_processed task) in
  mkStats (stats_table stats) (total_chunks stats)
          (completed_chunks stats) (S (failed_chunks stats))
          (total_rows stats) (chunk_stats stats ++ [task]).

(** The [try] block once [future.result()] has returned, [rows] being
    what [task.rows_processed] then holds: the chunk is counted as
    completed before its rows are added, so when the addition raises the
    [except] branch finds it counted already. *)
Definition complete (rows : rows_entry) (stats : ImportStats)
           (task : ChunkTask) : ImportStats :=
  let task := mkTask (chunk_id task) (chunk_path task) (task_table task)
                     completed (error_message task) rows in
  let stats := mkStats (stats_table stats) (total_chunks stats)
                       (S (completed_chunks stats)) (failed_chunks stats)
                       (total_rows stats) (chunk_stats stats) in
  match rows with
  | IntRows z =>
      mkStats (stats_table stats) (total_chunks stats)
              (completed_chunks stats) (failed_chunks stats)
              (total_rows stats + z) (chunk_stats stats ++ [task])
  | OtherRows e => fail e stats task
  end.

(** The body of [for future in as_completed(future_to_task)], for an
    [error_callback] that is absent or returns and a [progress_interval]
    other than zero. *)
Definition collect (stats : ImportStats) (task : ChunkTask) : ImportStats :=
  match future_result (chunk_id task) with
  | Raised e => fail e stats task
  | ReturnedDict rows => complete (default (IntRows 0) rows) stats task
  | ReturnedOther => complete (rows_processed task) stats task
  end.

(** [process_chunks]. *)
Definition process_chunks (table_name : string) (chunk_paths : list string)
  : ImportStats :=
  let stats := mkStats table_name (length chunk_paths) 0 0 0 [] in
  let tasks :=
    imap (fun i path => mkTask i path table_name pending None (IntRows 0))
         chunk_paths in
  foldl collect stats (as_completed tasks).

End Pool.

(** ** The size classes in bytes *)

Lemma Qltb_size_mb (file_size_bytes k : Z) :
  Qltb (size_mb_of file_size_bytes) (inject_Z k)
  = (file_size_bytes <? k * 1048576).
Proof.
  unfold Qltb, Qle_bool, size_mb_of. simpl.
  destruct (Z.ltb_spec file_size_bytes (k * 1048576)) as [H|H];
    [apply negb_true_iff, Z.leb_gt|apply negb_false_iff, Z.leb_le]; lia.
Qed.

(** The bounds of the size classes, in bytes: below 100 MiB, below 1 GiB,
    below 5 GiB, and the rest; a negative size is small. *)
Theorem categorize_file_bytes (file_size_bytes : Z) :
  categorize_file file_size_bytes
  = if file_size_bytes <? 104857600 then small
    else if file_size_bytes <? 1073741824 then medium
    else if file_size_bytes <? 5368709120 then large
    else xlarge.
Proof. unfold categorize_file. cbv zeta. by rewrite !Qltb_size_mb. Qed.

(** ** The plan *)

Lemma CHUNK_SIZES_pos (c : category) : 0 < CHUNK_SIZES c.
Proof. by destruct c. Qed.

Lemma ceil_chunks (rows size : Z) :
  0 < size ->
  let n := Z.max 1 ((rows + size - 1) / size) in
  1 <= n /\ rows <= n * size /\ (1 < n -> (n - 1) * size < rows).
Proof.
  intros Hs n.
  pose proof (Z.div_mod (rows + size - 1) size ltac:(lia)) as Hdm.
  pose proof (Z.mod_pos_bound (rows + size - 1) size Hs) as Hm.
  subst n. split; [lia|]. split; nia.
Qed.

(** The plan has at least one chunk, its chunks hold the estimated rows,
    and one chunk fewer would not; the workers stay below the number of
    CPUs and within the bound of the size class, so that a machine with
    one CPU gets a plan with no worker at all. *)
Theorem plan_chunks_bounds (system_cpus file_size : Z)
        (file_path table_name : string) (estimated_rows : option Z) :
  let p := plan_chunks system_cpus file_size file_path table_name
                       estimated_rows in
  1 <= num_chunks p
  /\ Planner.estimated_rows p <= num_chunks p * chunk_size p
  /\ (1 < num_chunks p
      -> (num_chunks p - 1) * chunk_size p < Planner.estimated_rows p)
  /\ parallel_workers p <= system_cpus - 1
  /\ parallel_workers p <= 8
  /\ (1 <= parallel_workers p <-> 2 <= system_cpus).
Proof.
  intros p. subst p. unfold plan_chunks. cbv zeta.
  set (c := categorize_file file_size).
  pose proof (CHUNK_SIZES_pos c) as Hc.
  assert (1 <= PARALLEL_WORKERS c <= 8) as Hw by (destruct c; simpl; lia).
  destruct estimated_rows as [rows|]; [destruct (rows =? 0)|]; simpl;
    (split_and!; [apply ceil_chunks, Hc | apply ceil_chunks, Hc
                 | apply ceil_chunks, Hc | lia | lia | lia]).
Qed.

Definition rank (c : category) : Z :=
  match c with small => 0 | medium => 1 | large => 2 | xlarge => 3 end.

(** A larger file is never planned with smaller chunks or fewer workers. *)
Theorem plan_chunks_monotone (system_cpus file_size file_size' : Z)
        (file_path table_name : string) (estimated_rows : option Z) :
  file_size <= file_size' ->
  let p := plan_chunks system_cpus file_size file_path table_name
                       estimated_rows in
  let p' := plan_chunks system_cpus file_size' file_path table_name
                        estimated_rows in
  rank (plan_category p) <= rank (plan_category p')
  /\ chunk_size p <= chunk_size p'
  /\ parallel_workers p <= parallel_workers p'.
Proof.
  intros Hle p p'. subst p p'. unfold plan_chunks. cbv zeta.
  assert (rank (categorize_file file_size)
          <= rank (categorize_file file_size')) as Hr.
  { unfold categorize_file. cbv zeta. rewrite !Qltb_size_mb.
    repeat case_match; simpl; lia. }
  assert (CHUNK_SIZES (categorize_file file_size)
          <= CHUNK_SIZES (categorize_file file_size')
          /\ PARALLEL_WORKERS (categorize_file file_size)
             <= PARALLEL_WORKERS (categorize_file file_size')) as [Hc Hw].
  { destruct (categorize_file file_size), (categorize_file file_size');
      simpl in *; lia. }
  destruct estimated_rows as [rows|]; [destruct (rows =? 0)|]; simpl;
    (split_and!; [done|done|lia]).
Qed.

Lemma plan_chunks_monotone_witness :
  let p := plan_chunks 8 104857599 "scores.sql" "scores" None in
  let p' := plan_chunks 8 104857600 "scores.sql" "scores" None in
  (chunk_size p = 100000 /\ chunk_size p' = 500000)
  /\ (num_chunks p = 11 /\ num_chunks p' = 3)
  /\ parallel_workers p <= parallel_workers p'.
Proof.
  split; [by vm_compute|]. split; [by vm_compute|].
  exact (proj2 (proj2 (plan_chunks_monotone 8 104857599 104857600
                         "scores.sql" "scores" None ltac:(lia)))).
Defined.

(** ** What the pool accounts for *)

(** Whether the future of a task raises, whether it returns rows that
    cannot be added, and the rows it reports. *)
Definition raises (o : outcome) : bool :=
  match o with Raised _ => true | _ => false end.

Definition unaddable (o : outcome) : bool :=
  match o with ReturnedDict (Some (OtherRows _)) => true | _ => false end.

Definition rows_of (o : outcome) : Z :=
  match o with ReturnedDict (Some (IntRows z)) => z | _ => 0 end.

Definition sum_Z (l : list Z) : Z := foldr Z.add 0 l.

Lemma sum_Z_Permutation (l l' : list Z) : l ≡ₚ l' -> sum_Z l = sum_Z l'.
Proof. induction 1; simpl in *; lia. Qed.

Section PoolFacts.

Variable future_result : nat -> outcome.

(** The number of tasks, given by their ids, whose outcome satisfies [p]. *)
Definition count (p : outcome -> bool) (ids : list nat) : nat :=
  length (filter (fun i => p (future_result i) = true) ids).

Lemma count_cons (p : outcome -> bool) (i : nat) (ids : list nat) :
  count p (i :: ids)
  = ((if p (future_result i) then 1 else 0) + count p ids)%nat.
Proof.
  unfold count. rewrite filter_cons.
  destruct (decide (p (future_result i) = true)) as [H|H].
  - by rewrite H.
  - apply not_true_is_false in H. by rewrite H.
Qed.

Lemma count_Permutation (p : outcome -> bool) (l l' : list nat) :
  l ≡ₚ l' -> count p l = count p l'.
Proof. intros H. unfold count. by rewrite H. Qed.

(** The status the loop leaves a task with. *)
Definition final_status (task : ChunkTask) : status :=
  let o := future_result (chunk_id task) in
  if raises o || unaddable o then failed else completed.

Lemma collect_fields (stats : ImportStats) (task : ChunkTask) :
  rows_processed task = IntRows 0 ->
  let o := future_result (chunk_id task) in
  let stats' := collect future_result stats task in
  total_chunks stats' = total_chunks stats
  /\ completed_chunks stats'
     = (completed_chunks stats + if negb (raises o) then 1 else 0)%nat
  /\ failed_chunks stats'
     = (failed_chunks stats + (if raises o then 1 else 0)
        + if unaddable o then 1 else 0)%nat
  /\ total_rows stats' = total_rows stats + rows_of o
  /\ exists task',
       chunk_stats stats' = chunk_stats stats ++ [task']
       /\ chunk_id task' = chunk_id task
       /\ chunk_path task' = chunk_path task
       /\ task_status task' = final_status task'.
Proof.
  intros Hrows. cbv zeta. unfold collect, complete, fail, final_status.
  destruct (future_result (chunk_id task)) as [[[z|msg]|]| |e] eqn:E;
    simpl; rewrite ?Hrows; simpl;
    (split_and!; [done|lia|lia|lia|]);
    eexists; (split_and!; [reflexivity|done|done|]); simpl; by rewrite E.
Qed.

Lemma collect_all (tasks : list ChunkTask) : forall stats : ImportStats,
  Forall (fun task => rows_processed task = IntRows 0) tasks ->
  let ids := map chunk_id tasks in
  let stats' := foldl (collect future_result) stats tasks in
  total_chunks stats' = total_chunks stats
  /\ completed_chunks stats'
     = (completed_chunks stats + count (fun o => negb (raises o)) ids)%nat
  /\ failed_chunks stats'
     = (failed_chunks stats + count raises ids + count unaddable ids)%nat
  /\ total_rows stats'
     = total_rows stats + sum_Z (map (fun i => rows_of (future_result i)) ids)
  /\ map (fun task => (chunk_id task, chunk_path task)) (chunk_stats stats')
     = map (fun task => (chunk_id task, chunk_path task)) (chunk_stats stats)
       ++ map (fun task => (chunk_id task, chunk_path task)) tasks
  /\ (Forall (fun task => task_status task = final_status task)
             (chunk_stats stats) ->
      Forall (fun task => task_status task = final_status task)
             (chunk_stats stats')).
Proof.
  induction tasks as [|task tasks IH]; intros stats Hfresh; cbn zeta.
  { simpl. rewrite app_nil_r. unfold count. simpl. split_and!; (done || lia). }
  apply Forall_cons in Hfresh as [Hrows Hfresh].
  specialize (IH (collect future_result stats task) Hfresh).
  cbn zeta in IH. destruct IH as (IH1 & IH2 & IH3 & IH4 & IH5 & IH6).
  destruct (collect_fields stats task Hrows)
    as (C1 & C2 & C3 & C4 & task' & C5 & C6 & C7 & C8).
  cbn [foldl map]. rewrite IH1, IH2, IH3, IH4, IH5, !count_cons.
  rewrite C1, C2, C3, C4, C5, map_app, <- app_assoc. simpl. rewrite C6, C7.
  split_and!; [done|lia|lia|lia|done|].
  intros Hst. apply IH6. rewrite C5. apply Forall_app. split; [done|].
  by constructor.
Qed.

(** Whatever the futures give and whatever the order in which the pool
    hands the tasks back, the statistics are those of the outcomes.  The
    completed chunks are the tasks whose future returns; the failed ones
    are those whose future raises and those whose returned rows cannot be
    added, which are counted as completed as well, so that the two counts
    add up to the number of chunks plus the number of such results; the
    total is the sum of the integer rows the returned dictionaries
    report; and the list of tasks has every chunk once, with its path,
    failed in the two cases named and completed otherwise. *)
Theorem process_chunks_accounts (as_completed : list ChunkTask -> list ChunkTask)
        (table_name : string) (chunk_paths : list string) :
  (forall tasks, as_completed tasks ≡ₚ tasks) ->
  let stats := process_chunks future_result as_completed table_name
                              chunk_paths in
  let ids := seq 0 (length chunk_paths) in
  total_chunks stats = length chunk_paths
  /\ completed_chunks stats = count (fun o => negb (raises o)) ids
  /\ failed_chunks stats = (count raises ids + count unaddable ids)%nat
  /\ (completed_chunks stats + failed_chunks stats)%nat
     = (total_chunks stats + count unaddable ids)%nat
  /\ total_rows stats = sum_Z (map (fun i => rows_of (future_result i)) ids)
  /\ map (fun task => (chunk_id task, chunk_path task)) (chunk_stats stats)
     ≡ₚ imap (fun i path => (i, path)) chunk_paths
  /\ Forall (fun task => task_status task = final_status task)
            (chunk_stats stats).
Proof.
  intros Hperm stats ids. subst stats ids. unfold process_chunks. cbv zeta.
  set (tasks := imap (fun i path =>
                        mkTask i path table_name pending None (IntRows 0))
                     chunk_paths).
  assert (map (fun task => (chunk_id task, chunk_path task)) tasks
          = imap (fun i path => (i, path)) chunk_paths) as Hpairs.
  { subst tasks.
    change (map (fun task => (chunk_id task, chunk_path task)))
      with (fmap (M:=list) (fun task => (chunk_id task, chunk_path task))).
    by rewrite fmap_imap. }
  assert (map chunk_id tasks = seq 0 (length chunk_paths)) as Hids.
  { subst tasks. change (map chunk_id) with (fmap (M:=list) chunk_id).
    rewrite fmap_imap.
    transitivity (imap (fun j (_ : string) => id j) chunk_paths);
      [by apply imap_ext|].
    rewrite imap_seq_0. apply list_fmap_id. }
  assert (Forall (fun task => rows_processed task = IntRows 0)
                 (as_completed tasks)) as Hfresh.
  { rewrite (Hperm tasks). subst tasks. apply Forall_lookup_2.
    intros i task Hi. apply list_lookup_imap_Some in Hi as (p & _ & ->). done. }
  destruct (collect_all (as_completed tasks)
              (mkStats table_name (length chunk_paths) 0 0 0 []) Hfresh)
    as (H1 & H2 & H3 & H4 & H5 & H6).
  cbn zeta in *. simpl in H1, H2, H3, H4, H5, H6.
  assert (map chunk_id (as_completed tasks) ≡ₚ seq 0 (length chunk_paths))
    as Hpp.
  { rewrite <- Hids. apply Permutation_map, Hperm. }
  rewrite H1, H2, H3, H4, H5, !(count_Permutation _ _ _ Hpp).
  split_and!; try done.
  - assert (forall l : list nat,
              (count (fun o => negb (raises o)) l
               + (count raises l + count unaddable l))%nat
              = (length l + count unaddable l)%nat) as Hcount.
    { clear. intros l. induction l as [|i l IH]; [done|].
      rewrite !count_cons. simpl.
      destruct (future_result i) as [[[z|msg]|]| |e]; simpl in *; lia. }
    by rewrite Hcount, length_seq.
  - apply sum_Z_Permutation, Permutation_map, Hpp.
  - rewrite <- Hpairs. apply Permutation_map, Hperm.
  - apply H6. constructor.
Qed.

End PoolFacts.

(** Four chunks, handed back last first: the first reports five rows,
    the second fails, the third returns something that is no dictionary,
    and the fourth reports its rows as a string. *)
Definition four_chunks (i : nat) : outcome :=
  match i with
  | 0%nat => ReturnedDict (Some (IntRows 5))
  | 1%nat => Raised "duplicate key"
  | 2%nat => ReturnedOther
  | _ => ReturnedDict (Some (OtherRows "unsupported operand type(s) for +="))
  end.

Lemma process_chunks_accounts_witness :
  let stats :=
    process_chunks four_chunks (@rev ChunkTask) "scores"
                   ["chunk_0.csv"; "chunk_1.csv"; "chunk_2.csv";
                    "chunk_3.csv"] in
  map chunk_id (chunk_stats stats) = [3; 2; 1; 0]%nat
  /\ total_chunks stats = 4%nat
  /\ completed_chunks stats = 3%nat
  /\ failed_chunks stats = 2%nat
  /\ total_rows stats = 5.
Proof.
  split; [reflexivity|].
  destruct (process_chunks_accounts four_chunks (@rev ChunkTask) "scores"
              ["chunk_0.csv"; "chunk_1.csv"; "chunk_2.csv"; "chunk_3.csv"]
              (fun tasks => Permutation_sym (Permutation_rev tasks)))
    as (Ht & Hc & Hf & _ & Hr & _).
  split_and!; [exact Ht|exact Hc|exact Hf|exact Hr].
Defined.

End Planner.

(* ===================================================================== *)
(** * Orchestrator ([pipelines/run_pipeline.py])                           *)
(* ===================================================================== *)

Module Runner.
Import Warehouse.

Definition PARQUET_DIR : string := "data/ingest/2026-02/bronze_parquet".

Definition TABLES : list string :=
  ["scores"; "osu_scores_high"; "osu_beatmaps"; "osu_beatmapsets";
   "osu_user_stats"; "osu_beatmap_difficulty";
   "osu_beatmap_difficulty_attribs"; "osu_user_beatmap_playcount";
   "osu_beatmap_failtimes"; "osu_counts"; "osu_difficulty_attribs";
   "osu_beatmap_performance_blacklist"; "sample_users"].

Section Phases.

Variables best_scores_query user_topk_query beatmap_user_sets_query
  : table -> option table.
Variable read_parquet : string -> option table.

(** [Path.exists]. *)
Variable path_exists : string -> bool.

(** The loop of [_run_silver]: what the phase returns and the database it
    leaves.  A load that raises has dropped the table it was to replace. *)
Fixpoint silver_tables (dry_run : bool) (tables : list string) (db : database)
  : bool * database :=
  match tables with
  | [] => (true, db)
  | table :: tables' =>
      let parquet_path := PARQUET_DIR +:+ "/" +:+ table in
      let parquet_glob := parquet_path +:+ "/*.parquet" in
      if negb (path_exists parquet_path)
      then silver_tables dry_run tables' db
      else if dry_run then silver_tables dry_run tables' db
      else match load_parquet_to_raw read_parquet table parquet_glob db with
           | Some db' => silver_tables dry_run tables' db'
           | None => (false, drop_table_if_exists ("raw_" +:+ table) db)
           end
  end.

(** [_run_silver]. *)
Definition _run_silver (dry_run : bool) (db : database) : bool * database :=
  silver_tables dry_run TABLES db.

(** One step of [_run_gold]: skipped in a dry run; a step that raises ends
    the phase, with the database as the statements before the failing one
    left it. *)
Definition gold_step (dry_run : bool) (create : database -> option database)
           (raised : database -> database)
           (rest : database -> bool * database) (db : database)
  : bool * database :=
  if dry_run then rest db
  else match create db with
       | Some db' => rest db'
       | None => (false, raised db)
       end.

(** The database [create_indexes] leaves when it raises: the two indexes
    dropped, and the first one there again if it was the second statement
    that failed. *)
Definition indexes_raised (db : database) : database :=
  let db := drop_index_if_exists "idx_mart_best_scores_beatmap_lookup" db in
  let db := drop_index_if_exists "idx_mart_best_scores_user_lookup" db in
  match create_index "idx_mart_best_scores_beatmap_lookup" "mart_best_scores"
          ["beatmap_id"; "pp"; "mods_key"; "user_id"] db with
  | Some db' => db'
  | None => db
  end.

(** [_run_gold]. *)
Definition _run_gold (dry_run : bool) (db : database) : bool * database :=
  gold_step dry_run create_stg_scores (drop_table_if_exists "stg_scores")
    (gold_step dry_run (create_mart_best_scores best_scores_query)
       (drop_table_if_exists "mart_best_scores")
       (gold_step dry_run (create_mart_user_topk user_topk_query)
          (drop_table_if_exists "mart_user_topk")
          (gold_step dry_run
             (create_mart_beatmap_user_sets beatmap_user_sets_query)
             (drop_table_if_exists "mart_beatmap_user_sets")
             (gold_step dry_run create_indexes indexes_raised
                (fun db => (true, db))))))
    db.

(** ** A dry run *)

(** A dry run of the two database phases succeeds and leaves the database
    as it is, whatever shards there are and whatever the engine would say
    to the statements. *)
Theorem dry_run_changes_nothing (db : database) :
  _run_silver true db = (true, db) /\ _run_gold true db = (true, db).
Proof.
  split; [|done]. unfold _run_silver.
  induction TABLES as [|table names IH]; simpl; [done|].
  by destruct (path_exists _).
Qed.

(** ** The two phases and the pipeline's own run *)

Lemma raw_name_inj (table : string) :
  table <> "scores" -> "raw_" +:+ table <> "raw_scores".
Proof. intros H E. apply H. simpl in E. by injection E. Qed.

Lemma load_parquet_to_raw_tables (table glob : string) (db db' : database) :
  load_parquet_to_raw read_parquet table glob db = Some db' ->
  exists t, read_parquet glob = Some t
            /\ tables db' = <["raw_" +:+ table := t]> (tables db)
            /\ indexes db'
               = filter (fun ni => on_table ni.2 ≠ "raw_" +:+ table) (indexes db).
Proof.
  unfold load_parquet_to_raw. rewrite create_after_drop.
  destruct (read_parquet glob) as [t|]; [|done]. simpl. intros [= <-].
  by exists t.
Qed.

(** The loads of the other tables leave [raw_scores] alone. *)
Lemma silver_tables_others (names : list string) :
  forall db db1 : database,
    "scores" ∉ names ->
    silver_tables false names db = (true, db1) ->
    tables db1 !! "raw_scores" = tables db !! "raw_scores".
Proof.
  induction names as [|table names' IH]; intros db db1 Hnot; simpl.
  { by intros [= <-]. }
  apply not_elem_of_cons in Hnot as [Hne Hnot].
  destruct (path_exists _); simpl; [|by apply IH].
  destruct (load_parquet_to_raw _ _ _ _) as [db'|] eqn:E; [|done].
  intros Hrest. rewrite (IH _ _ Hnot Hrest).
  apply load_parquet_to_raw_tables in E as (t & _ & -> & _).
  apply lookup_insert_ne. apply raw_name_inj. by intros ->.
Qed.

Lemma silver_scores (db db1 : database) :
  path_exists (PARQUET_DIR +:+ "/" +:+ "scores") = true ->
  _run_silver false db = (true, db1) ->
  exists raw,
    read_parquet (PARQUET_DIR +:+ "/" +:+ "scores" +:+ "/*.parquet") = Some raw
    /\ tables db1 !! "raw_scores" = Some raw.
Proof.
  intros Hex. unfold _run_silver.
  set (others := tail TABLES).
  assert ("scores" ∉ others) as Hnot.
  { apply (bool_decide_unpack _). vm_compute. reflexivity. }
  change TABLES with ("scores" :: others). clearbody others.
  cbn [silver_tables]. rewrite Hex. cbn [negb].
  destruct (load_parquet_to_raw _ _ _ _) as [db'|] eqn:E; [|done].
  intros Hrest. apply load_parquet_to_raw_tables in E as (raw & Hraw & Ht & _).
  exists raw. split; [exact Hraw|].
  rewrite (silver_tables_others _ _ _ Hnot Hrest).
  rewrite Ht. apply lookup_insert_eq.
Qed.

Lemma gold_tables (db1 db2 : database) (raw : table) :
  tables db1 !! "raw_scores" = Some raw ->
  _run_gold false db1 = (true, db2) ->
  exists stg best topk sets l1 l2,
    select_where stg_select_list raw "playmode" 0 = Some stg
    /\ best_scores_query stg = Some best
    /\ user_topk_query best = Some topk
    /\ beatmap_user_sets_query best = Some sets
    /\ mapM (fun c => column_index c best)
            ["beatmap_id"; "pp"; "mods_key"; "user_id"] = Some l1
    /\ mapM (fun c => column_index c best) ["user_id"; "beatmap_id"; "pp"]
       = Some l2
    /\ tables db2
       = <["mart_beatmap_user_sets" := sets]>
           (<["mart_user_topk" := topk]>
              (<["mart_best_scores" := best]>
                 (<["stg_scores" := stg]> (tables db1))))
    /\ indexes db2 !! "idx_mart_best_scores_beatmap_lookup"
       = Some (mkIndex "mart_best_scores"
                       ["beatmap_id"; "pp"; "mods_key"; "user_id"])
    /\ indexes db2 !! "idx_mart_best_scores_user_lookup"
       = Some (mkIndex "mart_best_scores" ["user_id"; "beatmap_id"; "pp"]).
Proof.
  intros Hraw. unfold _run_gold, gold_step.
  unfold create_stg_scores, create_mart_best_scores,
    create_mart_user_topk, create_mart_beatmap_user_sets.
  rewrite create_after_drop. cbn [tables indexes drop_table_if_exists].
  rewrite lookup_delete_ne, Hraw by done. cbn [mbind option_bind].
  destruct (select_where _ raw _ _) as [stg|] eqn:Hstg; [|done]. cbn [mbind option_bind].
  rewrite create_after_drop. cbn [tables indexes drop_table_if_exists].
  rewrite lookup_delete_ne, lookup_insert_eq by done. cbn [mbind option_bind].
  destruct (best_scores_query stg) as [best|] eqn:Hbest; [|done]. cbn [mbind option_bind].
  rewrite create_after_drop. cbn [tables indexes drop_table_if_exists].
  rewrite lookup_delete_ne, lookup_insert_eq by done. cbn [mbind option_bind].
  destruct (user_topk_query best) as [topk|] eqn:Htopk; [|done]. cbn [mbind option_bind].
  rewrite create_after_drop. cbn [tables indexes drop_table_if_exists].
  rewrite lookup_delete_ne, lookup_insert_ne, lookup_insert_eq by done.
  cbn [mbind option_bind].
  destruct (beatmap_user_sets_query best) as [sets|] eqn:Hsets; [|done].
  cbn [mbind option_bind].
  destruct (create_indexes _) as [db'|] eqn:E; [|done]. intros [= <-].
  unfold create_indexes in E.
  destruct (create_index "idx_mart_best_scores_beatmap_lookup" _ _ _)
    as [dbi|] eqn:E1; [|done]. cbn [mbind option_bind] in E.
  pose proof E1 as E1'. pose proof E as E'.
  apply create_index_tables in E1' as [T1 I1].
  apply create_index_tables in E' as [T2 I2].
  unfold create_index in E1, E.
  cbn [tables indexes drop_index_if_exists] in E1, T1.
  rewrite lookup_insert_ne, lookup_insert_ne, lookup_insert_eq in E1 by done.
  cbn [mbind option_bind] in E1.
  destruct (mapM _ ["beatmap_id"; "pp"; "mods_key"; "user_id"]) as [l1|]
    eqn:Hl1; [|done].
  rewrite T1 in E.
  rewrite lookup_insert_ne, lookup_insert_ne, lookup_insert_eq in E by done.
  cbn [mbind option_bind] in E.
  destruct (mapM _ ["user_id"; "beatmap_id"; "pp"]) as [l2|] eqn:Hl2; [|done].
  exists stg, best, topk, sets, l1, l2.
  split_and!; try done.
  - by rewrite T2, T1.
  - rewrite I2, lookup_insert_ne, I1 by done. apply lookup_insert_eq.
  - rewrite I2. apply lookup_insert_eq.
Qed.

(** [glob.glob] and the path of the database file, for the pipeline's own
    run. *)
Variable glob_matches : string -> bool.
Variable db_path : string.

(** The silver phase followed by the gold phase builds what the pipeline's
    own [run_full_pipeline] builds from the same shards: when both phases
    succeed, [run_full_pipeline] on the database they started from succeeds
    as well, and the five tables and the two indexes it leaves are the ones
    the two phases leave. *)
Theorem gold_after_silver_is_the_full_run (db db1 db2 : database) :
  path_exists (PARQUET_DIR +:+ "/" +:+ "scores") = true ->
  glob_matches (PARQUET_DIR +:+ "/" +:+ "scores" +:+ "/*.parquet") = true ->
  _run_silver false db = (true, db1) ->
  _run_gold false db1 = (true, db2) ->
  exists m dbf,
    run_full_pipeline best_scores_query user_topk_query
      beatmap_user_sets_query read_parquet glob_matches db_path
      PARQUET_DIR db = Some (m, dbf)
    /\ Forall (fun name => tables db2 !! name = tables dbf !! name)
              manifest_tables
    /\ Forall (fun name => indexes db2 !! name = indexes dbf !! name)
              lookup_structures.
Proof.
  intros Hex Hglob Hsilver Hgold.
  destruct (silver_scores db db1 Hex Hsilver) as (raw & Hread & Hraw).
  destruct (gold_tables db1 db2 raw Hraw Hgold)
    as (stg & best & topk & sets & l1 & l2 & Hstg & Hbest & Htopk & Hsets
        & Hl1 & Hl2 & Ht & Hi1 & Hi2).
  rewrite run_full_pipeline_built.
  assert (built best_scores_query user_topk_query beatmap_user_sets_query
            read_parquet glob_matches PARQUET_DIR
          = Some (raw, stg, best, topk, sets)) as ->.
  { unfold built, _resolve_parquet_path.
    change (PARQUET_DIR +:+ "/" +:+ "scores" +:+ "/*.parquet")
      with "data/ingest/2026-02/bronze_parquet/scores/*.parquet"
      in Hglob, Hread |- *.
    rewrite Hglob, Hread. cbn [mbind option_bind].
    rewrite Hstg. cbn [mbind option_bind].
    rewrite Hbest. cbn [mbind option_bind].
    rewrite Htopk. cbn [mbind option_bind].
    rewrite Hsets. cbn [mbind option_bind].
    rewrite Hl1. cbn [mbind option_bind].
    by rewrite Hl2. }
  cbn [mbind option_bind]. eexists _, _. split; [reflexivity|].
  unfold manifest_tables, lookup_structures, rebuilt. cbn [tables indexes].
  split; repeat constructor; rewrite ?Ht, ?Hi1, ?Hi2; by simplify_map_eq.
Qed.

End Phases.

(** Shards of [scores] only, without rows. *)
Lemma gold_after_silver_is_the_full_run_witness :
  let best := fun _ : table => Some (mkTable mart_columns []) in
  let sets := fun _ : table => Some (mkTable user_sets_columns []) in
  let read := fun _ : string => Some empty_shards in
  let present := String.eqb "data/ingest/2026-02/bronze_parquet/scores" in
  exists db1 db2 m dbf,
    _run_silver read present false used_db = (true, db1)
    /\ _run_gold best best sets false db1 = (true, db2)
    /\ run_full_pipeline best best sets read (fun _ => true)
         "warehouse/osu.duckdb" PARQUET_DIR used_db = Some (m, dbf)
    /\ tables db2 !! "stg_scores" = tables dbf !! "stg_scores".
Proof.
  intros best sets read present.
  set (db1 := snd (_run_silver read present false used_db)).
  set (db2 := snd (_run_gold best best sets false db1)).
  assert (_run_silver read present false used_db = (true, db1)) as E1.
  { vm_compute. reflexivity. }
  assert (_run_gold best best sets false db1 = (true, db2)) as E2.
  { vm_compute. reflexivity. }
  destruct (gold_after_silver_is_the_full_run best best sets read present
              (fun _ => true) "warehouse/osu.duckdb" used_db db1 db2
              eq_refl eq_refl E1 E2) as (m & dbf & Hrun & Ht & _).
  exists db1, db2, m, dbf.
  split; [exact E1|]. split; [exact E2|]. split; [exact Hrun|].
  inversion_clear Ht as [|? ? _ Ht']. inversion_clear Ht' as [|? ? H _].
  exact H.
Defined.

End Runner.

(* ===================================================================== *)
(** * CSV chunk writer ([scripts/lib/sql_parser.py], [CSVChunkWriter])     *)
(* ===================================================================== *)

Module Csv.

Local Open Scope Z_scope.

Section Writer.

(** The values of a row, and [SQLValueParser.to_csv_value]. *)
Variable Value : Type.
Variable to_csv_value : Value -> string.

(** The rows [csv.writer] was given for a file, in order.  The files of
    the output directory are told apart by their chunk number, which is
    all [_get_chunk_path] makes the path depend on for one writer. *)
Definition csv_file := list (list string).

(** The writer and the files of its output directory: [current_file]
    holds the chunk number of the open file. *)
Record CSVChunkWriter := mkWriter {
  chunk_size : Z;
  columns : option (list string);
  current_chunk : nat;
  current_row_count : Z;
  total_rows : Z;
  current_file : option nat;
  files : gmap nat csv_file
}.

(** [CSVChunkWriter(output_dir, table_name, chunk_size, columns)] over the
    files that are there. *)
Definition init (chunk_size : Z) (columns : option (list string))
           (files : gmap nat csv_file) : CSVChunkWriter :=
  mkWriter chunk_size columns 0 0 0 None files.

(** [if self.columns:] and the header row. *)
Definition header (columns : option (list string)) : csv_file :=
  match columns with
  | Some (c :: cs) => [c :: cs]
  | _ => []
  end.

(** [_start_new_chunk]: the file is opened with mode ["w"]. *)
Definition _start_new_chunk (w : CSVChunkWriter) : CSVChunkWriter :=
  mkWriter (chunk_size w) (columns w) (current_chunk w)
           (current_row_count w) (total_rows w) (Some (current_chunk w))
           (<[current_chunk w := header (columns w)]> (files w)).

(** [self._csv_writer.writerow(csv_row)]. *)
Definition writerow (csv_row : list string) (w : CSVChunkWriter)
  : CSVChunkWriter :=
  match current_file w with
  | Some n =>
      mkWriter (chunk_size w) (columns w) (current_chunk w)
               (current_row_count w) (total_rows w) (current_file w)
               (<[n := default [] (files w !! n) ++ [csv_row]]> (files w))
  | None => w
  end.

(** [write_row]. *)
Definition write_row (w : CSVChunkWriter) (row : list Value)
  : CSVChunkWriter :=
  let w :=
    if bool_decide (current_file w = None)
       || (chunk_size w <=? current_row_count w)
    then _start_new_chunk w else w in
  let csv_row := map to_csv_value row in
  let w := writerow csv_row w in
  mkWriter (chunk_size w) (columns w) (current_chunk w)
           (current_row_count w + 1) (total_rows w + 1) (current_file w)
           (files w).

(** [write_rows]. *)
Definition write_rows (w : CSVChunkWriter) (rows : list (list Value))
  : CSVChunkWriter :=
  foldl write_row w rows.

(** [close]. *)
Definition close (w : CSVChunkWriter) : CSVChunkWriter :=
  mkWriter (chunk_size w) (columns w) (current_chunk w)
           (current_row_count w) (total_rows w) None (files w).

(** ** What is left in the directory *)

(** The rows the file of chunk 0 is left with, under its header, once
    [rows] were written. *)
Definition kept (chunk_size : Z) (rows : list (list Value)) : csv_file :=
  if Z.of_nat (length rows) <=? chunk_size
  then map (map to_csv_value) rows
  else match last rows with
       | Some row => [map to_csv_value row]
       | None => []
       end.

(** The writer only ever writes the file of chunk 0.  As long as the rows
    fit in one chunk the file holds the header and all of them; from the
    row after that on, every row opens the same file anew, so that at the
    end the file holds the header and the last row, while [total_rows]
    counts every row written.  Files of other chunks are not touched. *)
Theorem write_rows_one_file (size : Z) (cols : option (list string))
        (fs : gmap nat csv_file) (rows : list (list Value)) :
  rows <> [] ->
  write_rows (init size cols fs) rows
  = mkWriter size cols 0 (Z.of_nat (length rows))
             (Z.of_nat (length rows)) (Some 0%nat)
             (<[0%nat := header cols ++ kept size rows]> fs).
Proof.
  induction rows as [|row rows IH] using rev_ind; [done|]. intros _.
  unfold write_rows in *. rewrite foldl_app. cbn [foldl].
  destruct rows as [|r0 rows'] using rev_ind.
  - clear IH. unfold kept. simpl.
    unfold write_row, init, _start_new_chunk, writerow. simpl.
    rewrite lookup_insert_eq, insert_insert_eq. simpl.
    by destruct (Z.of_nat 1 <=? size).
  - clear IHrows'. rewrite IH by (by destruct rows').
    set (rows := rows' ++ [r0]) in *.
    assert (Z.of_nat (length (rows ++ [row])) = Z.of_nat (length rows) + 1)
      as Hlen by (rewrite length_app; simpl; lia).
    unfold write_row. cbn [current_file chunk_size current_row_count].
    rewrite bool_decide_eq_false_2 by done. cbn [orb].
    unfold kept. rewrite Hlen, last_snoc.
    destruct (Z.leb_spec size (Z.of_nat (length rows))) as [Hfull|Hroom].
    + unfold _start_new_chunk, writerow. simpl.
      rewrite lookup_insert_eq, !insert_insert_eq. simpl.
      by rewrite (proj2 (Z.leb_gt _ _)) by lia.
    + unfold writerow. simpl.
      rewrite lookup_insert_eq, insert_insert_eq. simpl.
      rewrite (proj2 (Z.leb_le (Z.of_nat (length rows)) _)) by lia.
      rewrite (proj2 (Z.leb_le (Z.of_nat (length rows) + 1) _)) by lia.
      rewrite map_app, <- app_assoc. done.
Qed.

End Writer.

(** Five rows in chunks of three: the file is left with the fifth. *)
Lemma write_rows_one_file_witness :
  let w := write_rows Z (fun z => if (z =? 0)%Z then "0" else "n")
                      (init 3 (Some ["id"]) ∅)
                      [[1]; [2]; [3]; [4]; [0]] in
  files w = {[0%nat := [["id"]; ["0"]]]} /\ total_rows w = 5.
Proof.
  intros w. subst w.
  rewrite (write_rows_one_file Z (fun z => if (z =? 0)%Z then "0" else "n")
             3 (Some ["id"]) ∅ [[1]; [2]; [3]; [4]; [0]] ltac:(done)).
  split; reflexivity.
Defined.

End Csv.

